(** * eventcron: rule parsing, interpolation, permission gate, watch engine
      and executor admission, embedded from the Go sources.

    Go strings are byte sequences; they are modelled as [list ascii]
    (an [ascii] is exactly one byte).  Go's [uint32] and [int] are modelled
    as [Z], with the 32-bit range written out where the code depends on it.
    Go [error] values are the formatted messages themselves. *)

From Stdlib Require Import ZArith Ascii String List Bool Lia Sorted.
From stdpp Require Import base option list gmap strings.

Set Warnings "-register-all".

Local Open Scope Z_scope.
Local Open Scope list_scope.

(* ===================================================================== *)
(** * Part I: definitions                                                  *)
(* ===================================================================== *)

(** ** Go strings *)

Abbreviation byte := ascii.
Abbreviation gostring := (list ascii).

Definition str (s : string) : gostring := list_ascii_of_string s.

Definition byteVal (c : byte) : Z := Z.of_N (N_of_ascii c).
Definition byteOf (z : Z) : byte := ascii_of_N (Z.to_N z).

(** Go's [a == b] on strings. *)
Fixpoint streq (a b : gostring) : bool :=
  match a, b with
  | [], [] => true
  | x :: a', y :: b' => Ascii.eqb x y && streq a' b'
  | _, _ => false
  end.

(** Result of a fallible Go function [(T, error)]: the error is its message. *)
Inductive result (A : Type) : Type :=
| Ok (a : A)
| Err (msg : gostring).
Arguments Ok {A} a.
Arguments Err {A} msg.

Definition isErr {A} (r : result A) : bool :=
  match r with Ok _ => false | Err _ => true end.

(** ** Package [strings] *)

Module strings.

Fixpoint HasPrefix (s prefix : gostring) {struct prefix} : bool :=
  match prefix, s with
  | [], _ => true
  | p :: ps, c :: cs => Ascii.eqb c p && HasPrefix cs ps
  | _ :: _, [] => false
  end.

Definition HasSuffix (s suffix : gostring) : bool :=
  HasPrefix (rev s) (rev suffix).

(** [Cut s sep] splits [s] around the first instance of [sep]
    (that is, at [strings.Index s sep]).  *)
Fixpoint Cut (s sep : gostring) {struct s} : option (gostring * gostring) :=
  if HasPrefix s sep then Some ([], skipn (length sep) s)
  else match s with
       | [] => None
       | c :: cs =>
           match Cut cs sep with
           | Some (before, after) => Some (c :: before, after)
           | None => None
           end
       end.

Definition Contains (s substr : gostring) : bool :=
  match Cut s substr with Some _ => true | None => false end.

(** [strings.SplitN] for [n >= 0] and a non-empty separator (every call
    in the program passes a one-byte separator): at most [n] pieces, the
    last one being the unsplit remainder. *)
Fixpoint SplitN (s sep : gostring) (n : nat) : list gostring :=
  match n with
  | O => []
  | S n' =>
      match n' with
      | O => [s]
      | S _ =>
          match Cut s sep with
          | Some (before, after) => before :: SplitN after sep n'
          | None => [s]
          end
      end
  end.

(** [strings.Split s sep] is [SplitN] with the count of separators plus
    one, which is at most [len(s)+1]. *)
Definition Split (s sep : gostring) : list gostring :=
  SplitN s sep (S (length s)).

Fixpoint Join (elems : list gostring) (sep : gostring) : gostring :=
  match elems with
  | [] => []
  | [e] => e
  | e :: rest => e ++ sep ++ Join rest sep
  end.

(** [strings.ReplaceAll s old new] for a non-empty [old]: the
    non-overlapping instances of [old], found left to right, are replaced.
    Each round consumes at least one byte, so [length s] rounds suffice.
    (The program never passes an empty [old]; the model then returns [s].) *)
Fixpoint replaceLoop (fuel : nat) (s old new : gostring) : gostring :=
  match fuel with
  | O => s
  | S fuel' =>
      match Cut s old with
      | Some (before, after) => before ++ new ++ replaceLoop fuel' after old new
      | None => s
      end
  end.

Definition ReplaceAll (s old new : gostring) : gostring :=
  match old with
  | [] => s
  | _ :: _ => replaceLoop (length s) s old new
  end.

(** The UTF-8 encodings of the runes for which [unicode.IsSpace] holds:
    TAB, LF, VT, FF, CR, SPACE, U+0085, U+00A0, U+1680, U+2000..U+200A,
    U+2028, U+2029, U+202F, U+205F, U+3000. *)
Definition spaceEncodings : list gostring :=
  map (map byteOf)
    [ [9]; [10]; [11]; [12]; [13]; [32];
      [194; 133]; [194; 160];
      [225; 154; 128];
      [226; 128; 128]; [226; 128; 129]; [226; 128; 130]; [226; 128; 131];
      [226; 128; 132]; [226; 128; 133]; [226; 128; 134]; [226; 128; 135];
      [226; 128; 136]; [226; 128; 137]; [226; 128; 138];
      [226; 128; 168]; [226; 128; 169]; [226; 128; 175];
      [226; 129; 159];
      [227; 128; 128] ].

(** The encoding of the white-space rune [s] starts with, if any. *)
Definition leadingSpace (s : gostring) : option gostring :=
  find (HasPrefix s) spaceEncodings.

(** The encoding of the white-space rune [s] ends with, if any. *)
Definition trailingSpace (s : gostring) : option gostring :=
  find (HasSuffix s) spaceEncodings.

Fixpoint trimLeftLoop (fuel : nat) (s : gostring) : gostring :=
  match fuel with
  | O => s
  | S fuel' =>
      match leadingSpace s with
      | Some e => trimLeftLoop fuel' (skipn (length e) s)
      | None => s
      end
  end.

Fixpoint trimRightLoop (fuel : nat) (s : gostring) : gostring :=
  match fuel with
  | O => s
  | S fuel' =>
      match trailingSpace s with
      | Some e => trimRightLoop fuel' (firstn (length s - length e) s)
      | None => s
      end
  end.

Definition TrimLeftSpace (s : gostring) : gostring := trimLeftLoop (length s) s.
Definition TrimRightSpace (s : gostring) : gostring := trimRightLoop (length s) s.

(** [strings.TrimSpace]: leading, then trailing white-space runes go. *)
Definition TrimSpace (s : gostring) : gostring :=
  TrimRightSpace (TrimLeftSpace s).

End strings.


(** ** Package [strconv] and the [%d], [%x] verbs of [fmt] *)

Module strconv.

Definition digitChar (d : Z) : byte :=
  if d <? 10 then byteOf (48 + d) else byteOf (97 + (d - 10)).

(** Digits are produced from the least significant one, as in
    [strconv.FormatUint]; 64 rounds cover every 64-bit value. *)
Fixpoint formatLoop (fuel : nat) (base n : Z) (acc : gostring) : gostring :=
  match fuel with
  | O => acc
  | S fuel' =>
      let acc' := digitChar (n mod base) :: acc in
      if n / base =? 0 then acc' else formatLoop fuel' base (n / base) acc'
  end.

Definition FormatUint (n base : Z) : gostring := formatLoop 64 base n [].

Definition FormatInt (n base : Z) : gostring :=
  if n <? 0 then byteOf 45 :: FormatUint (- n) base else FormatUint n base.

(** The value of one digit: ['0'..'9'], or a letter of either case. *)
Definition digitVal (c : byte) : option Z :=
  let v := byteVal c in
  if (48 <=? v) && (v <=? 57) then Some (v - 48)
  else
    let l := Z.lor v 32 in
    if (97 <=? l) && (l <=? 122) then Some (l - 97 + 10) else None.

Definition maxUint32 : Z := 4294967295.

Fixpoint parseDigits (base acc : Z) (s : gostring) : option Z :=
  match s with
  | [] => Some acc
  | c :: cs =>
      match digitVal c with
      | Some d =>
          if d <? base then
            let n := acc * base + d in
            if n >? maxUint32 then None else parseDigits base n cs
          else None
      | None => None
      end
  end.

(** [strconv.ParseUint(s, base, 32)] for an explicit base (10 or 16 in
    the program): [None] stands for a non-nil error (syntax or range). *)
Definition ParseUint32 (s : gostring) (base : Z) : option Z :=
  match s with
  | [] => None
  | _ :: _ => parseDigits base 0 s
  end.

End strconv.

(** ** Package [path/filepath] (Unix) *)

Module filepath.

Definition slash : byte := byteOf 47.
Definition dot : gostring := [byteOf 46].
Definition dotdot : gostring := [byteOf 46; byteOf 46].

Definition IsAbs (path : gostring) : bool := strings.HasPrefix path [slash].

(** One round of [Clean] over the elements of the path, the elements kept
    so far being held innermost first. *)
Fixpoint cleanElems (rooted : bool) (elems kept : list gostring) : list gostring :=
  match elems with
  | [] => rev kept
  | e :: rest =>
      if streq e [] || streq e dot then cleanElems rooted rest kept
      else if streq e dotdot then
        match kept with
        | k :: kept' =>
            if streq k dotdot then cleanElems rooted rest (e :: kept)
            else cleanElems rooted rest kept'
        | [] =>
            if rooted then cleanElems rooted rest kept
            else cleanElems rooted rest [e]
        end
      else cleanElems rooted rest (e :: kept)
  end.

(** [filepath.Clean]: the shortest equivalent path by lexical processing. *)
Definition Clean (path : gostring) : gostring :=
  match path with
  | [] => dot
  | _ :: _ =>
      let rooted := IsAbs path in
      let body := strings.Join (cleanElems rooted (strings.Split path [slash]) []) [slash] in
      if rooted then slash :: body
      else match body with [] => dot | _ :: _ => body end
  end.

(** [filepath.Join]: leading empty elements are ignored, the rest is
    joined with the separator and cleaned. *)
Fixpoint Join (elem : list gostring) : gostring :=
  match elem with
  | [] => []
  | [] :: rest => Join rest
  | (_ :: _) :: _ => Clean (strings.Join elem [slash])
  end.

Fixpoint stripTrailingSlashes (rpath : gostring) : gostring :=
  match rpath with
  | c :: rest => if Ascii.eqb c slash then stripTrailingSlashes rest else rpath
  | [] => []
  end.

Fixpoint lastElemRev (rpath : gostring) : gostring :=
  match rpath with
  | c :: rest => if Ascii.eqb c slash then [] else c :: lastElemRev rest
  | [] => []
  end.

(** [filepath.Base]: the last element of the path. *)
Definition Base (path : gostring) : gostring :=
  match path with
  | [] => dot
  | _ :: _ =>
      match rev (lastElemRev (stripTrailingSlashes (rev path))) with
      | [] => [slash]
      | b => b
      end
  end.

End filepath.

(** ** Package [eventcron]: core types (types.go) *)

Definition DefaultUserTableDir : gostring := str "/var/spool/eventcron".
Definition DefaultSystemTableDir : gostring := str "/etc/eventcron.d".
Definition DefaultAllowFile : gostring := str "/etc/eventcron.allow".
Definition DefaultDenyFile : gostring := str "/etc/eventcron.deny".

(** Inotify event masks: the values of the [syscall.IN_*] constants on Linux. *)
Definition InAccess : Z := 0x1.
Definition InModify : Z := 0x2.
Definition InAttrib : Z := 0x4.
Definition InCloseWrite : Z := 0x8.
Definition InCloseNowrite : Z := 0x10.
Definition InOpen : Z := 0x20.
Definition InMovedFrom : Z := 0x40.
Definition InMovedTo : Z := 0x80.
Definition InCreate : Z := 0x100.
Definition InDelete : Z := 0x200.
Definition InDeleteSelf : Z := 0x400.
Definition InMoveSelf : Z := 0x800.
Definition InUnmount : Z := 0x2000.
Definition InQOverflow : Z := 0x4000.
Definition InIgnored : Z := 0x8000.
Definition InOnlydir : Z := 0x1000000.
Definition InDontFollow : Z := 0x2000000.
Definition InExclUnlink : Z := 0x4000000.
Definition InMaskAdd : Z := 0x20000000.
Definition InIsdir : Z := 0x40000000.
Definition InOneshot : Z := 0x80000000.
Definition InAllEvents : Z := 0xfff.
Definition InMove : Z := Z.lor InMovedFrom InMovedTo.
Definition InClose : Z := Z.lor InCloseWrite InCloseNowrite.

(** [EventMaskMap]: string representations to constants. *)
Definition EventMaskMap : list (gostring * Z) :=
  [ (str "IN_ACCESS", InAccess);
    (str "IN_MODIFY", InModify);
    (str "IN_ATTRIB", InAttrib);
    (str "IN_CLOSE_WRITE", InCloseWrite);
    (str "IN_CLOSE_NOWRITE", InCloseNowrite);
    (str "IN_OPEN", InOpen);
    (str "IN_MOVED_FROM", InMovedFrom);
    (str "IN_MOVED_TO", InMovedTo);
    (str "IN_CREATE", InCreate);
    (str "IN_DELETE", InDelete);
    (str "IN_DELETE_SELF", InDeleteSelf);
    (str "IN_MOVE_SELF", InMoveSelf);
    (str "IN_UNMOUNT", InUnmount);
    (str "IN_Q_OVERFLOW", InQOverflow);
    (str "IN_IGNORED", InIgnored);
    (str "IN_ONLYDIR", InOnlydir);
    (str "IN_DONT_FOLLOW", InDontFollow);
    (str "IN_EXCL_UNLINK", InExclUnlink);
    (str "IN_MASK_ADD", InMaskAdd);
    (str "IN_ISDIR", InIsdir);
    (str "IN_ONESHOT", InOneshot);
    (str "IN_ALL_EVENTS", InAllEvents);
    (str "IN_MOVE", InMove);
    (str "IN_CLOSE", InClose) ].

(** [ReverseEventMaskMap]: constants to string representations. *)
Definition ReverseEventMaskMap : list (Z * gostring) :=
  [ (InAccess, str "IN_ACCESS");
    (InModify, str "IN_MODIFY");
    (InAttrib, str "IN_ATTRIB");
    (InCloseWrite, str "IN_CLOSE_WRITE");
    (InCloseNowrite, str "IN_CLOSE_NOWRITE");
    (InOpen, str "IN_OPEN");
    (InMovedFrom, str "IN_MOVED_FROM");
    (InMovedTo, str "IN_MOVED_TO");
    (InCreate, str "IN_CREATE");
    (InDelete, str "IN_DELETE");
    (InDeleteSelf, str "IN_DELETE_SELF");
    (InMoveSelf, str "IN_MOVE_SELF");
    (InUnmount, str "IN_UNMOUNT");
    (InQOverflow, str "IN_Q_OVERFLOW");
    (InIgnored, str "IN_IGNORED");
    (InOnlydir, str "IN_ONLYDIR");
    (InDontFollow, str "IN_DONT_FOLLOW");
    (InExclUnlink, str "IN_EXCL_UNLINK");
    (InMaskAdd, str "IN_MASK_ADD");
    (InIsdir, str "IN_ISDIR");
    (InOneshot, str "IN_ONESHOT");
    (InAllEvents, str "IN_ALL_EVENTS") ].

(** Lookup in a Go map with string keys held as a key/value list. *)
Fixpoint lookupStr {V} (m : list (gostring * V)) (k : gostring) : option V :=
  match m with
  | [] => None
  | (k', v) :: m' => if streq k' k then Some v else lookupStr m' k
  end.

(** Lookup in a Go map with [uint32] keys held as a key/value list. *)
Fixpoint lookupZ {V} (m : list (Z * V)) (k : Z) : option V :=
  match m with
  | [] => None
  | (k', v) :: m' => if k' =? k then Some v else lookupZ m' k
  end.

Record EntryOptions := mkEntryOptions {
  NoLoop : bool;     (* loopable=false *)
  Recursive : bool;  (* recursive=true/false *)
  DotDirs : bool     (* dotdirs=true *)
}.

Record IncronEntry := mkIncronEntry {
  Path : gostring;
  Mask : Z;
  Command : gostring;
  Options : EntryOptions;
  LineNumber : Z
}.

(** Go's [a &^ b] on [uint32]. *)
Definition andNot (a b : Z) : Z := Z.land a (Z.lnot b).

(** The flags [MaskToString] checks, in its order of preference. *)
Definition maskFlags : list Z :=
  [ InAccess; InModify; InAttrib; InCloseWrite; InCloseNowrite;
    InOpen; InMovedFrom; InMovedTo; InCreate; InDelete;
    InDeleteSelf; InMoveSelf; InUnmount; InQOverflow; InIgnored;
    InOnlydir; InDontFollow; InExclUnlink; InMaskAdd; InIsdir; InOneshot ].

(** The loop of [MaskToString]: the names collected and the bits left. *)
Fixpoint maskNames (flags : list Z) (mask : Z) : list gostring * Z :=
  match flags with
  | [] => ([], mask)
  | flag :: rest =>
      if negb (Z.land mask flag =? 0) then
        match lookupZ ReverseEventMaskMap flag with
        | Some name =>
            let '(parts, m) := maskNames rest (andNot mask flag) in
            (name :: parts, m)
        | None => maskNames rest mask
        end
      else maskNames rest mask
  end.

Definition hexMask (mask : Z) : gostring :=
  str "0x" ++ strconv.FormatUint mask 16.

Definition MaskToString (e : IncronEntry) : gostring :=
  if Mask e =? InAllEvents then str "IN_ALL_EVENTS"
  else
    let '(names, m) := maskNames maskFlags (Mask e) in
    let parts := if negb (m =? 0) then names ++ [hexMask m] else names in
    match parts with
    | [] => str "0"
    | _ :: _ => strings.Join parts (str ",")
    end.

Definition optionStrings (o : EntryOptions) : list gostring :=
  (if negb (NoLoop o) then [str "loopable=true"] else []) ++
  (if negb (Recursive o) then [str "recursive=false"] else []) ++
  (if DotDirs o then [str "dotdirs=true"] else []).

(** [IncronEntry.String]: the line written to a table file. *)
Definition String (e : IncronEntry) : gostring :=
  let maskStr := MaskToString e in
  let opts := optionStrings (Options e) in
  let maskStr :=
    match opts with
    | [] => maskStr
    | _ :: _ => maskStr ++ str "," ++ strings.Join opts (str ",")
    end in
  Path e ++ str " " ++ maskStr ++ str " " ++ Command e.


(** [parseOption]: a single option such as [loopable=false]. *)
Definition parseOption (optStr : gostring) (opts : EntryOptions) : result EntryOptions :=
  match strings.SplitN optStr (str "=") 2 with
  | [k; v] =>
      let key := strings.TrimSpace k in
      let value := strings.TrimSpace v in
      if streq key (str "loopable") then
        if streq value (str "true") then
          Ok (mkEntryOptions false (Recursive opts) (DotDirs opts))
        else if streq value (str "false") then
          Ok (mkEntryOptions true (Recursive opts) (DotDirs opts))
        else Err (str "invalid value for loopable: " ++ value ++ str " (expected true/false)")
      else if streq key (str "recursive") then
        if streq value (str "true") then
          Ok (mkEntryOptions (NoLoop opts) true (DotDirs opts))
        else if streq value (str "false") then
          Ok (mkEntryOptions (NoLoop opts) false (DotDirs opts))
        else Err (str "invalid value for recursive: " ++ value ++ str " (expected true/false)")
      else if streq key (str "dotdirs") then
        if streq value (str "true") then
          Ok (mkEntryOptions (NoLoop opts) (Recursive opts) true)
        else if streq value (str "false") then
          Ok (mkEntryOptions (NoLoop opts) (Recursive opts) false)
        else Err (str "invalid value for dotdirs: " ++ value ++ str " (expected true/false)")
      else Err (str "unknown option: " ++ key)
  | _ => Err (str "invalid option format: " ++ optStr)
  end.

(** [parseNumericMask]: hex with a [0x]/[0X] prefix, or decimal; [None]
    stands for the non-nil error of [strconv.ParseUint]. *)
Definition parseNumericMask (s : gostring) : option Z :=
  if strings.HasPrefix s (str "0x") || strings.HasPrefix s (str "0X") then
    strconv.ParseUint32 (skipn 2 s) 16
  else strconv.ParseUint32 s 10.

(** The loop of [parseMask] over the comma-separated parts. *)
Fixpoint parseMaskLoop (parts : list gostring) (mask : Z) (opts : EntryOptions)
  : result (Z * EntryOptions) :=
  match parts with
  | [] => Ok (mask, opts)
  | part :: rest =>
      let part := strings.TrimSpace part in
      if strings.Contains part (str "=") then
        match parseOption part opts with
        | Err e => Err e
        | Ok opts' => parseMaskLoop rest mask opts'
        end
      else
        match lookupStr EventMaskMap part with
        | Some eventMask => parseMaskLoop rest (Z.lor mask eventMask) opts
        | None =>
            match parseNumericMask part with
            | Some num => parseMaskLoop rest (Z.lor mask num) opts
            | None => Err (str "unknown event mask: " ++ part)
            end
        end
  end.

Definition parseMask (maskStr : gostring) (opts : EntryOptions) : result (Z * EntryOptions) :=
  match parseMaskLoop (strings.Split maskStr (str ",")) 0 opts with
  | Err e => Err e
  | Ok (mask, opts') =>
      if mask =? 0 then Err (str "no valid event mask specified")
      else Ok (mask, opts')
  end.

Definition defaultOptions : EntryOptions := mkEntryOptions true true false.

(** [ParseEntry]: [Ok None] is the (nil, nil) result for a skipped line. *)
Definition ParseEntry (line : gostring) (lineNumber : Z) : result (option IncronEntry) :=
  let line := strings.TrimSpace line in
  if streq line [] || strings.HasPrefix line (str "#") then Ok None
  else
    match strings.SplitN line (str " ") 3 with
    | [p0; p1; p2] =>
        match parseMask p1 defaultOptions with
        | Err e =>
            Err (str "line " ++ strconv.FormatInt lineNumber 10 ++ str ": " ++ e)
        | Ok (mask, opts) => Ok (Some (mkIncronEntry p0 mask p2 opts lineNumber))
        end
    | _ =>
        Err (str "line " ++ strconv.FormatInt lineNumber 10 ++
             str ": invalid format, expected: <path> <mask> <command>")
    end.

(** [eventMaskToText] ranges over [ReverseEventMaskMap]; Go leaves the
    iteration order of a map unspecified, so the order is an argument. *)
Definition eventMaskToText (order : list (Z * gostring)) (mask : Z) : gostring :=
  let parts :=
    map snd (filter (fun fn => negb (Z.land mask (fst fn) =? 0)) order) in
  match parts with
  | [] => hexMask mask
  | _ :: _ => strings.Join parts (str ",")
  end.

(** [ExpandCommand]: the wildcards are replaced by five successive
    [strings.ReplaceAll] passes. *)
Definition ExpandCommand (order : list (Z * gostring)) (e : IncronEntry)
    (watchPath filename : gostring) (eventMask : Z) : gostring :=
  let cmd := Command e in
  let cmd := strings.ReplaceAll cmd (str "$$") (str "$") in
  let cmd := strings.ReplaceAll cmd (str "$@") watchPath in
  let cmd := strings.ReplaceAll cmd (str "$#") filename in
  let cmd := strings.ReplaceAll cmd (str "$%") (eventMaskToText order eventMask) in
  let cmd := strings.ReplaceAll cmd (str "$&") (strconv.FormatInt eventMask 10) in
  cmd.

(** [MatchesPath].  [regexp.MatchString] belongs to Go's library: it is an
    argument, [None] standing for a pattern that does not compile (the code
    discards the error and keeps [matched = false]). *)
Definition MatchesPath (MatchString : gostring -> gostring -> option bool)
    (e : IncronEntry) (path : gostring) : bool :=
  if strings.Contains (Path e) (str "*") then
    let pattern := strings.ReplaceAll (Path e) (str "*") (str ".*") in
    match MatchString (str "^" ++ pattern ++ str "$") path with
    | Some matched => matched
    | None => false
    end
  else streq (Path e) path.

Record IncronTable := mkIncronTable {
  Entries : list IncronEntry;
  Username : gostring;
  FilePath : gostring
}.

(** ** Files as the program sees them *)

(** What [os.Open] followed by a [bufio.Scanner] yields: the tokens
    [scanner.Text()] returns in order, and [scanner.Err()] once the tokens
    are exhausted. *)
Inductive OpenResult :=
| OpenNotExist (err : gostring)   (* os.IsNotExist(err) *)
| OpenFailed (err : gostring)     (* any other error *)
| Opened (lines : list gostring) (scanErr : option gostring).

Record FileInfo := mkFileInfo { IsDir : bool }.

Record FileSystem := mkFileSystem {
  osStat : gostring -> result FileInfo;
  osOpen : gostring -> OpenResult
}.

(** ** Table loading (table.go) *)

Fixpoint loadLines (filePath : gostring) (lines : list gostring) (lineNumber : Z)
    (entries : list IncronEntry) : result (list IncronEntry) :=
  match lines with
  | [] => Ok entries
  | line :: rest =>
      let lineNumber := lineNumber + 1 in
      match ParseEntry line lineNumber with
      | Err e => Err (str "error in file " ++ filePath ++ str ": " ++ e)
      | Ok None => loadLines filePath rest lineNumber entries
      | Ok (Some entry) => loadLines filePath rest lineNumber (entries ++ [entry])
      end
  end.

Definition LoadTable (fs : FileSystem) (filePath : gostring) : result IncronTable :=
  let username :=
    if strings.Contains filePath DefaultUserTableDir then filepath.Base filePath
    else [] in
  match osOpen fs filePath with
  | OpenNotExist e | OpenFailed e =>
      Err (str "failed to open table file " ++ filePath ++ str ": " ++ e)
  | Opened lines scanErr =>
      match loadLines filePath lines 0 [] with
      | Err e => Err e
      | Ok entries =>
          match scanErr with
          | Some e => Err (str "error reading file " ++ filePath ++ str ": " ++ e)
          | None => Ok (mkIncronTable entries username filePath)
          end
      end
  end.

(** [ValidateEntry]: [None] is the nil error. *)
Definition ValidateEntry (entry : IncronEntry) : option gostring :=
  if negb (filepath.IsAbs (Path entry)) then
    Some (str "path must be absolute: " ++ Path entry)
  else if streq (strings.TrimSpace (Command entry)) [] then
    Some (str "command cannot be empty")
  else if Mask entry =? 0 then
    Some (str "event mask cannot be zero")
  else None.

Definition ValidateTable (table : IncronTable) : list gostring :=
  flat_map (fun ie =>
      match ValidateEntry (snd ie) with
      | Some e => [str "entry " ++ strconv.FormatInt (Z.of_nat (fst ie) + 1) 10 ++ str ": " ++ e]
      | None => []
      end)
    (imap pair (Entries table)).

(** ** Permission gate (permissions.go) *)

Definition fileExists (fs : FileSystem) (filePath : gostring) : bool :=
  match osStat fs filePath with Ok _ => true | Err _ => false end.

(** The scanning loop of [userInFile]. *)
Fixpoint scanForUser (username : gostring) (lines : list gostring) : bool :=
  match lines with
  | [] => false
  | l :: rest =>
      let line := strings.TrimSpace l in
      if streq line [] || strings.HasPrefix line (str "#") then scanForUser username rest
      else if streq line username then true
      else scanForUser username rest
  end.

Definition userInFile (fs : FileSystem) (username filePath : gostring) : result bool :=
  match osOpen fs filePath with
  | OpenNotExist _ => Ok false
  | OpenFailed e => Err e
  | Opened lines scanErr =>
      if scanForUser username lines then Ok true
      else match scanErr with
           | Some e => Err e
           | None => Ok false
           end
  end.

Definition CheckUserPermission (fs : FileSystem) (username : gostring) : result bool :=
  let allowExists := fileExists fs DefaultAllowFile in
  let denyExists := fileExists fs DefaultDenyFile in
  if allowExists then
    match userInFile fs username DefaultAllowFile with
    | Err e => Err (str "error reading allow file: " ++ e)
    | Ok allowed => Ok allowed
    end
  else if denyExists then
    match userInFile fs username DefaultDenyFile with
    | Err e => Err (str "error reading deny file: " ++ e)
    | Ok denied => Ok (negb denied)
    end
  else Ok true.


(** ** Watch engine (watcher.go) *)

Record InotifyEvent := mkInotifyEvent {
  EvPath : gostring;      (* Path: full path where the event occurred *)
  EvName : gostring;      (* Name *)
  EvMask : Z;             (* Mask *)
  EvCookie : Z;           (* Cookie *)
  EvWatchDir : gostring   (* WatchDir *)
}.

Record WatchInfo := mkWatchInfo {
  WiPath : gostring;
  WiMask : Z;
  WiEntry : option IncronEntry;   (* nil for subdirectory watches *)
  WiRecursive : bool;
  WiDotDirs : bool
}.

(** The kernel's inotify instance as the engine calls it. *)
Record Inotify := mkInotify {
  InotifyAddWatch : gostring -> Z -> result Z;
  InotifyRmWatch : Z -> option gostring
}.

(** A directory tree as [filepath.Walk] meets it: what [Lstat] says of each
    name, and for a directory the sorted names [ReadDir] returns, or its
    error. *)
Inductive DirTree :=
| TFile (name : gostring)
| TDir (name : gostring) (readErr : option gostring) (children : list DirTree)
| TLstatErr (name : gostring) (err : gostring).

(** Induction over a tree and, within a directory, over its children. *)
Section DirTree_induction.
Variable P : DirTree -> Prop.
Hypothesis HFile : forall n, P (TFile n).
Hypothesis HErr : forall n e, P (TLstatErr n e).
Hypothesis HDir : forall n re cs, Forall P cs -> P (TDir n re cs).

Fixpoint DirTree_induction (t : DirTree) : P t :=
  match t with
  | TFile n => HFile n
  | TLstatErr n e => HErr n e
  | TDir n re cs =>
      HDir n re cs
        ((fix all (l : list DirTree) : Forall P l :=
            match l with
            | [] => @List.Forall_nil _ P
            | c :: l' => @List.Forall_cons _ P c l' (DirTree_induction c) (all l')
            end) cs)
  end.
End DirTree_induction.

Definition treeName (t : DirTree) : gostring :=
  match t with
  | TFile n | TDir n _ _ | TLstatErr n _ => n
  end.

Definition treeIsDir (t : DirTree) : bool :=
  match t with TDir _ _ _ => true | _ => false end.

Record System := mkSystem {
  sysFS : FileSystem;
  sysInotify : Inotify;
  sysTree : gostring -> DirTree   (* the tree found at a root path *)
}.

(** Lines the engine writes to standard error. *)
Inductive Warning :=
| WarnAddWatch (path err : gostring)
| WarnAddWatchNewDir (path err : gostring)
| WarnChannelFull (event : InotifyEvent).

Record Watcher := mkWatcher {
  watches : gmap Z WatchInfo;          (* watch descriptor -> watch info *)
  pathWatches : gmap gostring Z;       (* path -> watch descriptor *)
  events : list InotifyEvent;          (* content of the event channel *)
  errors : list gostring;              (* content of the error channel *)
  stderr : list Warning
}.

(** Capacity of the event channel ([make(chan *InotifyEvent, 100)]). *)
Definition eventsCap : nat := 100.

Definition setWatch (w : Watcher) (wd : Z) (info : WatchInfo) : Watcher :=
  mkWatcher (<[wd := info]> (watches w)) (<[WiPath info := wd]> (pathWatches w))
            (events w) (errors w) (stderr w).

Definition warn (w : Watcher) (msg : Warning) : Watcher :=
  mkWatcher (watches w) (pathWatches w) (events w) (errors w) (stderr w ++ [msg]).

Definition addSingleWatch (sys : System) (path : gostring) (mask : Z) : result Z :=
  match InotifyAddWatch (sysInotify sys) path mask with
  | Err e => Err (str "failed to add inotify watch for " ++ path ++ str ": " ++ e)
  | Ok wd => Ok wd
  end.

(** [removeWatch] returns the error it meets before touching the maps. *)
Definition removeWatch (sys : System) (w : Watcher) (wd : Z) : Watcher * option gostring :=
  match watches w !! wd with
  | None =>
      (w, Some (str "watch descriptor " ++ strconv.FormatInt wd 10 ++ str " not found"))
  | Some watchInfo =>
      match InotifyRmWatch (sysInotify sys) wd with
      | Some e => (w, Some (str "failed to remove inotify watch: " ++ e))
      | None =>
          (mkWatcher (delete wd (watches w)) (delete (WiPath watchInfo) (pathWatches w))
                     (events w) (errors w) (stderr w), None)
      end
  end.

Definition RemoveWatch (sys : System) (w : Watcher) (path : gostring) : Watcher * option gostring :=
  match pathWatches w !! path with
  | None => (w, Some (str "path " ++ path ++ str " is not being watched"))
  | Some wd => removeWatch sys w wd
  end.

(** What a [filepath.WalkFunc] returns. *)
Inductive WalkErr :=
| WalkNil
| SkipDir
| WalkError (e : gostring).

(** The function [addRecursiveWatches] hands to [filepath.Walk];
    [isDir] is [info.IsDir()], read only when [err] is nil. *)
Definition walkFn (sys : System) (rootPath : gostring) (mask : Z) (includeDotDirs : bool)
    (w : Watcher) (path : gostring) (isDir : bool) (err : option gostring)
  : Watcher * WalkErr :=
  match err with
  | Some e => (w, WalkError e)
  | None =>
      if negb isDir then (w, WalkNil)
      else if streq path rootPath then (w, WalkNil)
      else if negb includeDotDirs && strings.HasPrefix (filepath.Base path) (str ".")
      then (w, SkipDir)
      else
        match addSingleWatch sys path mask with
        | Err e => (warn w (WarnAddWatch path e), WalkNil)
        | Ok wd => (setWatch w wd (mkWatchInfo path mask None true includeDotDirs), WalkNil)
        end
  end.

(** [filepath.walk]: the node was lstat-ed by the caller. *)
Fixpoint walk (fn : Watcher -> gostring -> bool -> option gostring -> Watcher * WalkErr)
    (path : gostring) (node : DirTree) (w : Watcher) {struct node} : Watcher * WalkErr :=
  match node with
  | TFile _ => fn w path false None
  | TLstatErr _ e => fn w path false (Some e)
  | TDir _ readErr children =>
      let '(w1, err1) := fn w path true readErr in
      match readErr, err1 with
      | None, WalkNil =>
          (fix walkNames (cs : list DirTree) (w : Watcher) {struct cs} : Watcher * WalkErr :=
             match cs with
             | [] => (w, WalkNil)
             | c :: cs' =>
                 let filename := filepath.Join [path; treeName c] in
                 match c with
                 | TLstatErr _ e =>
                     let '(w', r) := fn w filename false (Some e) in
                     match r with
                     | WalkError _ => (w', r)
                     | _ => walkNames cs' w'
                     end
                 | _ =>
                     let '(w', r) := walk fn filename c w in
                     match r with
                     | WalkNil => walkNames cs' w'
                     | SkipDir => if treeIsDir c then walkNames cs' w' else (w', r)
                     | WalkError _ => (w', r)
                     end
                 end
             end) children w1
      | _, _ => (w1, err1)
      end
  end.

(** [filepath.Walk]: [None] is the nil error. *)
Definition Walk (sys : System)
    (fn : Watcher -> gostring -> bool -> option gostring -> Watcher * WalkErr)
    (root : gostring) (w : Watcher) : Watcher * option gostring :=
  let '(w', r) :=
    match sysTree sys root with
    | TLstatErr _ e => fn w root false (Some e)
    | node => walk fn root node w
    end in
  match r with
  | WalkError e => (w', Some e)
  | _ => (w', None)
  end.

Definition addRecursiveWatches (sys : System) (w : Watcher) (rootPath : gostring)
    (mask : Z) (includeDotDirs : bool) : Watcher * option gostring :=
  Walk sys (walkFn sys rootPath mask includeDotDirs) rootPath w.

(** [AddWatch]: [None] is the nil error. *)
Definition AddWatch (sys : System) (w : Watcher) (entry : IncronEntry)
  : Watcher * option gostring :=
  let path := Path entry in
  match pathWatches w !! path with
  | Some _ => (w, Some (str "path " ++ path ++ str " is already being watched"))
  | None =>
      match osStat (sysFS sys) path with
      | Err e => (w, Some (str "cannot stat path " ++ path ++ str ": " ++ e))
      | Ok info =>
          let watchInfo :=
            mkWatchInfo path (Mask entry) (Some entry)
                        (Recursive (Options entry)) (DotDirs (Options entry)) in
          match addSingleWatch sys path (Mask entry) with
          | Err e => (w, Some e)
          | Ok wd =>
              let w1 := setWatch w wd watchInfo in
              if IsDir info && Recursive (Options entry) then
                match addRecursiveWatches sys w1 path (Mask entry) (DotDirs (Options entry)) with
                | (w2, Some e) =>
                    (fst (removeWatch sys w2 wd),
                     Some (str "failed to setup recursive watches: " ++ e))
                | (w2, None) => (w2, None)
                end
              else (w1, None)
          end
      end
  end.

(** [createEvent]: [None] is the nil event. *)
Definition createEvent (w : Watcher) (wd mask cookie : Z) (name : gostring)
  : option InotifyEvent :=
  match watches w !! wd with
  | None => None
  | Some watchInfo =>
      let path :=
        match name with
        | [] => WiPath watchInfo
        | _ :: _ => filepath.Join [WiPath watchInfo; name]
        end in
      Some (mkInotifyEvent path name mask cookie (WiPath watchInfo))
  end.

Definition handleDirCreate (sys : System) (w : Watcher) (wd : Z) (name : gostring) : Watcher :=
  match watches w !! wd with
  | None => w
  | Some watchInfo =>
      if negb (WiRecursive watchInfo) then w
      else if negb (WiDotDirs watchInfo) && strings.HasPrefix name (str ".") then w
      else
        let newPath := filepath.Join [WiPath watchInfo; name] in
        match osStat (sysFS sys) newPath with
        | Err _ => w
        | Ok info =>
            if negb (IsDir info) then w
            else
              match addSingleWatch sys newPath (WiMask watchInfo) with
              | Err e => warn w (WarnAddWatchNewDir newPath e)
              | Ok newWd =>
                  setWatch w newWd
                    (mkWatchInfo newPath (WiMask watchInfo) None true (WiDotDirs watchInfo))
              end
        end
  end.

(** Little-endian 32-bit fields of the kernel's [inotify_event]. *)
Definition le32 (b : list byte) : Z :=
  match b with
  | b0 :: b1 :: b2 :: b3 :: _ =>
      byteVal b0 + 256 * byteVal b1 + 65536 * byteVal b2 + 16777216 * byteVal b3
  | _ => 0
  end.

Definition int32 (u : Z) : Z := if u <? 2147483648 then u else u - 4294967296.

(** The non-blocking send of [parseEvents] while the watcher runs (the
    [done] channel is open): the event is queued if the channel has room,
    else dropped with a warning. *)
Definition sendEvent (w : Watcher) (event : InotifyEvent) : Watcher :=
  if (length (events w) <? eventsCap)%nat then
    mkWatcher (watches w) (pathWatches w) (events w ++ [event]) (errors w) (stderr w)
  else warn w (WarnChannelFull event).

(** Removal of the null terminator as the code does it. *)
Definition stripNul (nameBytes : list byte) : list byte :=
  match rev nameBytes with
  | c :: r => if Ascii.eqb c zero then rev r else nameBytes
  | [] => nameBytes
  end.

(** [parseEvents] on [buffer[offset:]]; every round consumes at least the
    16 bytes of a header, so [length buffer] rounds suffice. *)
Fixpoint parseEventsLoop (fuel : nat) (sys : System) (w : Watcher) (buffer : list byte)
  : Watcher :=
  match fuel with
  | O => w
  | S fuel' =>
      match buffer with
      | [] => w
      | _ :: _ =>
      if (length buffer <? 16)%nat then w
      else
        let wd := int32 (le32 buffer) in
        let mask := le32 (skipn 4 buffer) in
        let cookie := le32 (skipn 8 buffer) in
        let nameLen := le32 (skipn 12 buffer) in
        let rest := skipn 16 buffer in
        let continue (name : gostring) (rest : list byte) :=
          let w1 :=
            match createEvent w wd mask cookie name with
            | Some event => sendEvent w event
            | None => w
            end in
          let w2 :=
            if negb (Z.land mask InCreate =? 0) && negb (Z.land mask InIsdir =? 0)
            then handleDirCreate sys w1 wd name
            else w1 in
          parseEventsLoop fuel' sys w2 rest in
        if 0 <? nameLen then
          if Z.of_nat (length rest) <? nameLen then w
          else
            continue (stripNul (firstn (Z.to_nat nameLen) rest))
                     (skipn (Z.to_nat nameLen) rest)
        else continue [] rest
      end
  end.

Definition parseEvents (sys : System) (w : Watcher) (buffer : list byte) : Watcher :=
  parseEventsLoop (length buffer) sys w buffer.


(** [maskToString] of watcher.go: as [eventMaskToText], joined with a bar. *)
Definition maskToString (order : list (Z * gostring)) (mask : Z) : gostring :=
  let parts :=
    map snd (filter (fun fn => negb (Z.land mask (fst fn) =? 0)) order) in
  match parts with
  | [] => hexMask mask
  | _ :: _ => strings.Join parts (str "|")
  end.

(** ** Executor (executor.go) *)

(** [strings.Fields]: the maximal runs of bytes free of white space. *)
Fixpoint fieldsLoop (fuel : nat) (s cur : gostring) : list gostring :=
  let flush := match cur with [] => [] | _ :: _ => [rev cur] end in
  match fuel with
  | O => flush
  | S fuel' =>
      match s with
      | [] => flush
      | c :: s' =>
          match strings.leadingSpace s with
          | Some e => flush ++ fieldsLoop fuel' (skipn (length e) s) []
          | None => fieldsLoop fuel' s' (c :: cur)
          end
      end
  end.

Definition Fields (s : gostring) : list gostring := fieldsLoop (S (length s)) s [].

Definition parseCommand (cmdStr : gostring) : list gostring :=
  let cmdStr := strings.TrimSpace cmdStr in
  match cmdStr with
  | [] => []
  | _ :: _ => Fields cmdStr
  end.

Record UserInfo := mkUserInfo {
  Uid : gostring;
  Gid : gostring;
  HomeDir : gostring
}.

(** The [exec.Cmd] being prepared. *)
Record Cmd := mkCmd {
  CmdArgs : list gostring;
  CmdEnv : list gostring;
  CmdDir : gostring;
  CmdCredential : option (Z * Z)
}.

Record RunningCommand := mkRunningCommand {
  RcID : gostring;
  RcEntry : IncronEntry;
  RcEvent : InotifyEvent;
  RcCmd : Cmd;
  RcUsername : gostring;
  RcStartTime : Z
}.

Record ExecutionResult := mkExecutionResult {
  ErID : gostring;
  ErSuccess : bool;
  ErExitCode : Z;
  ErOutput : list byte;
  ErError : option gostring;
  ErDuration : Z
}.

(** [mu] is the [sync.RWMutex] of the executor: [true] while its write
    lock is held. *)
Record CommandExecutor := mkCommandExecutor {
  runningCommands : gmap gostring RunningCommand;   (* key: command ID *)
  mu : bool;
  maxConcurrent : Z;
  currentCount : Z;
  timeout : Z
}.

Definition NewCommandExecutor (maxConcurrent timeout : Z) : CommandExecutor :=
  mkCommandExecutor ∅ false maxConcurrent 0 timeout.

(** [ce.mu.Lock()] waits while the lock is held, also when the caller is
    the one holding it (the lock is not reentrant): [None] is a caller
    that cannot go on.  [ce.mu.Unlock()] of a lock that is not held is a
    fatal error of the runtime: [None]. *)
Definition Lock (ce : CommandExecutor) : option CommandExecutor :=
  if mu ce then None
  else Some (mkCommandExecutor (runningCommands ce) true (maxConcurrent ce)
                               (currentCount ce) (timeout ce)).

Definition Unlock (ce : CommandExecutor) : option CommandExecutor :=
  if mu ce
  then Some (mkCommandExecutor (runningCommands ce) false (maxConcurrent ce)
                               (currentCount ce) (timeout ce))
  else None.

(** What one call of [Execute] reads from its surroundings. *)
Record ExecEnv := mkExecEnv {
  envNow : Z;                                  (* time.Now().UnixNano() *)
  envEnviron : list gostring;                  (* os.Environ() *)
  envLookup : gostring -> result UserInfo;     (* user.Lookup *)
  envMapOrder : list (Z * gostring)            (* range order of ReverseEventMaskMap *)
}.

Definition minInt64 : Z := -9223372036854775808.
Definition maxInt64 : Z := 9223372036854775807.

Fixpoint atoiDigits (acc : Z) (s : gostring) : option Z :=
  match s with
  | [] => Some acc
  | c :: cs =>
      let v := byteVal c in
      if (48 <=? v) && (v <=? 57) then atoiDigits (acc * 10 + (v - 48)) cs else None
  end.

(** [strconv.Atoi] on a 64-bit platform; [None] is a non-nil error (its
    text, which quotes the input, is left out of the messages below). *)
Definition Atoi (s : gostring) : option Z :=
  let signed (neg : bool) (digits : gostring) :=
    match digits with
    | [] => None
    | _ :: _ =>
        match atoiDigits 0 digits with
        | Some n =>
            let v := if neg then - n else n in
            if (minInt64 <=? v) && (v <=? maxInt64) then Some v else None
        | None => None
        end
    end in
  match s with
  | [] => None
  | c :: rest =>
      if Ascii.eqb c (byteOf 45) then signed true rest
      else if Ascii.eqb c (byteOf 43) then signed false rest
      else signed false s
  end.

(** Go's conversion [uint32(n)]. *)
Definition uint32 (n : Z) : Z := n mod 4294967296.

Definition setupUserCredentials (env : ExecEnv) (cmd : Cmd) (username : gostring) : result Cmd :=
  match envLookup env username with
  | Err e => Err (str "failed to lookup user " ++ username ++ str ": " ++ e)
  | Ok userInfo =>
      match Atoi (Uid userInfo) with
      | None => Err (str "invalid UID for user " ++ username)
      | Some uid =>
          match Atoi (Gid userInfo) with
          | None => Err (str "invalid GID for user " ++ username)
          | Some gid =>
              Ok (mkCmd (CmdArgs cmd)
                        (CmdEnv cmd ++ [str "USER=" ++ username;
                                        str "HOME=" ++ HomeDir userInfo])
                        (HomeDir userInfo)
                        (Some (uint32 uid, uint32 gid)))
          end
      end
  end.

Definition generateCommandID (env : ExecEnv) (entry : IncronEntry) (event : InotifyEvent)
  : gostring :=
  strings.ReplaceAll (Path entry) (str "/") (str "_") ++ str "_" ++
  EvName event ++ str "_" ++
  strconv.FormatInt (EvMask event) 10 ++ str "_" ++
  strconv.FormatInt (envNow env) 10.

(** The loop-prevention scan over the running commands. *)
Definition sameRule (entry : IncronEntry) (username : gostring) (rc : RunningCommand) : bool :=
  streq (Path (RcEntry rc)) (Path entry) && streq (RcUsername rc) username.

Definition alreadyRunning (ce : CommandExecutor) (entry : IncronEntry) (username : gostring)
  : bool :=
  existsb (fun kv => sameRule entry username (snd kv)) (map_to_list (runningCommands ce)).

(** [Execute] between its two uses of the lock, lines 62 to 124: the
    checks and the recording of the command, run by the call that holds
    [ce.mu].  The result is the refusal, or the command now recorded as
    running. *)
Definition ExecuteLocked (env : ExecEnv) (ce : CommandExecutor) (entry : IncronEntry)
    (event : InotifyEvent) (username : gostring) : CommandExecutor * result RunningCommand :=
  if maxConcurrent ce <=? currentCount ce then
    (ce, Err (str "maximum concurrent commands (" ++
              strconv.FormatInt (maxConcurrent ce) 10 ++ str ") reached"))
  else
    let id := generateCommandID env entry event in
    if NoLoop (Options entry) && alreadyRunning ce entry username then
      (ce, Err (str "command already running for path " ++ Path entry ++
                str " (loop prevention)"))
    else
      let expandedCmd :=
        ExpandCommand (envMapOrder env) entry (EvWatchDir event) (EvName event) (EvMask event) in
      match parseCommand expandedCmd with
      | [] => (ce, Err (str "empty command"))
      | cmdParts =>
          let cmd :=
            mkCmd cmdParts
                  (envEnviron env ++
                   [str "INCRON_PATH=" ++ EvPath event;
                    str "INCRON_NAME=" ++ EvName event;
                    str "INCRON_EVENT=" ++ maskToString (envMapOrder env) (EvMask event)])
                  [] None in
          let credentialed :=
            if negb (streq username (str "root")) && negb (streq username [])
            then setupUserCredentials env cmd username
            else Ok cmd in
          match credentialed with
          | Err e => (ce, Err (str "failed to setup user credentials: " ++ e))
          | Ok cmd' =>
              let runningCmd := mkRunningCommand id entry event cmd' username (envNow env) in
              (mkCommandExecutor (<[id := runningCmd]> (runningCommands ce)) (mu ce)
                                 (maxConcurrent ce) (currentCount ce + 1) (timeout ce),
               Ok runningCmd)
          end
      end.

(** Where a call of [Execute] stands. *)
Inductive ExecutePoint :=
| AtLock (entry : IncronEntry) (event : InotifyEvent) (username : gostring)
    (* line 59: ce.mu.Lock(), with the deferred ce.mu.Unlock() *)
| AtAdmission (entry : IncronEntry) (event : InotifyEvent) (username : gostring)
    (* lines 62 to 124, holding ce.mu *)
| AtReceive (runningCmd : RunningCommand)
    (* line 132: result := <-resultChan, still holding ce.mu *)
| AtCleanup (runningCmd : RunningCommand) (result : ExecutionResult)
    (* line 135: ce.mu.Lock() again, still holding ce.mu *)
| Returned (r : result ExecutionResult)
| FatalError (msg : gostring).

Definition unlockOfUnlocked : gostring := str "sync: Unlock of unlocked RWMutex".

(** One step of a call of [Execute]; [None] when the call cannot move: it
    waits for the lock, or it is over.  [received] is what [runCommand]
    sends on the result channel. *)
Definition ExecuteStep (env : ExecEnv) (received : ExecutionResult)
    (ce : CommandExecutor) (pt : ExecutePoint) : option (CommandExecutor * ExecutePoint) :=
  match pt with
  | AtLock entry event username =>
      match Lock ce with
      | Some ce' => Some (ce', AtAdmission entry event username)
      | None => None
      end
  | AtAdmission entry event username =>
      match ExecuteLocked env ce entry event username with
      | (ce', Err msg) =>
          (* return nil, err: the deferred Unlock runs *)
          match Unlock ce' with
          | Some ce'' => Some (ce'', Returned (Err msg))
          | None => Some (ce', FatalError unlockOfUnlocked)
          end
      | (ce', Ok runningCmd) => Some (ce', AtReceive runningCmd)
      end
  | AtReceive runningCmd => Some (ce, AtCleanup runningCmd received)
  | AtCleanup runningCmd result =>
      match Lock ce with
      | None => None
      | Some ce1 =>
          let ce2 :=
            mkCommandExecutor (delete (RcID runningCmd) (runningCommands ce1)) (mu ce1)
                              (maxConcurrent ce1) (currentCount ce1 - 1) (timeout ce1) in
          match Unlock ce2 with
          | None => Some (ce2, FatalError unlockOfUnlocked)
          | Some ce3 =>
              (* return result, nil: the deferred Unlock runs *)
              match Unlock ce3 with
              | Some ce4 => Some (ce4, Returned (Ok result))
              | None => Some (ce3, FatalError unlockOfUnlocked)
              end
          end
      end
  | Returned _ | FatalError _ => None
  end.

(** The executor together with the calls of [Execute] made so far, each
    by a goroutine of its own (the daemon starts one for every match of an
    event with a rule).  Only calls of [Execute] are followed: the other
    methods of the executor take [ce.mu] themselves before they read or
    write it, and none of them releases a lock it has not taken. *)
Record ExecState := mkExecState {
  executor : CommandExecutor;
  calls : list ExecutePoint
}.

Inductive execStep : ExecState -> ExecState -> Prop :=
| step_call st entry event username :
    execStep st (mkExecState (executor st) (calls st ++ [AtLock entry event username]))
| step_run st i pt env received ce' pt' :
    calls st !! i = Some pt ->
    ExecuteStep env received (executor st) pt = Some (ce', pt') ->
    execStep st (mkExecState ce' (<[i := pt']> (calls st))).

Inductive execSteps : ExecState -> ExecState -> Prop :=
| steps_refl st : execSteps st st
| steps_step st st' st'' : execSteps st st' -> execStep st' st'' -> execSteps st st''.

Definition execReachable (maxConcurrent timeout : Z) (st : ExecState) : Prop :=
  execSteps (mkExecState (NewCommandExecutor maxConcurrent timeout) []) st.

(** A call that is outside the part of [Execute] run under the lock and
    has not returned a result. *)
Definition outside (pt : ExecutePoint) : bool :=
  match pt with
  | AtLock _ _ _ => true
  | Returned (Err _) => true
  | _ => false
  end.

(** What holds of the executor and its calls at every moment: at most one
    call, the [holder], is inside the part of [Execute] run under the
    lock; the lock is held exactly when there is one; and a command is
    recorded as running exactly when the holder is past its admission. *)
Definition execInv (st : ExecState) : Prop :=
  exists holder : option nat,
    (forall j pt, calls st !! j = Some pt -> holder <> Some j -> outside pt = true) /\
    match holder with
    | None =>
        mu (executor st) = false /\ currentCount (executor st) = 0 /\
        runningCommands (executor st) = ∅
    | Some i =>
        mu (executor st) = true /\
        ((exists entry event username,
            calls st !! i = Some (AtAdmission entry event username) /\
            currentCount (executor st) = 0 /\ runningCommands (executor st) = ∅) \/
         (exists rc, calls st !! i = Some (AtReceive rc) /\
                     currentCount (executor st) = 1) \/
         (exists rc res, calls st !! i = Some (AtCleanup rc res) /\
                         currentCount (executor st) = 1))
    end.

(** A goroutine calls [Execute]. *)
Definition callExecute (st : ExecState) (entry : IncronEntry) (event : InotifyEvent)
    (username : gostring) : ExecState :=
  mkExecState (executor st) (calls st ++ [AtLock entry event username]).

(** The call numbered [i] makes its next step, if it can. *)
Definition runCall (env : ExecEnv) (received : ExecutionResult) (i : nat) (st : ExecState)
  : ExecState :=
  match calls st !! i with
  | Some pt =>
      match ExecuteStep env received (executor st) pt with
      | Some (ce', pt') => mkExecState ce' (<[i := pt']> (calls st))
      | None => st
      end
  | None => st
  end.


(** ** The interpolation as the documentation describes it *)

Definition dollar : byte := byteOf 36.
Definition space : byte := byteOf 32.

(** One pass over the template: each wildcard is replaced where it stands,
    and what a replacement produced is never scanned again. *)
Fixpoint expandSinglePass (order : list (Z * gostring)) (cmd watchPath filename : gostring)
    (eventMask : Z) : gostring :=
  match cmd with
  | [] => []
  | c :: rest =>
      let keep := c :: expandSinglePass order rest watchPath filename eventMask in
      if Ascii.eqb c dollar then
        match rest with
        | d :: rest' =>
            let tail := expandSinglePass order rest' watchPath filename eventMask in
            if Ascii.eqb d dollar then dollar :: tail
            else if Ascii.eqb d (byteOf 64) then watchPath ++ tail
            else if Ascii.eqb d (byteOf 35) then filename ++ tail
            else if Ascii.eqb d (byteOf 37) then eventMaskToText order eventMask ++ tail
            else if Ascii.eqb d (byteOf 38) then strconv.FormatInt eventMask 10 ++ tail
            else keep
        | [] => keep
        end
      else keep
  end.

(** ** The permission policy as the documentation describes it *)

(** A line names [username]: it is, once trimmed, neither empty nor a
    comment, and equal to the name. *)
Definition isUserLine (username line : gostring) : Prop :=
  strings.TrimSpace line <> [] /\
  strings.HasPrefix (strings.TrimSpace line) (str "#") = false /\
  strings.TrimSpace line = username.

(** The user is listed in the file as it was opened. *)
Definition listed (username : gostring) (file : OpenResult) : Prop :=
  match file with
  | Opened lines _ => Exists (isUserLine username) lines
  | _ => False
  end.

(** Reading the file fails before the user is found in it. *)
Definition readFailure (username : gostring) (file : OpenResult) : Prop :=
  match file with
  | OpenFailed _ => True
  | Opened lines (Some _) => ~ Exists (isUserLine username) lines
  | _ => False
  end.

(** Replacing every occurrence of one byte, written byte by byte. *)
Definition replaceByte (c : byte) (new : gostring) (s : gostring) : gostring :=
  flat_map (fun x => if Ascii.eqb x c then new else [x]) s.

Definition star : byte := byteOf 42.

(** ** Inputs for the examples *)

(** A 32-bit field as the kernel lays it out (little-endian). *)
Definition put32 (v : Z) : list byte :=
  [ byteOf (v mod 256); byteOf (v / 256 mod 256);
    byteOf (v / 65536 mod 256); byteOf (v / 16777216 mod 256) ].

(** One [inotify_event]: the 16-byte header, then the name field. *)
Definition inotifyRecord (wd mask cookie : Z) (field : list byte) : list byte :=
  put32 (wd mod 4294967296) ++ put32 mask ++ put32 cookie ++
  put32 (Z.of_nat (length field)) ++ field.

(** The name field as the kernel writes it (inotify(7)): the file name,
    then NULs up to the next multiple of 16 bytes, at least one. *)
Definition kernelName (fname : list byte) : list byte :=
  fname ++ repeat zero (16 - length fname mod 16).

(** A system on which every call fails. *)
Definition failingSystem : System :=
  mkSystem (mkFileSystem (fun _ => Err (str "no such file or directory"))
                         (fun _ => OpenNotExist (str "no such file or directory")))
           (mkInotify (fun _ _ => Err (str "no space left on device"))
                      (fun _ => Some (str "invalid argument")))
           (fun _ => TLstatErr [] (str "no such file or directory")).

(** An engine watching the single directory [dir] under descriptor 1. *)
Definition watchingOne (dir : gostring) : Watcher :=
  mkWatcher {[ 1 := mkWatchInfo dir InCreate None false false ]} {[ dir := 1 ]} [] [] [].

(** ** Bytes of a mask-field token *)

(** Bytes that occur in no white-space rune and are neither a comma nor
    an equals sign: what the names and numbers of a mask field are made of. *)
Definition tokenByte (c : byte) : bool :=
  forallb (fun e => negb (existsb (Ascii.eqb c) e)) strings.spaceEncodings &&
  negb (Ascii.eqb c (byteOf 44)) && negb (Ascii.eqb c (byteOf 61)).

(** What [MaskToString] needs of a flag: it has one bit and a name, and
    the name reads back as the flag. *)
Definition flagOK (flag : Z) : bool :=
  (flag =? 2 ^ Z.log2 flag) && (0 <? flag) &&
  match lookupZ ReverseEventMaskMap flag with
  | Some name =>
      forallb tokenByte name && negb (streq name []) &&
      match lookupStr EventMaskMap name with
      | Some v => v =? flag
      | None => false
      end
  | None => false
  end.

(** The tokens [MaskToString] joins with commas. *)
Definition maskTokens (mask : Z) : list gostring :=
  if mask =? InAllEvents then [str "IN_ALL_EVENTS"]
  else
    let '(names, m) := maskNames maskFlags mask in
    if negb (m =? 0) then names ++ [hexMask m] else names.

(** ** Tables: the remaining operations (types.go, table.go) *)

Definition Version : gostring := str "1.0.0".

Definition newline : byte := byteOf 10.

Definition IsEmpty (t : IncronTable) : bool := (length (Entries t) =? 0)%nat.

(** [IncronTable.String]: the rendered entries, one per line. *)
Definition IncronTable_String (t : IncronTable) : gostring :=
  strings.Join (map String (Entries t)) [newline].

(** [filepath.Dir] (Unix): all but the last element of the path, cleaned. *)
Fixpoint dropLastElemRev (rpath : gostring) : gostring :=
  match rpath with
  | c :: rest => if Ascii.eqb c filepath.slash then rpath else dropLastElemRev rest
  | [] => []
  end.

Definition filepath_Dir (path : gostring) : gostring :=
  filepath.Clean (rev (dropLastElemRev (rev path))).

Definition GetUserTablePath (username : gostring) : gostring :=
  filepath.Join [DefaultUserTableDir; username].

Definition GetSystemTablePath (tableName : gostring) : gostring :=
  filepath.Join [DefaultSystemTableDir; tableName].

Definition LoadUserTable (fs : FileSystem) (username : gostring) : result IncronTable :=
  LoadTable fs (GetUserTablePath username).

Definition LoadSystemTable (fs : FileSystem) (tableName : gostring) : result IncronTable :=
  LoadTable fs (GetSystemTablePath tableName).

(** What [os.ReadDir] yields: the entries, sorted by name, each with its
    [IsDir]. *)
Inductive ReadDirResult :=
| ReadDirNotExist (err : gostring)   (* os.IsNotExist(err) *)
| ReadDirFailed (err : gostring)     (* any other error *)
| ReadDirOk (entries : list (gostring * bool)).

(** The loop shared by [LoadAllUserTables] and [LoadAllSystemTables]: the
    tables kept so far and the lines written to standard error. *)
Fixpoint loadAllLoop (load : gostring -> result IncronTable)
    (warning : gostring -> gostring -> gostring) (entries : list (gostring * bool))
    (tables : gmap gostring IncronTable) (stderr : list gostring)
  : gmap gostring IncronTable * list gostring :=
  match entries with
  | [] => (tables, stderr)
  | (name, isDir) :: rest =>
      if isDir then loadAllLoop load warning rest tables stderr
      else
        match load name with
        | Err e => loadAllLoop load warning rest tables (stderr ++ [warning name e])
        | Ok table =>
            if negb (IsEmpty table)
            then loadAllLoop load warning rest (<[name := table]> tables) stderr
            else loadAllLoop load warning rest tables stderr
        end
  end.

Definition LoadAllUserTables (fs : FileSystem) (osReadDir : gostring -> ReadDirResult)
  : result (gmap gostring IncronTable) * list gostring :=
  match osReadDir DefaultUserTableDir with
  | ReadDirNotExist _ => (Ok ∅, [])
  | ReadDirFailed e => (Err (str "failed to read user table directory: " ++ e), [])
  | ReadDirOk entries =>
      let '(tables, stderr) :=
        loadAllLoop (LoadUserTable fs)
          (fun username e =>
             str "Warning: failed to load user table for " ++ username ++ str ": " ++ e ++
             [newline])
          entries ∅ [] in
      (Ok tables, stderr)
  end.

Definition LoadAllSystemTables (fs : FileSystem) (osReadDir : gostring -> ReadDirResult)
  : result (gmap gostring IncronTable) * list gostring :=
  match osReadDir DefaultSystemTableDir with
  | ReadDirNotExist _ => (Ok ∅, [])
  | ReadDirFailed e => (Err (str "failed to read system table directory: " ++ e), [])
  | ReadDirOk entries =>
      let '(tables, stderr) :=
        loadAllLoop (LoadSystemTable fs)
          (fun tableName e =>
             str "Warning: failed to load system table " ++ tableName ++ str ": " ++ e ++
             [newline])
          entries ∅ [] in
      (Ok tables, stderr)
  end.

(** The calls by which [SaveTable] prepares its file; [None] is the nil
    error. *)
Record Disk := mkDisk {
  osMkdirAll : gostring -> option gostring;
  osCreate : gostring -> option gostring
}.

(** [SaveTable]: the result is the error, or the bytes handed to the
    created file, in order (the code does not look at what [Fprintf]
    returns). *)
Definition SaveTable (disk : Disk) (table : IncronTable) (filePath : gostring)
  : result (list byte) :=
  let dir := filepath_Dir filePath in
  match osMkdirAll disk dir with
  | Some e => Err (str "failed to create directory " ++ dir ++ str ": " ++ e)
  | None =>
      match osCreate disk filePath with
      | Some e => Err (str "failed to create file " ++ filePath ++ str ": " ++ e)
      | None =>
          Ok (str "# Eventcron table for user " ++ Username table ++ [newline] ++
              str "# Format: <path> <mask> <command>" ++ [newline] ++
              str "# Generated by eventcron " ++ Version ++ [newline; newline] ++
              flat_map (fun entry => String entry ++ [newline]) (Entries table))
      end
  end.

(** ** Lines of a file ([bufio.Scanner] with [bufio.ScanLines]) *)

(** [bufio.MaxScanTokenSize]: the scanner's buffer grows to this size and
    no further. *)
Definition MaxScanTokenSize : Z := 64 * 1024.

Definition ErrTooLong : gostring := str "bufio.Scanner: token too long".

Definition dropCR (data : list byte) : list byte :=
  match rev data with
  | c :: r => if Ascii.eqb c (byteOf 13) then rev r else data
  | [] => data
  end.

(** The tokens [scanner.Text()] returns for a file of content [data] that
    is read without error, and [scanner.Err()] after them.  A line that
    does not end within [MaxScanTokenSize] bytes fills the buffer and stops
    the scanner.  Every round consumes at least one byte. *)
Fixpoint scanLinesLoop (fuel : nat) (data : list byte) : list gostring * option gostring :=
  match fuel with
  | O => ([], None)
  | S fuel' =>
      match data with
      | [] => ([], None)
      | _ :: _ =>
          match strings.Cut data [newline] with
          | Some (line, rest) =>
              if MaxScanTokenSize <=? Z.of_nat (length line) then ([], Some ErrTooLong)
              else
                let '(lines, err) := scanLinesLoop fuel' rest in
                (dropCR line :: lines, err)
          | None =>
              if MaxScanTokenSize <=? Z.of_nat (length data) then ([], Some ErrTooLong)
              else ([dropCR data], None)
          end
      end
  end.

Definition scanLines (data : list byte) : list gostring * option gostring :=
  scanLinesLoop (length data) data.

(** A file that opens and is read without error. *)
Definition fileOf (data : list byte) : OpenResult :=
  let '(lines, err) := scanLines data in Opened lines err.

(** ** Watch engine: the remaining queries (watcher.go) *)

(** [GetWatchedPaths]: the keys of the path index, in the order of the
    map, which Go leaves unspecified. *)
Definition GetWatchedPaths (w : Watcher) : list gostring :=
  map fst (map_to_list (pathWatches w)).

Definition GetWatchCount (w : Watcher) : Z := Z.of_nat (size (watches w)).

(** ** Daemon: matching an event against a rule (cmd/eventcrond) *)

Definition eventMatches (MatchString : gostring -> gostring -> option bool)
    (entry : IncronEntry) (event : InotifyEvent) : bool :=
  if negb (MatchesPath MatchString entry (EvWatchDir event)) &&
     negb (MatchesPath MatchString entry (EvPath event))
  then false
  else if Z.land (Mask entry) (EvMask event) =? 0 then false
  else true.

(** ** Mask fields *)

(** The bits a part of a mask field stands for when it is not an option:
    a name of [EventMaskMap], else a number. *)
Definition eventValue (part : gostring) : option Z :=
  match lookupStr EventMaskMap part with
  | Some eventMask => Some eventMask
  | None => parseNumericMask part
  end.

(** ** File names *)

(** A plain file name: not empty, not [.] or [..], and without a slash. *)
Definition plainName (name : gostring) : Prop :=
  name <> [] /\ name <> filepath.dot /\ name <> filepath.dotdot /\ ~ In filepath.slash name.

(** ** Entries as the parser returns them *)

Definition parsed (e : IncronEntry) : Prop :=
  exists line n, ParseEntry line n = Ok (Some e).

(** The entry with another line number. *)
Definition atLine (n : Z) (e : IncronEntry) : IncronEntry :=
  mkIncronEntry (Path e) (Mask e) (Command e) (Options e) n.

(** The lines [SaveTable] writes before the entries. *)
Definition headerLines (table : IncronTable) : list gostring :=
  [ str "# Eventcron table for user " ++ Username table;
    str "# Format: <path> <mask> <command>";
    str "# Generated by eventcron " ++ Version;
    [] ].

(** A table of two rules, for the examples. *)
Definition exampleTable : IncronTable :=
  mkIncronTable
    [ mkIncronEntry (str "/tmp") InCreate (str "echo $#") defaultOptions 1;
      mkIncronEntry (str "/var/log") 768 (str "logger changed") (mkEntryOptions false true true) 7 ]
    (str "alice") (str "/tmp/eventcrontab_alice_1").

(** ** The two indices of the watch engine *)

(** The indices agree: a path is indexed under a descriptor exactly when
    the watch recorded for the descriptor is a watch of that path. *)
Definition consistent (w : Watcher) : Prop :=
  forall path wd,
    pathWatches w !! path = Some wd <->
    exists info, watches w !! wd = Some info /\ WiPath info = path.

(** The kernel numbers the watches by path: the descriptor it returns
    depends on the path only, two paths never get the same descriptor, and
    a path the engine has indexed gets the descriptor it is indexed under. *)
Definition kernelFaithful (k : Inotify) (w : Watcher) : Prop :=
  (forall p m m' wd wd',
     InotifyAddWatch k p m = Ok wd -> InotifyAddWatch k p m' = Ok wd' -> wd = wd') /\
  (forall p p' m m' wd,
     InotifyAddWatch k p m = Ok wd -> InotifyAddWatch k p' m' = Ok wd -> p = p') /\
  (forall p m wd q wd',
     InotifyAddWatch k p m = Ok wd -> pathWatches w !! q = Some wd' ->
     (wd = wd' <-> p = q)).

(** A kernel for the examples: [/a] is watch 1, [/a/b] is watch 2, and
    nothing else can be watched. *)
Definition exampleKernel : Inotify :=
  mkInotify (fun p _ => if streq p (str "/a") then Ok 1
                        else if streq p (str "/a/b") then Ok 2
                        else Err (str "no such file or directory"))
            (fun _ => None).

(** The directory [/a] with the sub-directories [b] and [.git]. *)
Definition exampleSystem : System :=
  mkSystem (mkFileSystem (fun _ => Ok (mkFileInfo true))
                         (fun _ => OpenNotExist (str "no such file or directory")))
           exampleKernel
           (fun _ => TDir (str "a") None
                       [TDir (str ".git") None [TDir (str "b") None []];
                        TDir (str "b") None []; TFile (str "c")]).

Definition emptyWatcher : Watcher := mkWatcher ∅ ∅ [] [] [].

(** An engine with a recursive watch of [/a] under descriptor 1. *)
Definition watchingTree : Watcher :=
  mkWatcher {[ 1 := mkWatchInfo (str "/a") InCreate None true false ]}
            {[ str "/a" := 1 ]} [] [] [].

(** ** Words of a command *)

(** A byte that occurs in the encoding of no white-space rune (every
    printable ASCII character other than the space is one). *)
Definition wordByte (c : byte) : bool :=
  forallb (fun e => negb (existsb (Ascii.eqb c) e)) strings.spaceEncodings.

(** ** Replacing a wildcard *)

(** One [ReplaceAll] pass of [ExpandCommand], written byte by byte: every
    dollar sign that is followed by [d] is replaced, with [d], by [new];
    what was replaced is not read again. *)
Fixpoint replacePair (d : byte) (new : gostring) (s : gostring) : gostring :=
  match s with
  | [] => []
  | a :: rest =>
      match rest with
      | b :: rest' =>
          if Ascii.eqb a dollar && Ascii.eqb b d then new ++ replacePair d new rest'
          else a :: replacePair d new rest
      | [] => [a]
      end
  end.

(* ===================================================================== *)
(** * Part II: properties                                                  *)
(* ===================================================================== *)

(** ** The unit tests of the package, replayed on the embedding *)

Example TestParseEntry_simple_entry :
  ParseEntry (str "/tmp IN_CREATE echo test") 1 =
  Ok (Some (mkIncronEntry (str "/tmp") InCreate (str "echo test")
              (mkEntryOptions true true false) 1)).
Proof. vm_compute. reflexivity. Qed.

Example TestParseEntry_multiple_events :
  ParseEntry (str "/tmp IN_CREATE,IN_MODIFY echo test") 1 =
  Ok (Some (mkIncronEntry (str "/tmp") (Z.lor InCreate InModify) (str "echo test")
              (mkEntryOptions true true false) 1)).
Proof. vm_compute. reflexivity. Qed.

Example TestParseEntry_with_options :
  ParseEntry (str "/tmp IN_CREATE,loopable=true,recursive=false echo test") 1 =
  Ok (Some (mkIncronEntry (str "/tmp") InCreate (str "echo test")
              (mkEntryOptions false false false) 1)).
Proof. vm_compute. reflexivity. Qed.

Example TestParseEntry_skipped_lines :
  ParseEntry [] 1 = Ok None /\ ParseEntry (str "# this is a comment") 1 = Ok None.
Proof. vm_compute. split; reflexivity. Qed.

Example TestParseEntry_errors :
  ParseEntry (str "/tmp IN_CREATE") 1 =
    Err (str "line 1: invalid format, expected: <path> <mask> <command>") /\
  ParseEntry (str "/tmp INVALID_MASK echo test") 1 =
    Err (str "line 1: unknown event mask: INVALID_MASK").
Proof. vm_compute. split; reflexivity. Qed.

Example TestMaskToString :
  MaskToString (mkIncronEntry [] InCreate [] defaultOptions 0) = str "IN_CREATE" /\
  MaskToString (mkIncronEntry [] (Z.lor InCreate InModify) [] defaultOptions 0)
    = str "IN_MODIFY,IN_CREATE" /\
  MaskToString (mkIncronEntry [] InAllEvents [] defaultOptions 0) = str "IN_ALL_EVENTS" /\
  MaskToString (mkIncronEntry [] 0 [] defaultOptions 0) = str "0".
Proof. vm_compute. repeat split. Qed.

Example TestIncronEntry_ExpandCommand :
  ExpandCommand ReverseEventMaskMap
    (mkIncronEntry [] 0 (str "echo $@ $# $% $& $$") defaultOptions 0)
    (str "/watch/path") (str "filename.txt") InCreate =
  str "echo /watch/path filename.txt IN_CREATE,IN_ALL_EVENTS 256 $".
Proof. vm_compute. reflexivity. Qed.

Example TestValidateEntry :
  ValidateEntry (mkIncronEntry (str "/tmp") InCreate (str "echo test") defaultOptions 0)
    = None /\
  ValidateEntry (mkIncronEntry (str "tmp") InCreate (str "echo test") defaultOptions 0)
    = Some (str "path must be absolute: tmp") /\
  ValidateEntry (mkIncronEntry (str "/tmp") InCreate [] defaultOptions 0)
    = Some (str "command cannot be empty") /\
  ValidateEntry (mkIncronEntry (str "/tmp") 0 (str "echo test") defaultOptions 0)
    = Some (str "event mask cannot be zero").
Proof. vm_compute. repeat split. Qed.

Example TestEventMaskMap :
  forallb (fun kv => match lookupZ ReverseEventMaskMap (snd kv) with
                     | Some name => streq name (fst kv)
                     | None => false
                     end)
    [ (str "IN_CREATE", InCreate); (str "IN_MODIFY", InModify); (str "IN_DELETE", InDelete);
      (str "IN_CLOSE_WRITE", InCloseWrite); (str "IN_ALL_EVENTS", InAllEvents) ] = true /\
  lookupStr EventMaskMap (str "IN_MOVE") = Some 192 /\
  lookupStr EventMaskMap (str "IN_CLOSE") = Some 24.
Proof. vm_compute. repeat split. Qed.

(** ** Strings *)

Lemma streq_eq (a b : gostring) : streq a b = true <-> a = b.
Proof.
  revert b. induction a as [|x a IH]; intros [|y b]; simpl; split; try easy.
  - intros H. apply andb_true_iff in H as [H1 H2].
    apply Ascii.eqb_eq in H1. apply IH in H2. congruence.
  - intros H. injection H as -> ->. rewrite Ascii.eqb_refl. simpl. now apply IH.
Qed.

Lemma streq_refl (a : gostring) : streq a a = true.
Proof. now apply streq_eq. Qed.

Lemma streq_neq (a b : gostring) : streq a b = false <-> a <> b.
Proof.
  split.
  - intros H E. apply streq_eq in E. congruence.
  - intros H. destruct (streq a b) eqn:E; [|easy]. apply streq_eq in E. easy.
Qed.

Lemma HasPrefix_app (p r : gostring) : strings.HasPrefix (p ++ r) p = true.
Proof. induction p as [|c p IH]; simpl; [now destruct r|]. now rewrite Ascii.eqb_refl. Qed.

Lemma HasPrefix_inv (s p : gostring) :
  strings.HasPrefix s p = true -> s = p ++ skipn (length p) s.
Proof.
  revert s. induction p as [|c p IH]; intros s H; simpl in *; [easy|].
  destruct s as [|d s]; [easy|].
  apply andb_true_iff in H as [H1 H2]. apply Ascii.eqb_eq in H1. subst d.
  simpl. f_equal. now apply IH.
Qed.

Lemma HasPrefix_iff (s p : gostring) :
  strings.HasPrefix s p = true <-> exists r, s = p ++ r.
Proof.
  split.
  - intros H. eexists. now apply HasPrefix_inv.
  - intros [r ->]. apply HasPrefix_app.
Qed.

Lemma HasPrefix_nil (s : gostring) : strings.HasPrefix s [] = true.
Proof. now destruct s. Qed.

Lemma HasSuffix_iff (s e : gostring) :
  strings.HasSuffix s e = true <-> exists r, s = r ++ e.
Proof.
  unfold strings.HasSuffix. rewrite HasPrefix_iff. split.
  - intros [r H]. exists (rev r).
    rewrite <- (rev_involutive s), H, rev_app_distr, rev_involutive. easy.
  - intros [r ->]. exists (rev r). now rewrite rev_app_distr.
Qed.

(** *** Cutting at a one-byte separator *)

Lemma Cut_one_None (c : byte) (s : gostring) :
  ~ In c s -> strings.Cut s [c] = None.
Proof.
  induction s as [|d s IH]; intros H; simpl; [easy|].
  destruct (Ascii.eqb d c) eqn:E.
  - apply Ascii.eqb_eq in E. subst. exfalso. apply H. now left.
  - simpl. rewrite IH; [easy|]. intros Hin. apply H. now right.
Qed.

Lemma Cut_one_Some (c : byte) (b a : gostring) :
  ~ In c b -> strings.Cut (b ++ c :: a) [c] = Some (b, a).
Proof.
  induction b as [|d b IH]; intros H; simpl.
  - now rewrite Ascii.eqb_refl.
  - destruct (Ascii.eqb d c) eqn:E; simpl.
    + apply Ascii.eqb_eq in E. subst. exfalso. apply H. now left.
    + rewrite IH; [easy|]. intros Hin. apply H. now right.
Qed.

Lemma Cut_one_inv (c : byte) (s b a : gostring) :
  strings.Cut s [c] = Some (b, a) -> s = b ++ c :: a /\ ~ In c b.
Proof.
  revert b. induction s as [|d s IH]; intros b H; simpl in H; [easy|].
  destruct (Ascii.eqb d c) eqn:E; simpl in H.
  - apply Ascii.eqb_eq in E. subst. injection H as <- <-. now split.
  - destruct (strings.Cut s [c]) as [[b' a']|] eqn:Hc; [|easy].
    injection H as <- <-. destruct (IH b' eq_refl) as [-> Hn]. split; [easy|].
    intros [->|Hin]; [|easy]. now rewrite Ascii.eqb_refl in E.
Qed.

Lemma Cut_one_None_inv (c : byte) (s : gostring) :
  strings.Cut s [c] = None -> ~ In c s.
Proof.
  induction s as [|d s IH]; intros H; simpl in *; [easy|].
  destruct (Ascii.eqb d c) eqn:E; simpl in H; [easy|].
  destruct (strings.Cut s [c]) as [[b' a']|] eqn:Hc; [easy|].
  intros [->|Hin]; [now rewrite Ascii.eqb_refl in E | now apply IH].
Qed.

Lemma Contains_one (c : byte) (s : gostring) :
  strings.Contains s [c] = true <-> In c s.
Proof.
  unfold strings.Contains. destruct (strings.Cut s [c]) as [[b a]|] eqn:H.
  - apply Cut_one_inv in H as [-> _]. split; [|easy]. intros _.
    apply in_or_app. right. now left.
  - apply Cut_one_None_inv in H. split; [easy|]. intros Hin. now destruct H.
Qed.

Lemma Contains_one_false (c : byte) (s : gostring) :
  strings.Contains s [c] = false <-> ~ In c s.
Proof.
  rewrite <- Contains_one. now destruct (strings.Contains s [c]).
Qed.

(** *** SplitN and Join at a one-byte separator *)

Lemma SplitN3_inv (c : byte) (s p0 p1 p2 : gostring) :
  strings.SplitN s [c] 3 = [p0; p1; p2] ->
  s = p0 ++ c :: p1 ++ c :: p2 /\ ~ In c p0 /\ ~ In c p1.
Proof.
  simpl. destruct (strings.Cut s [c]) as [[b a]|] eqn:H1; [|easy].
  destruct (strings.Cut a [c]) as [[b' a']|] eqn:H2; [|easy].
  intros H. injection H as <- <- <-.
  apply Cut_one_inv in H1 as [-> Hn1]. apply Cut_one_inv in H2 as [-> Hn2]. easy.
Qed.

Lemma SplitN3_app (c : byte) (p0 p1 p2 : gostring) :
  ~ In c p0 -> ~ In c p1 ->
  strings.SplitN (p0 ++ c :: p1 ++ c :: p2) [c] 3 = [p0; p1; p2].
Proof.
  intros H0 H1. simpl. rewrite Cut_one_Some by easy. now rewrite Cut_one_Some.
Qed.

Lemma SplitN3_short (c : byte) (s : gostring) :
  (count_occ ascii_dec s c < 2)%nat ->
  (length (strings.SplitN s [c] 3) < 3)%nat.
Proof.
  intros H. simpl. destruct (strings.Cut s [c]) as [[b a]|] eqn:H1; [|simpl; lia].
  destruct (strings.Cut a [c]) as [[b' a']|] eqn:H2; [|simpl; lia].
  apply Cut_one_inv in H1 as [-> _]. apply Cut_one_inv in H2 as [-> _].
  exfalso. rewrite count_occ_app in H. simpl in H.
  destruct (ascii_dec c c); [|easy]. rewrite count_occ_app in H. simpl in H.
  destruct (ascii_dec c c); [|easy]. lia.
Qed.

Lemma SplitN2_Some (c : byte) (b a : gostring) :
  ~ In c b -> strings.SplitN (b ++ c :: a) [c] 2 = [b; a].
Proof. intros H. simpl. now rewrite Cut_one_Some. Qed.

Lemma SplitN_SS (s sep : gostring) (n : nat) :
  strings.SplitN s sep (S (S n)) =
  match strings.Cut s sep with
  | Some (before, after) => before :: strings.SplitN after sep (S n)
  | None => [s]
  end.
Proof. reflexivity. Qed.

Lemma SplitN_Join (c : byte) (toks : list gostring) (n : nat) :
  toks <> [] -> Forall (fun t => ~ In c t) toks -> (length toks <= n)%nat ->
  strings.SplitN (strings.Join toks [c]) [c] n = toks.
Proof.
  revert n. induction toks as [|t toks IH]; intros n Hne Hall Hlen; [easy|].
  inversion Hall as [|? ? Ht Hall']; subst.
  destruct toks as [|t' toks].
  - destruct n as [|[|n]]; simpl in Hlen; try lia; [easy|].
    rewrite SplitN_SS. cbn [strings.Join]. now rewrite Cut_one_None.
  - destruct n as [|[|n]]; simpl in Hlen; try lia.
    change (strings.Join (t :: t' :: toks) [c])
      with (t ++ c :: strings.Join (t' :: toks) [c]).
    rewrite SplitN_SS, Cut_one_Some by easy. f_equal.
    apply IH; [easy|easy|simpl in *; lia].
Qed.

Lemma Join_length_ge (toks : list gostring) (sep : gostring) :
  sep <> [] -> (length toks <= S (length (strings.Join toks sep)))%nat.
Proof.
  intros Hs. induction toks as [|t toks IH]; [simpl; lia|].
  destruct toks as [|t' toks]; [simpl; lia|].
  change (strings.Join (t :: t' :: toks) sep)
    with (t ++ sep ++ strings.Join (t' :: toks) sep).
  rewrite !length_app. destruct sep; [easy|].
  cbn [length] in *. lia.
Qed.

Lemma Split_Join (c : byte) (toks : list gostring) :
  toks <> [] -> Forall (fun t => ~ In c t) toks ->
  strings.Split (strings.Join toks [c]) [c] = toks.
Proof.
  intros Hne Hall. unfold strings.Split. apply SplitN_Join; [easy|easy|].
  pose proof (Join_length_ge toks [c] ltac:(easy)). lia.
Qed.

Lemma Join_app (a b : list gostring) (sep : gostring) :
  a <> [] -> b <> [] ->
  strings.Join (a ++ b) sep = strings.Join a sep ++ sep ++ strings.Join b sep.
Proof.
  intros Ha Hb. induction a as [|x a IH]; [easy|].
  destruct a as [|y a].
  - simpl. destruct b; [easy|]. easy.
  - change (strings.Join ((x :: y :: a) ++ b) sep)
      with (x ++ sep ++ strings.Join ((y :: a) ++ b) sep).
    rewrite IH by easy.
    change (strings.Join (x :: y :: a) sep) with (x ++ sep ++ strings.Join (y :: a) sep).
    now rewrite <- !app_assoc.
Qed.

(** *** White space *)

Lemma spaceEnc_nonempty (e : gostring) : In e strings.spaceEncodings -> e <> [].
Proof.
  intros H ->. revert H.
  assert (forallb (fun e => negb (streq e [])) strings.spaceEncodings = true) as Hall
    by (vm_compute; reflexivity).
  intros H. rewrite forallb_forall in Hall. apply Hall in H. easy.
Qed.

Lemma leadingSpace_Some (s e : gostring) :
  strings.leadingSpace s = Some e ->
  In e strings.spaceEncodings /\ s = e ++ skipn (length e) s /\ e <> [].
Proof.
  intros H. apply find_some in H as [H1 H2]. split; [easy|]. split.
  - now apply HasPrefix_inv.
  - now apply spaceEnc_nonempty.
Qed.

Lemma leadingSpace_None (s e : gostring) :
  strings.leadingSpace s = None -> In e strings.spaceEncodings ->
  strings.HasPrefix s e = false.
Proof. intros H Hin. exact (find_none _ _ H e Hin). Qed.

Lemma leadingSpace_None_intro (s : gostring) :
  (forall e, In e strings.spaceEncodings -> strings.HasPrefix s e = false) ->
  strings.leadingSpace s = None.
Proof.
  intros H. unfold strings.leadingSpace.
  destruct (find (strings.HasPrefix s) strings.spaceEncodings) as [e|] eqn:E; [|easy].
  apply find_some in E as [E1 E2]. rewrite H in E2; easy.
Qed.

Lemma trailingSpace_Some (s e : gostring) :
  strings.trailingSpace s = Some e ->
  In e strings.spaceEncodings /\ s = firstn (length s - length e) s ++ e /\ e <> [].
Proof.
  intros H. apply find_some in H as [H1 H2]. split; [easy|]. split.
  - apply HasSuffix_iff in H2 as [r ->].
    rewrite length_app, Nat.add_sub, firstn_app, Nat.sub_diag, firstn_all. simpl.
    now rewrite app_nil_r.
  - now apply spaceEnc_nonempty.
Qed.

Lemma trailingSpace_None (s e : gostring) :
  strings.trailingSpace s = None -> In e strings.spaceEncodings ->
  strings.HasSuffix s e = false.
Proof. intros H Hin. exact (find_none _ _ H e Hin). Qed.

Lemma trailingSpace_None_intro (s : gostring) :
  (forall e, In e strings.spaceEncodings -> strings.HasSuffix s e = false) ->
  strings.trailingSpace s = None.
Proof.
  intros H. unfold strings.trailingSpace.
  destruct (find (strings.HasSuffix s) strings.spaceEncodings) as [e|] eqn:E; [|easy].
  apply find_some in E as [E1 E2]. rewrite H in E2; easy.
Qed.

Lemma leadingSpace_nil : strings.leadingSpace [] = None.
Proof. reflexivity. Qed.

Lemma trailingSpace_nil : strings.trailingSpace [] = None.
Proof. reflexivity. Qed.

Lemma trimLeftLoop_spec (fuel : nat) (s : gostring) :
  (length s <= fuel)%nat ->
  strings.leadingSpace (strings.trimLeftLoop fuel s) = None /\
  exists pre, s = pre ++ strings.trimLeftLoop fuel s.
Proof.
  revert s. induction fuel as [|fuel IH]; intros s Hlen.
  - destruct s; [|simpl in Hlen; lia]. simpl. split; [easy|now exists []].
  - simpl. destruct (strings.leadingSpace s) as [e|] eqn:E.
    + apply leadingSpace_Some in E as (Hin & Hs & Hne).
      assert (length (skipn (length e) s) <= fuel)%nat as Hl.
      { rewrite length_skipn. destruct e; [easy|]. simpl in *. lia. }
      destruct (IH _ Hl) as [H1 [pre H2]]. split; [easy|].
      exists (e ++ pre). rewrite <- app_assoc, <- H2. easy.
    + split; [easy|now exists []].
Qed.

Lemma trimRightLoop_spec (fuel : nat) (s : gostring) :
  (length s <= fuel)%nat ->
  strings.trailingSpace (strings.trimRightLoop fuel s) = None /\
  exists suf, s = strings.trimRightLoop fuel s ++ suf.
Proof.
  revert s. induction fuel as [|fuel IH]; intros s Hlen.
  - destruct s; [|simpl in Hlen; lia]. simpl. split; [easy|now exists []].
  - simpl. destruct (strings.trailingSpace s) as [e|] eqn:E.
    + apply trailingSpace_Some in E as (Hin & Hs & Hne).
      assert (length (firstn (length s - length e) s) <= fuel)%nat as Hl.
      { rewrite length_firstn. destruct e; [easy|]. simpl in *. lia. }
      destruct (IH _ Hl) as [H1 [suf H2]]. split; [easy|].
      exists (suf ++ e). rewrite app_assoc, <- H2. easy.
    + split; [easy|]. exists []. now rewrite app_nil_r.
Qed.

Lemma leadingSpace_prefix (s r : gostring) :
  s <> [] -> strings.leadingSpace (s ++ r) = None -> strings.leadingSpace s = None.
Proof.
  intros Hne H. apply leadingSpace_None_intro. intros e Hin.
  destruct (strings.HasPrefix s e) eqn:E; [|easy].
  apply HasPrefix_iff in E as [q ->].
  pose proof (leadingSpace_None _ _ H Hin) as Hf.
  rewrite <- app_assoc, HasPrefix_app in Hf. easy.
Qed.

(** A trimmed string neither starts nor ends with a white-space rune. *)
Lemma TrimSpace_trimmed (s : gostring) :
  strings.leadingSpace (strings.TrimSpace s) = None /\
  strings.trailingSpace (strings.TrimSpace s) = None.
Proof.
  unfold strings.TrimSpace, strings.TrimLeftSpace, strings.TrimRightSpace.
  destruct (trimLeftLoop_spec (length s) s (le_n _)) as [Hl _].
  set (u := strings.trimLeftLoop (length s) s) in *.
  destruct (trimRightLoop_spec (length u) u (le_n _)) as [Hr [suf Hu]].
  split; [|easy].
  destruct (strings.trimRightLoop (length u) u) as [|c t] eqn:E; [easy|].
  apply (leadingSpace_prefix _ suf); [easy|]. now rewrite <- Hu.
Qed.

Lemma TrimSpace_id (s : gostring) :
  strings.leadingSpace s = None -> strings.trailingSpace s = None ->
  strings.TrimSpace s = s.
Proof.
  intros Hl Hr. unfold strings.TrimSpace, strings.TrimLeftSpace, strings.TrimRightSpace.
  assert (strings.trimLeftLoop (length s) s = s) as ->.
  { destruct s; [easy|]. simpl length. cbn [strings.trimLeftLoop]. now rewrite Hl. }
  destruct s; [easy|]. simpl length. cbn [strings.trimRightLoop]. now rewrite Hr.
Qed.

Lemma TrimSpace_idem (s : gostring) :
  strings.TrimSpace (strings.TrimSpace s) = strings.TrimSpace s.
Proof. destruct (TrimSpace_trimmed s). now apply TrimSpace_id. Qed.

Lemma trimLeftLoop_nil_inv (fuel : nat) (c : gostring) :
  strings.trimLeftLoop fuel c = [] ->
  c = [] \/ exists e, In e strings.spaceEncodings /\ strings.HasSuffix c e = true.
Proof.
  revert c. induction fuel as [|fuel IH]; intros c H; simpl in H; [now left|].
  destruct (strings.leadingSpace c) as [e|] eqn:E; [|now left].
  apply leadingSpace_Some in E as (Hin & Hs & Hne). right.
  destruct (IH _ H) as [Hnil|[e' [Hin' Hsuf]]].
  - exists e. split; [easy|]. apply HasSuffix_iff. exists []. rewrite Hs, Hnil.
    now rewrite app_nil_r.
  - exists e'. split; [easy|]. apply HasSuffix_iff. apply HasSuffix_iff in Hsuf as [r Hr].
    exists (e ++ r). rewrite Hs at 1. rewrite Hr. now rewrite app_assoc.
Qed.

(** A non-empty tail of a trimmed string is not blank. *)
Lemma TrimSpace_suffix_nonempty (r c : gostring) :
  strings.trailingSpace (r ++ c) = None -> c <> [] -> strings.TrimSpace c <> [].
Proof.
  intros Ht Hc Hnil.
  assert (forall u : gostring, In u strings.spaceEncodings ->
            strings.HasSuffix c u = true -> False) as Hno.
  { intros u Hin Hsuf. apply HasSuffix_iff in Hsuf as [q ->].
    pose proof (trailingSpace_None _ _ Ht Hin) as Hf.
    assert (strings.HasSuffix (r ++ q ++ u) u = true) as Ht'.
    { apply HasSuffix_iff. exists (r ++ q). now rewrite app_assoc. }
    congruence. }
  unfold strings.TrimSpace, strings.TrimLeftSpace, strings.TrimRightSpace in Hnil.
  destruct (trimLeftLoop_spec (length c) c (le_n _)) as [_ [pre Hpre]].
  destruct (strings.trimLeftLoop (length c) c) as [|x v] eqn:Eu.
  - destruct (trimLeftLoop_nil_inv _ _ Eu) as [->|[e [Hin Hsuf]]]; [easy|].
    exact (Hno e Hin Hsuf).
  - simpl length in Hnil. cbn [strings.trimRightLoop] in Hnil.
    destruct (strings.trailingSpace (x :: v)) as [e|] eqn:E; [|easy].
    apply trailingSpace_Some in E as (Hin & Hs & _).
    apply (Hno e Hin). apply HasSuffix_iff.
    exists (pre ++ firstn (length (x :: v) - length e) (x :: v)).
    rewrite <- app_assoc, <- Hs. easy.
Qed.

(** ** Parsing one line *)

Lemma str_space : str " " = [space].
Proof. reflexivity. Qed.

Lemma ParseEntry_inv (line : gostring) (n : Z) (e : IncronEntry) :
  ParseEntry line n = Ok (Some e) ->
  exists p0 p1 p2 mask opts,
    strings.TrimSpace line = p0 ++ space :: p1 ++ space :: p2 /\
    ~ In space p0 /\ ~ In space p1 /\
    parseMask p1 defaultOptions = Ok (mask, opts) /\
    e = mkIncronEntry p0 mask p2 opts n.
Proof.
  unfold ParseEntry. set (t := strings.TrimSpace line).
  destruct (streq t [] || strings.HasPrefix t (str "#")); [easy|].
  destruct (strings.SplitN t (str " ") 3) as [|p0 [|p1 [|p2 [|? ?]]]] eqn:Hs; try easy.
  destruct (parseMask p1 defaultOptions) as [[mask opts]|msg] eqn:Hm; [|easy].
  intros H. injection H as <-.
  apply SplitN3_inv in Hs as (Ht & H0 & H1).
  exists p0, p1, p2, mask, opts. easy.
Qed.

Lemma parseMask_nonzero (m : gostring) (o : EntryOptions) (mask : Z) (o' : EntryOptions) :
  parseMask m o = Ok (mask, o') -> mask <> 0.
Proof.
  unfold parseMask. destruct (parseMaskLoop _ _ _) as [[mk ok]|]; [|easy].
  destruct (mk =? 0) eqn:E; [easy|]. intros H. injection H as <- <-.
  now apply Z.eqb_neq.
Qed.

Lemma trailingSpace_last_space (r : gostring) :
  strings.trailingSpace (r ++ [space]) <> None.
Proof.
  intros H.
  assert (In [space] strings.spaceEncodings) as Hin by (vm_compute; tauto).
  pose proof (trailingSpace_None _ _ H Hin) as Hf.
  assert (strings.HasSuffix (r ++ [space]) [space] = true) as Ht
    by (apply HasSuffix_iff; now exists r).
  congruence.
Qed.

Lemma leadingSpace_first_space (r : gostring) :
  strings.leadingSpace (space :: r) <> None.
Proof.
  intros H.
  assert (In [space] strings.spaceEncodings) as Hin by (vm_compute; tauto).
  pose proof (leadingSpace_None _ _ H Hin) as Hf.
  change (space :: r) with ([space] ++ r) in Hf. now rewrite HasPrefix_app in Hf.
Qed.

(** The three parts of a parsed line: the path is not empty and the
    command is not blank. *)
Lemma ParseEntry_parts (line p0 p1 p2 : gostring) :
  strings.TrimSpace line = p0 ++ space :: p1 ++ space :: p2 ->
  p0 <> [] /\ p2 <> [] /\ strings.TrimSpace p2 <> [].
Proof.
  intros Ht. destruct (TrimSpace_trimmed line) as [Hl Hr]. rewrite Ht in Hl, Hr.
  assert (p0 <> []) as H0.
  { intros ->. now apply (leadingSpace_first_space (p1 ++ space :: p2)). }
  assert (p2 <> []) as H2.
  { intros ->. apply (trailingSpace_last_space (p0 ++ space :: p1)).
    now rewrite <- app_assoc. }
  split; [easy|]. split; [easy|].
  apply (TrimSpace_suffix_nonempty (p0 ++ space :: p1 ++ [space])); [|easy].
  rewrite <- Hr. f_equal. rewrite <- !app_assoc. simpl. now rewrite <- app_assoc.
Qed.

Lemma loadLines_entries (filePath : gostring) (P : IncronEntry -> Prop)
    (lines : list gostring) (k : Z) (acc res : list IncronEntry) :
  (forall line n e, ParseEntry line n = Ok (Some e) -> P e) ->
  Forall P acc -> loadLines filePath lines k acc = Ok res -> Forall P res.
Proof.
  intros HP. revert k acc. induction lines as [|l lines IH]; intros k acc Hacc H; simpl in H.
  - now injection H as <-.
  - destruct (ParseEntry l (k + 1)) as [[e|]|] eqn:E; [| |easy].
    + apply (IH _ _) in H; [easy|]. apply Forall_app. split; [easy|].
      constructor; [|constructor]. now apply (HP _ _ _ E).
    + now apply (IH _ _ Hacc H).
Qed.

Lemma LoadTable_entries (fs : FileSystem) (filePath : gostring) (P : IncronEntry -> Prop)
    (t : IncronTable) :
  (forall line n e, ParseEntry line n = Ok (Some e) -> P e) ->
  LoadTable fs filePath = Ok t -> Forall P (Entries t).
Proof.
  intros HP. unfold LoadTable. destruct (osOpen fs filePath) as [?|?|lines scanErr]; try easy.
  destruct (loadLines filePath lines 0 []) as [entries|] eqn:E; [|easy].
  destruct scanErr; [easy|]. intros H. injection H as <-. simpl.
  now apply (loadLines_entries filePath P lines 0 [] entries HP).
Qed.

(** A line that [ParseEntry] rejects makes the whole load fail. *)
Lemma loadLines_line_error (filePath : gostring) (lines : list gostring) (k : Z)
    (acc : list IncronEntry) (i : nat) (l : gostring) :
  lines !! i = Some l ->
  isErr (ParseEntry l (k + Z.of_nat i + 1)) = true ->
  isErr (loadLines filePath lines k acc) = true.
Proof.
  revert k acc i. induction lines as [|x lines IH]; intros k acc i Hl He; [easy|].
  cbn [loadLines]. destruct i as [|i].
  - injection Hl as ->. replace (k + Z.of_nat 0 + 1) with (k + 1) in He by lia.
    destruct (ParseEntry l (k + 1)) as [[e|]|]; try discriminate. reflexivity.
  - cbn in Hl. replace (k + Z.of_nat (S i) + 1) with (k + 1 + Z.of_nat i + 1) in He by lia.
    destruct (ParseEntry x (k + 1)) as [[e|]|]; [| |reflexivity].
    + now apply (IH _ _ i).
    + now apply (IH _ _ i).
Qed.

(** ** Claims on the parser and the interpolation *)

(** C1 (interpolation is not single-pass).  On the template [$$@] the code
    first rewrites [$$] to [$] and then reads the result as [$@]: the
    expansion is the watch directory, whereas one pass over the template
    gives the two characters [$@]. *)
Theorem ExpandCommand_dollar_dollar_at :
  let e := mkIncronEntry (str "/w") InCreate (str "$$@") defaultOptions 1 in
  ExpandCommand ReverseEventMaskMap e (str "/w") (str "f.txt") InCreate = str "/w" /\
  expandSinglePass ReverseEventMaskMap (Command e) (str "/w") (str "f.txt") InCreate
    = str "$@".
Proof. split; vm_compute; reflexivity. Qed.

(** C2, as stated, fails: a relative path is parsed into a Rule. *)
Lemma ParseEntry_accepts_relative_path :
  ~ (forall line n e,
       ParseEntry line n = Ok (Some e) ->
       Mask e <> 0 /\ strings.HasPrefix (Path e) (str "/") = true /\
       strings.TrimSpace (Command e) <> []).
Proof.
  intros H.
  specialize (H (str "tmp IN_CREATE echo test") 1
                (mkIncronEntry (str "tmp") InCreate (str "echo test") defaultOptions 1)
                eq_refl).
  destruct H as (_ & H & _). vm_compute in H. discriminate.
Qed.

(** C2, amended.  Every Rule produced by [ParseEntry], and so every entry
    of a table returned by [LoadTable], has a non-zero mask and a command
    that is not blank; its path is not empty but need not be absolute:
    that is checked by [ValidateEntry], which accepts a parsed Rule exactly
    when its path begins with a slash.  A line that is neither blank nor a
    comment yields an error instead of a Rule when it lacks a command (its
    trimmed text has fewer than two space bytes) and when the tokens of its
    mask field add up to zero; and [LoadTable] fails on a file one of
    whose lines [ParseEntry] rejects. *)
Theorem parsed_rule_invariants (fs : FileSystem) (filePath line : gostring) (n : Z) :
  (forall e,
     ParseEntry line n = Ok (Some e) \/
     (exists t, LoadTable fs filePath = Ok t /\ In e (Entries t)) ->
     Mask e <> 0 /\
     strings.TrimSpace (Command e) <> [] /\
     Path e <> [] /\
     (ValidateEntry e = None <-> strings.HasPrefix (Path e) (str "/") = true)) /\
  (strings.TrimSpace line <> [] ->
   strings.HasPrefix (strings.TrimSpace line) (str "#") = false ->
   ((count_occ ascii_dec (strings.TrimSpace line) space < 2)%nat ->
    ParseEntry line n =
    Err (str "line " ++ strconv.FormatInt n 10 ++
         str ": invalid format, expected: <path> <mask> <command>")) /\
   (forall p m c opts,
      strings.TrimSpace line = p ++ str " " ++ m ++ str " " ++ c ->
      ~ In space p -> ~ In space m ->
      parseMaskLoop (strings.Split m (str ",")) 0 defaultOptions = Ok (0, opts) ->
      ParseEntry line n =
      Err (str "line " ++ strconv.FormatInt n 10 ++
           str ": no valid event mask specified"))) /\
  (forall lines scanErr i l,
     osOpen fs filePath = Opened lines scanErr ->
     lines !! i = Some l ->
     isErr (ParseEntry l (Z.of_nat i + 1)) = true ->
     isErr (LoadTable fs filePath) = true).
Proof.
  assert (forall line n e, ParseEntry line n = Ok (Some e) ->
            Mask e <> 0 /\ strings.TrimSpace (Command e) <> [] /\ Path e <> [] /\
            (ValidateEntry e = None <-> strings.HasPrefix (Path e) (str "/") = true)) as HP.
  { clear. intros line n e H.
    apply ParseEntry_inv in H as (p0 & p1 & p2 & mask & opts & Ht & _ & _ & Hm & ->).
    apply parseMask_nonzero in Hm. apply ParseEntry_parts in Ht as (H0 & _ & H2).
    cbn [Path Mask Command]. split; [easy|]. split; [easy|]. split; [easy|].
    unfold ValidateEntry, filepath.IsAbs. cbn [Path Mask Command].
    change [filepath.slash] with (str "/").
    apply streq_neq in H2. apply Z.eqb_neq in Hm. rewrite H2, Hm.
    destruct (strings.HasPrefix p0 (str "/")); cbn [negb]; easy. }
  split; [|split].
  - intros e [H|[t [Ht Hin]]].
    + now apply (HP line n).
    + pose proof (LoadTable_entries fs filePath _ t HP Ht) as Hall.
      rewrite List.Forall_forall in Hall. now apply Hall.
  - intros Hne Hc. unfold ParseEntry.
    apply streq_neq in Hne. rewrite Hne, Hc. simpl orb. cbv iota. split.
    + intros Hcount. apply (SplitN3_short space) in Hcount. rewrite str_space.
      destruct (strings.SplitN (strings.TrimSpace line) [space] 3)
        as [|p0 [|p1 [|p2 [|? ?]]]]; try easy; simpl in Hcount; lia.
    + intros p m c opts Ht Hp Hm Hzero. rewrite Ht. rewrite !str_space.
      change (p ++ [space] ++ m ++ [space] ++ c) with (p ++ space :: m ++ space :: c).
      rewrite SplitN3_app by easy. unfold parseMask. rewrite Hzero. reflexivity.
  - intros lines scanErr i l Ho Hl He. unfold LoadTable. rewrite Ho.
    pose proof (loadLines_line_error filePath lines 0 [] i l Hl) as H.
    rewrite Z.add_0_l in H. specialize (H He).
    destruct (loadLines filePath lines 0 []); [discriminate|reflexivity].
Qed.

Lemma parsed_rule_invariants_witness :
  let fs := mkFileSystem (fun _ => Ok (mkFileInfo false))
              (fun _ => Opened [str "/tmp IN_CREATE echo test"; str "/var 0 echo zero"] None) in
  let e := mkIncronEntry (str "/tmp") InCreate (str "echo test") defaultOptions 1 in
  ParseEntry (str "/tmp IN_CREATE echo test") 1 = Ok (Some e) /\
  (Mask e <> 0 /\ strings.TrimSpace (Command e) <> [] /\ Path e <> [] /\
   (ValidateEntry e = None <-> strings.HasPrefix (Path e) (str "/") = true)) /\
  ParseEntry (str "/tmp IN_CREATE") 3 =
    Err (str "line 3: invalid format, expected: <path> <mask> <command>") /\
  ParseEntry (str "/var 0 echo zero") 2 = Err (str "line 2: no valid event mask specified") /\
  ParseEntry (str "/var loopable=true echo zero") 2 =
    Err (str "line 2: no valid event mask specified") /\
  isErr (LoadTable fs (str "/etc/eventcron.d/t")) = true.
Proof.
  intros fs e. split; [reflexivity|]. split; [|split; [|split; [|split]]].
  - apply (parsed_rule_invariants fs [] (str "/tmp IN_CREATE echo test") 1).
    left. reflexivity.
  - apply (parsed_rule_invariants fs [] (str "/tmp IN_CREATE") 3).
    + vm_compute. discriminate.
    + vm_compute. reflexivity.
    + vm_compute. lia.
  - apply (parsed_rule_invariants fs [] (str "/var 0 echo zero") 2)
      with (p := str "/var") (m := str "0") (c := str "echo zero") (opts := defaultOptions).
    + vm_compute. discriminate.
    + vm_compute. reflexivity.
    + vm_compute. reflexivity.
    + vm_compute. intuition discriminate.
    + vm_compute. intuition discriminate.
    + vm_compute. reflexivity.
  - apply (parsed_rule_invariants fs [] (str "/var loopable=true echo zero") 2)
      with (p := str "/var") (m := str "loopable=true") (c := str "echo zero")
           (opts := mkEntryOptions false true false).
    + vm_compute. discriminate.
    + vm_compute. reflexivity.
    + vm_compute. reflexivity.
    + vm_compute. intuition discriminate.
    + vm_compute. intuition discriminate.
    + vm_compute. reflexivity.
  - apply (parsed_rule_invariants fs (str "/etc/eventcron.d/t") [] 0)
      with (lines := [str "/tmp IN_CREATE echo test"; str "/var 0 echo zero"])
           (scanErr := None) (i := 1%nat) (l := str "/var 0 echo zero").
    + reflexivity.
    + reflexivity.
    + vm_compute. reflexivity.
Defined.

(** C3, as stated, fails: three fields separated by tabs, or by two
    spaces, are not parsed into a Rule. *)
Lemma ParseEntry_other_whitespace :
  ParseEntry (str "/tmp" ++ [byteOf 9] ++ str "IN_CREATE" ++ [byteOf 9] ++ str "echo") 1
    = Err (str "line 1: invalid format, expected: <path> <mask> <command>") /\
  ParseEntry (str "/tmp  IN_CREATE echo") 1
    = Err (str "line 1: unknown event mask: ").
Proof. split; vm_compute; reflexivity. Qed.

(** C3, amended.  The trimmed line is cut at its first two space bytes
    (0x20) and at nothing else: a line of the form [p m c], with one space
    on each side of [m] and no space inside [p] and [m], gives exactly
    these three parts (the command keeps any further spaces), and a trimmed
    line with fewer than two space bytes is the format error. *)
Theorem ParseEntry_fields (line : gostring) (n : Z) :
  strings.TrimSpace line <> [] ->
  strings.HasPrefix (strings.TrimSpace line) (str "#") = false ->
  ((count_occ ascii_dec (strings.TrimSpace line) space < 2)%nat ->
     ParseEntry line n =
     Err (str "line " ++ strconv.FormatInt n 10 ++
          str ": invalid format, expected: <path> <mask> <command>")) /\
  (forall p m c,
     strings.TrimSpace line = p ++ str " " ++ m ++ str " " ++ c ->
     ~ In space p -> ~ In space m ->
     strings.SplitN (strings.TrimSpace line) (str " ") 3 = [p; m; c] /\
     ParseEntry line n =
     match parseMask m defaultOptions with
     | Err e => Err (str "line " ++ strconv.FormatInt n 10 ++ str ": " ++ e)
     | Ok (mask, opts) => Ok (Some (mkIncronEntry p mask c opts n))
     end).
Proof.
  intros Hne Hc. unfold ParseEntry.
  apply streq_neq in Hne. rewrite Hne, Hc. simpl orb. cbv iota. split.
  - intros Hcount. apply (SplitN3_short space) in Hcount. rewrite str_space.
    destruct (strings.SplitN (strings.TrimSpace line) [space] 3)
      as [|p0 [|p1 [|p2 [|? ?]]]]; try easy; simpl in Hcount; lia.
  - intros p m c Ht Hp Hm. rewrite Ht. rewrite !str_space.
    change (p ++ [space] ++ m ++ [space] ++ c) with (p ++ space :: m ++ space :: c).
    rewrite SplitN3_app by easy. easy.
Qed.

Lemma ParseEntry_fields_witness :
  ParseEntry (str "/tmp IN_CREATE  echo test") 7 =
  Ok (Some (mkIncronEntry (str "/tmp") InCreate (str " echo test") defaultOptions 7)).
Proof.
  refine (let H := ParseEntry_fields (str "/tmp IN_CREATE  echo test") 7 _ _ in _).
  Unshelve.
  - destruct H as [_ H].
    destruct (H (str "/tmp") (str "IN_CREATE") (str " echo test")) as [_ ->].
    + vm_compute; reflexivity.
    + vm_compute. intuition discriminate.
    + vm_compute. intuition discriminate.
    + vm_compute; reflexivity.
  - vm_compute. discriminate.
  - vm_compute; reflexivity.
Defined.

(** ** Permission gate *)

Lemma scanForUser_iff (username : gostring) (lines : list gostring) :
  scanForUser username lines = true <-> Exists (isUserLine username) lines.
Proof.
  induction lines as [|l lines [IH1 IH2]]; cbn [scanForUser].
  - split; [easy|]. intros H. inversion H.
  - destruct (streq (strings.TrimSpace l) []) eqn:E1; cbn [orb].
    { apply streq_eq in E1. split; [intros H; right; auto|].
      intros H. inversion H as [? ? [Hn _]|]; subst; [easy|auto]. }
    destruct (strings.HasPrefix (strings.TrimSpace l) (str "#")) eqn:E2; cbv iota.
    { split; [intros H; right; auto|].
      intros H. inversion H as [? ? (_ & Hc & _)|]; subst; [congruence|auto]. }
    destruct (streq (strings.TrimSpace l) username) eqn:E3.
    + apply streq_eq in E3. apply streq_neq in E1. split; [|easy].
      intros _. left. now split.
    + apply streq_neq in E3. split; [intros H; right; auto|].
      intros H. inversion H as [? ? (_ & _ & He)|]; subst; [easy|auto].
Qed.

Lemma userInFile_ok (fs : FileSystem) (username filePath : gostring) (b : bool) :
  userInFile fs username filePath = Ok b ->
  (b = true <-> listed username (osOpen fs filePath)).
Proof.
  unfold userInFile, listed. destruct (osOpen fs filePath) as [?|?|lines scanErr].
  - intros H. injection H as <-. easy.
  - easy.
  - destruct (scanForUser username lines) eqn:E.
    + intros H. injection H as <-. apply scanForUser_iff in E. easy.
    + destruct scanErr; [easy|]. intros H. injection H as <-.
      split; [easy|]. intros H. apply scanForUser_iff in H. congruence.
Qed.

Lemma userInFile_err (fs : FileSystem) (username filePath : gostring) :
  isErr (userInFile fs username filePath) = true <->
  readFailure username (osOpen fs filePath).
Proof.
  unfold userInFile, readFailure. destruct (osOpen fs filePath) as [?|?|lines scanErr];
    simpl; try easy.
  pose proof (scanForUser_iff username lines) as [H1 H2].
  destruct (scanForUser username lines); destruct scanErr; simpl; split; try easy.
  - intros H. exfalso. apply H. auto.
  - intros _ H. apply H2 in H. easy.
Qed.

(** C4.  A file exists when [os.Stat] returns no error for it.  With an
    allow-file, a permit is given exactly to the listed users and the
    deny-file has no say (its state does not enter the result); without
    one but with a deny-file, exactly to the users not listed there; with
    neither, to everybody.  A read failure met before the user is found
    is returned as an error. *)
Theorem CheckUserPermission_policy (fs : FileSystem) (username : gostring) :
  (forall info, osStat fs DefaultAllowFile = Ok info ->
     (forall b, CheckUserPermission fs username = Ok b ->
                (b = true <-> listed username (osOpen fs DefaultAllowFile))) /\
     (isErr (CheckUserPermission fs username) = true <->
      readFailure username (osOpen fs DefaultAllowFile)) /\
     (forall fs',
        osStat fs' DefaultAllowFile = osStat fs DefaultAllowFile ->
        osOpen fs' DefaultAllowFile = osOpen fs DefaultAllowFile ->
        CheckUserPermission fs' username = CheckUserPermission fs username)) /\
  (forall e info,
     osStat fs DefaultAllowFile = Err e -> osStat fs DefaultDenyFile = Ok info ->
     (forall b, CheckUserPermission fs username = Ok b ->
                (b = true <-> ~ listed username (osOpen fs DefaultDenyFile))) /\
     (isErr (CheckUserPermission fs username) = true <->
      readFailure username (osOpen fs DefaultDenyFile))) /\
  (forall e e',
     osStat fs DefaultAllowFile = Err e -> osStat fs DefaultDenyFile = Err e' ->
     CheckUserPermission fs username = Ok true).
Proof.
  unfold CheckUserPermission, fileExists. split; [|split].
  - intros info Ha. rewrite Ha. split; [|split].
    + intros b. destruct (userInFile fs username DefaultAllowFile) eqn:E; [|easy].
      intros H. injection H as <-. now apply userInFile_ok.
    + pose proof (userInFile_err fs username DefaultAllowFile) as [H1 H2].
      destruct (userInFile fs username DefaultAllowFile); simpl in *; split; auto.
    + intros fs' Hs Ho. rewrite Hs. unfold userInFile. now rewrite Ho.
  - intros e info Ha Hd. rewrite Ha, Hd. split.
    + intros b. destruct (userInFile fs username DefaultDenyFile) as [d|] eqn:E; [|easy].
      intros H. injection H as <-. apply userInFile_ok in E. destruct E as [E1 E2].
      destruct d; simpl; split; try easy.
      * intros H. exfalso. apply H. auto.
      * intros _ H. apply E2 in H. easy.
    + pose proof (userInFile_err fs username DefaultDenyFile) as [H1 H2].
      destruct (userInFile fs username DefaultDenyFile); simpl in *; split; auto.
  - intros e e' Ha Hd. now rewrite Ha, Hd.
Qed.

Lemma CheckUserPermission_policy_witness :
  let missing := Err (str "no such file or directory") in
  let both :=
    mkFileSystem (fun _ => Ok (mkFileInfo false))
      (fun p => if streq p DefaultAllowFile
                then Opened [str "# operators"; str "alice"] None
                else Opened [str "alice"] None) in
  let denyOnly :=
    mkFileSystem
      (fun p => if streq p DefaultDenyFile then Ok (mkFileInfo false) else missing)
      (fun p => if streq p DefaultDenyFile then Opened [str "bob"] None
                else OpenNotExist (str "no such file or directory")) in
  let unreadable :=
    mkFileSystem (fun _ => Ok (mkFileInfo false))
      (fun _ => OpenFailed (str "permission denied")) in
  let neither :=
    mkFileSystem (fun _ => missing)
      (fun _ => OpenNotExist (str "no such file or directory")) in
  (CheckUserPermission both (str "alice") = Ok true /\
   listed (str "alice") (osOpen both DefaultAllowFile)) /\
  (CheckUserPermission both (str "carol") = Ok false /\
   ~ listed (str "carol") (osOpen both DefaultAllowFile)) /\
  (CheckUserPermission denyOnly (str "bob") = Ok false /\
   listed (str "bob") (osOpen denyOnly DefaultDenyFile)) /\
  isErr (CheckUserPermission unreadable (str "alice")) = true /\
  CheckUserPermission neither (str "alice") = Ok true.
Proof.
  intros missing both denyOnly unreadable neither.
  split; [|split; [|split; [|split]]].
  - split; [reflexivity|].
    destruct (CheckUserPermission_policy both (str "alice")) as (Ha & _ & _).
    destruct (Ha (mkFileInfo false) eq_refl) as (H & _ & _).
    now apply (H true).
  - split; [reflexivity|].
    destruct (CheckUserPermission_policy both (str "carol")) as (Ha & _ & _).
    destruct (Ha (mkFileInfo false) eq_refl) as (H & _ & _).
    intros Hl. apply (H false) in Hl; [discriminate|reflexivity].
  - split; [reflexivity|].
    destruct (CheckUserPermission_policy denyOnly (str "bob")) as (_ & Hd & _).
    destruct (Hd (str "no such file or directory") (mkFileInfo false) eq_refl eq_refl)
      as (H & _).
    destruct (H false eq_refl) as [_ H2].
    destruct (decide (Exists (isUserLine (str "bob")) [str "bob"])) as [Hin|Hout];
      [exact Hin|].
    exfalso. assert (false = true) by (apply H2; exact Hout). discriminate.
  - destruct (CheckUserPermission_policy unreadable (str "alice")) as (Ha & _ & _).
    destruct (Ha (mkFileInfo false) eq_refl) as (_ & H & _).
    apply H. exact I.
  - destruct (CheckUserPermission_policy neither (str "alice")) as (_ & _ & Hn).
    exact (Hn _ _ eq_refl eq_refl).
Defined.

(** ** Path matching *)

Lemma replaceByte_notin (c : byte) (new s : gostring) :
  ~ In c s -> replaceByte c new s = s.
Proof.
  unfold replaceByte. induction s as [|x s IH]; intros H; simpl; [easy|].
  destruct (Ascii.eqb x c) eqn:E.
  - apply Ascii.eqb_eq in E. subst. exfalso. apply H. now left.
  - simpl. f_equal. apply IH. intros Hin. apply H. now right.
Qed.

Lemma replaceByte_app (c : byte) (new a b : gostring) :
  replaceByte c new (a ++ b) = replaceByte c new a ++ replaceByte c new b.
Proof. unfold replaceByte. apply flat_map_app. Qed.

Lemma replaceLoop_one (c : byte) (new : gostring) (fuel : nat) (s : gostring) :
  (length s <= fuel)%nat ->
  strings.replaceLoop fuel s [c] new = replaceByte c new s.
Proof.
  revert s. induction fuel as [|fuel IH]; intros s Hlen.
  - destruct s; [easy|simpl in Hlen; lia].
  - simpl. destruct (strings.Cut s [c]) as [[b a]|] eqn:E.
    + apply Cut_one_inv in E as [-> Hn].
      rewrite replaceByte_app, (replaceByte_notin c new b Hn).
      change (c :: a) with ([c] ++ a). rewrite replaceByte_app.
      rewrite IH.
      * f_equal. f_equal. unfold replaceByte. simpl. rewrite Ascii.eqb_refl.
        now rewrite app_nil_r.
      * rewrite length_app in Hlen. simpl in Hlen. lia.
    + apply Cut_one_None_inv in E. now rewrite replaceByte_notin.
Qed.

(** Replacing a one-byte [old] replaces every occurrence of that byte. *)
Lemma ReplaceAll_one (c : byte) (new s : gostring) :
  strings.ReplaceAll s [c] new = replaceByte c new s.
Proof. unfold strings.ReplaceAll. now apply replaceLoop_one. Qed.

(** C6.  [MatchesPath] holds exactly when the path of the Rule has a star
    and the candidate is matched by the regular expression made of the
    path, each star replaced by dot-star and nothing else touched, between
    the two anchors; or the path has no star and equals the candidate. *)
Theorem MatchesPath_spec (MatchString : gostring -> gostring -> option bool)
    (e : IncronEntry) (path : gostring) :
  MatchesPath MatchString e path = true <->
  (In star (Path e) /\
   MatchString (str "^" ++ replaceByte star (str ".*") (Path e) ++ str "$") path = Some true)
  \/ (~ In star (Path e) /\ path = Path e).
Proof.
  unfold MatchesPath. change (str "*") with [star].
  rewrite ReplaceAll_one.
  destruct (strings.Contains (Path e) [star]) eqn:E.
  - apply Contains_one in E. split.
    + intros H. left. split; [easy|].
      destruct (MatchString _ path) as [[|]|]; easy.
    + intros [[_ ->]|[Hn _]]; easy.
  - apply Contains_one_false in E. rewrite streq_eq. split.
    + intros <-. now right.
    + intros [[Hin _]|[_ ->]]; easy.
Qed.

(** ** Decoding inotify records *)

(** The loop needs no more rounds than the buffer has bytes. *)
Lemma parseEventsLoop_fuel (sys : System) (fuel1 fuel2 : nat) (w : Watcher)
    (buffer : list byte) :
  (length buffer <= fuel1)%nat -> (length buffer <= fuel2)%nat ->
  parseEventsLoop fuel1 sys w buffer = parseEventsLoop fuel2 sys w buffer.
Proof.
  revert fuel2 w buffer. induction fuel1 as [|fuel1 IH]; intros fuel2 w buffer H1 H2.
  - destruct buffer; [|simpl in H1; lia]. now destruct fuel2.
  - destruct fuel2 as [|fuel2].
    { destruct buffer; [|simpl in H2; lia]. easy. }
    cbn [parseEventsLoop]. destruct buffer as [|b0 buffer]; [easy|].
    destruct (length (b0 :: buffer) <? 16)%nat eqn:E16; [easy|].
    apply Nat.ltb_ge in E16.
    assert (forall k, (length (skipn k (skipn 16 (b0 :: buffer))) <= fuel1)%nat) as Hf1.
    { intros k. rewrite !length_skipn. lia. }
    assert (forall k, (length (skipn k (skipn 16 (b0 :: buffer))) <= fuel2)%nat) as Hf2.
    { intros k. rewrite !length_skipn. lia. }
    destruct (0 <? le32 (skipn 12 (b0 :: buffer))).
    + destruct (Z.of_nat (length (skipn 16 (b0 :: buffer))) <? _); [easy|].
      apply IH; [apply Hf1|apply Hf2].
    + apply IH; [apply (Hf1 0%nat)|apply (Hf2 0%nat)].
Qed.

(** One round of [parseEvents] on a buffer that starts with a complete
    record. *)
Lemma parseEvents_record (sys : System) (w : Watcher) (buffer : list byte) :
  (16 <= length buffer)%nat ->
  0 <= le32 (skipn 12 buffer) <= Z.of_nat (length buffer) - 16 ->
  let wd := int32 (le32 buffer) in
  let mask := le32 (skipn 4 buffer) in
  let cookie := le32 (skipn 8 buffer) in
  let nameLen := Z.to_nat (le32 (skipn 12 buffer)) in
  let name := match nameLen with
              | O => []
              | S _ => stripNul (firstn nameLen (skipn 16 buffer))
              end in
  let w1 := match createEvent w wd mask cookie name with
            | Some event => sendEvent w event
            | None => w
            end in
  let w2 := if negb (Z.land mask InCreate =? 0) && negb (Z.land mask InIsdir =? 0)
            then handleDirCreate sys w1 wd name else w1 in
  parseEvents sys w buffer = parseEvents sys w2 (skipn (16 + nameLen) buffer).
Proof.
  intros H16 Hlen. cbv zeta. unfold parseEvents.
  destruct buffer as [|b0 buffer]; [simpl in H16; lia|].
  set (buf := b0 :: buffer) in *.
  change (length buf) with (S (length buffer)) at 1.
  cbn [parseEventsLoop]. fold buf.
  destruct (length buf <? 16)%nat eqn:E16; [apply Nat.ltb_lt in E16; lia|].
  assert (length (skipn 16 buf) = length buf - 16)%nat as Hrest by apply length_skipn.
  destruct (0 <? le32 (skipn 12 buf)) eqn:Epos.
  - apply Z.ltb_lt in Epos.
    destruct (Z.of_nat (length (skipn 16 buf)) <? le32 (skipn 12 buf)) eqn:Eshort.
    { apply Z.ltb_lt in Eshort. lia. }
    destruct (Z.to_nat (le32 (skipn 12 buf))) as [|k] eqn:Ek; [lia|].
    rewrite <- Ek. rewrite skipn_skipn, (Nat.add_comm _ 16).
    apply parseEventsLoop_fuel; rewrite length_skipn; unfold buf; simpl length; lia.
  - apply Z.ltb_ge in Epos.
    assert (le32 (skipn 12 buf) = 0) as -> by lia. simpl Z.to_nat. cbv iota.
    rewrite Nat.add_0_r.
    apply parseEventsLoop_fuel; rewrite length_skipn; unfold buf; simpl length; lia.
Qed.

(** A partial record at the end of the buffer is dropped. *)
Lemma parseEvents_partial (sys : System) (w : Watcher) (buffer : list byte) :
  (length buffer < 16)%nat \/
  Z.of_nat (length buffer) - 16 < le32 (skipn 12 buffer) ->
  parseEvents sys w buffer = w.
Proof.
  intros H. unfold parseEvents. destruct buffer as [|b0 buffer]; [easy|].
  set (buf := b0 :: buffer) in *.
  change (length buf) with (S (length buffer)) at 1.
  cbn [parseEventsLoop]. fold buf.
  destruct (length buf <? 16)%nat eqn:E16; [easy|]. apply Nat.ltb_ge in E16.
  destruct H as [H|H]; [lia|].
  assert (length (skipn 16 buf) = length buf - 16)%nat as Hrest by apply length_skipn.
  destruct (0 <? le32 (skipn 12 buf)) eqn:Epos; [|apply Z.ltb_ge in Epos; lia].
  destruct (Z.of_nat (length (skipn 16 buf)) <? le32 (skipn 12 buf)) eqn:Eshort; [easy|].
  apply Z.ltb_ge in Eshort. lia.
Qed.

Lemma handleDirCreate_unknown (sys : System) (w : Watcher) (wd : Z) (name : gostring) :
  watches w !! wd = None -> handleDirCreate sys w wd name = w.
Proof. intros H. unfold handleDirCreate. now rewrite H. Qed.

(** C10.  A complete record whose watch descriptor is not in the index
    leaves the engine as it was: no event is queued, nothing is written to
    the error channel or to standard error, no watch is added; decoding
    goes on with the bytes after the record. *)
Theorem parseEvents_unknown_descriptor (sys : System) (w : Watcher) (buffer : list byte) :
  (16 <= length buffer)%nat ->
  0 <= le32 (skipn 12 buffer) <= Z.of_nat (length buffer) - 16 ->
  watches w !! int32 (le32 buffer) = None ->
  (forall mask cookie name, createEvent w (int32 (le32 buffer)) mask cookie name = None) /\
  parseEvents sys w buffer =
  parseEvents sys w (skipn (16 + Z.to_nat (le32 (skipn 12 buffer))) buffer).
Proof.
  intros H16 Hlen Hwd. split.
  - intros mask cookie name. unfold createEvent. now rewrite Hwd.
  - rewrite (parseEvents_record sys w buffer H16 Hlen). cbv zeta.
    unfold createEvent. rewrite Hwd.
    rewrite handleDirCreate_unknown by easy.
    now destruct (negb _ && negb _).
Qed.

(** ** Joining a clean directory and a file name *)

Lemma cleanElems_plain (rooted : bool) (elems kept : list gostring) :
  Forall (fun e => e <> [] /\ e <> filepath.dot /\ e <> filepath.dotdot) elems ->
  filepath.cleanElems rooted elems kept = rev kept ++ elems.
Proof.
  revert kept. induction elems as [|e elems IH]; intros kept Hall; cbn [filepath.cleanElems].
  - now rewrite app_nil_r.
  - inversion Hall as [|? ? (H1 & H2 & H3) Hrest]; subst.
    apply streq_neq in H1, H2, H3. rewrite H1, H2, H3. cbn [orb].
    rewrite IH by assumption. cbn [rev]. now rewrite <- app_assoc.
Qed.

(** Under a clean absolute directory other than the root, the join with a
    plain name is the directory, a slash and the name. *)
Lemma Join_cons (e : gostring) (l : list gostring) (sep : gostring) :
  l <> [] -> strings.Join (e :: l) sep = e ++ sep ++ strings.Join l sep.
Proof. now destruct l. Qed.

Lemma Clean_rooted (s : gostring) :
  filepath.Clean (filepath.slash :: s) =
  filepath.slash ::
  strings.Join (filepath.cleanElems true (strings.Split (filepath.slash :: s) [filepath.slash]) [])
               [filepath.slash].
Proof.
  unfold filepath.Clean, filepath.IsAbs. cbn [strings.HasPrefix].
  now rewrite Ascii.eqb_refl.
Qed.

Lemma Join_clean_dir (elems : list gostring) (name : gostring) :
  elems <> [] ->
  Forall (fun e => e <> [] /\ e <> filepath.dot /\ e <> filepath.dotdot /\
                   ~ In filepath.slash e) (elems ++ [name]) ->
  let dir := filepath.slash :: strings.Join elems [filepath.slash] in
  filepath.Join [dir; name] = dir ++ filepath.slash :: name.
Proof.
  intros Hne Hall. cbv zeta.
  assert (filepath.slash :: strings.Join (elems ++ [name]) [filepath.slash] =
          (filepath.slash :: strings.Join elems [filepath.slash]) ++ filepath.slash :: name)
    as Hjoin.
  { rewrite Join_app by (assumption || discriminate). reflexivity. }
  change (filepath.Join [filepath.slash :: strings.Join elems [filepath.slash]; name])
    with (filepath.Clean ((filepath.slash :: strings.Join elems [filepath.slash]) ++
                          filepath.slash :: name)).
  rewrite <- Hjoin, Clean_rooted. f_equal.
  replace (filepath.slash :: strings.Join (elems ++ [name]) [filepath.slash])
    with (strings.Join ([] :: elems ++ [name]) [filepath.slash])
    by (rewrite Join_cons; [reflexivity|now destruct elems]).
  rewrite Split_Join.
  - cbn [filepath.cleanElems streq orb]. rewrite cleanElems_plain; [reflexivity|].
    eapply Forall_impl; [exact Hall|]. intros e (H1 & H2 & H3 & _). easy.
  - discriminate.
  - constructor; [intros []|]. eapply Forall_impl; [exact Hall|].
    intros e (_ & _ & _ & H). exact H.
Qed.

Lemma stripNul_terminated (fname : list byte) : stripNul (fname ++ [zero]) = fname.
Proof.
  unfold stripNul. rewrite rev_app_distr. simpl. now rewrite rev_involutive.
Qed.

Lemma stripNul_plain (fname : list byte) : ~ In zero fname -> stripNul fname = fname.
Proof.
  intros H. unfold stripNul. destruct (rev fname) as [|c r] eqn:E; [easy|].
  destruct (Ascii.eqb c zero) eqn:Ec; [|easy].
  apply Ascii.eqb_eq in Ec. subst c. exfalso. apply H.
  apply in_rev. rewrite E. now left.
Qed.

Lemma sendEvent_room (w : Watcher) (event : InotifyEvent) :
  (length (events w) < eventsCap)%nat ->
  sendEvent w event =
  mkWatcher (watches w) (pathWatches w) (events w ++ [event]) (errors w) (stderr w).
Proof.
  intros H. unfold sendEvent. apply Nat.ltb_lt in H. now rewrite H.
Qed.

Lemma stripNul_padding (fname : list byte) (k : nat) :
  stripNul (fname ++ repeat zero (S k)) = fname ++ repeat zero k.
Proof.
  replace (S k) with (k + 1)%nat by lia. rewrite repeat_app, app_assoc.
  apply stripNul_terminated.
Qed.

(** C7 (the padding of a name is not removed).  The kernel pads the name
    field with NULs to a multiple of 16 bytes; the decoder removes one NUL
    only.  For a complete record of a watched descriptor whose name field
    is a file name followed by two or more NULs, the event carries as name
    the file name with all but one of these NULs, which is not the file
    name, and its full path is built from that name; the event is offered
    to the channel and decoding goes on after the name field. *)
Theorem parseEvents_keeps_padding (sys : System) (w : Watcher) (buffer : list byte)
    (info : WatchInfo) (fname : list byte) (k : nat) :
  (16 <= length buffer)%nat ->
  le32 (skipn 12 buffer) <= Z.of_nat (length buffer) - 16 ->
  watches w !! int32 (le32 buffer) = Some info ->
  firstn (Z.to_nat (le32 (skipn 12 buffer))) (skipn 16 buffer) =
    fname ++ repeat zero (S (S k)) ->
  ~ In zero fname ->
  let wd := int32 (le32 buffer) in
  let mask := le32 (skipn 4 buffer) in
  let cookie := le32 (skipn 8 buffer) in
  let name := fname ++ repeat zero (S k) in
  let event :=
    mkInotifyEvent (filepath.Join [WiPath info; name]) name mask cookie (WiPath info) in
  let w1 := sendEvent w event in
  let w2 := if negb (Z.land mask InCreate =? 0) && negb (Z.land mask InIsdir =? 0)
            then handleDirCreate sys w1 wd name else w1 in
  EvName event <> fname /\
  ((length (events w) < eventsCap)%nat -> events w1 = events w ++ [event]) /\
  parseEvents sys w buffer =
  parseEvents sys w2 (skipn (16 + Z.to_nat (le32 (skipn 12 buffer))) buffer).
Proof.
  intros H16 Hlen Hwd Hfield Hname. cbv zeta. split; [|split].
  - cbn [EvName]. intros Heq. apply Hname. rewrite <- Heq.
    apply in_or_app. right. now left.
  - intros Hroom. now rewrite sendEvent_room.
  - assert (0 <= le32 (skipn 12 buffer)) as Hpos.
    { unfold le32, byteVal. destruct (skipn 12 buffer) as [|? [|? [|? [|? ?]]]]; lia. }
    rewrite (parseEvents_record sys w buffer H16 (conj Hpos Hlen)). cbv zeta.
    assert (match Z.to_nat (le32 (skipn 12 buffer)) with
            | O => []
            | S _ => stripNul (firstn (Z.to_nat (le32 (skipn 12 buffer))) (skipn 16 buffer))
            end = fname ++ repeat zero (S k)) as ->.
    { rewrite Hfield. destruct (Z.to_nat (le32 (skipn 12 buffer))) eqn:En.
      - simpl in Hfield. symmetry in Hfield. apply app_eq_nil in Hfield as [_ Hf].
        discriminate Hf.
      - apply stripNul_padding. }
    unfold createEvent. rewrite Hwd.
    destruct (fname ++ repeat zero (S k)) as [|c r] eqn:E; [|reflexivity].
    apply app_eq_nil in E as [_ E]. discriminate E.
Qed.

Lemma parseEvents_keeps_padding_witness :
  kernelName (str "hello") = str "hello" ++ repeat zero 11 /\
  events (parseEvents failingSystem (watchingOne (str "/tmp"))
            (inotifyRecord 1 InCreate 7 (kernelName (str "hello")))) =
  [mkInotifyEvent (str "/tmp/hello" ++ repeat zero 10) (str "hello" ++ repeat zero 10)
                  InCreate 7 (str "/tmp")] /\
  str "hello" ++ repeat zero 10 <> str "hello".
Proof.
  split; [reflexivity|].
  pose (buffer := inotifyRecord 1 InCreate 7 (kernelName (str "hello"))).
  destruct (parseEvents_keeps_padding failingSystem (watchingOne (str "/tmp")) buffer
              (mkWatchInfo (str "/tmp") InCreate None false false) (str "hello") 9)
    as (Hne & Hev & Hrec).
  - vm_compute. lia.
  - vm_compute. discriminate.
  - reflexivity.
  - reflexivity.
  - vm_compute. intuition discriminate.
  - split; [|exact Hne].
    fold buffer. rewrite Hrec. vm_compute. reflexivity.
Defined.

(** ** Registering a watch *)

(** What every call of the walk function preserves, the walk preserves. *)
Lemma walk_preserves (I : Watcher -> Prop)
    (fn : Watcher -> gostring -> bool -> option gostring -> Watcher * WalkErr) :
  (forall w p d e, I w -> I (fst (fn w p d e))) ->
  forall node path w, I w -> I (fst (walk fn path node w)).
Proof.
  intros Hfn node. induction node as [n|n e|n re cs IH] using DirTree_induction;
    intros path w Hw.
  - apply Hfn, Hw.
  - apply Hfn, Hw.
  - cbn [walk]. pose proof (Hfn w path true re Hw) as H1.
    destruct (fn w path true re) as [w1 err1]. cbn [fst] in H1.
    destruct re; [easy|]. destruct err1; try easy.
    revert w1 H1. induction IH as [|c cs Hc Hcs IHcs]; intros w1 H1; [easy|].
    destruct c as [cn|cn cre ccs|cn ce].
    + pose proof (Hc (filepath.Join [path; treeName (TFile cn)]) w1 H1) as H2.
      destruct (walk fn _ (TFile cn) w1) as [w' r]. cbn [fst] in H2.
      destruct r; cbn [treeIsDir]; try easy. now apply IHcs.
    + pose proof (Hc (filepath.Join [path; treeName (TDir cn cre ccs)]) w1 H1) as H2.
      destruct (walk fn _ (TDir cn cre ccs) w1) as [w' r]. cbn [fst] in H2.
      destruct r; cbn [treeIsDir]; try easy; now apply IHcs.
    + pose proof (Hfn w1 (filepath.Join [path; treeName (TLstatErr cn ce)]) false (Some ce) H1)
        as H2.
      destruct (fn w1 _ false (Some ce)) as [w' r]. cbn [fst] in H2.
      destruct r; try easy; now apply IHcs.
Qed.

Lemma Walk_preserves (sys : System) (I : Watcher -> Prop)
    (fn : Watcher -> gostring -> bool -> option gostring -> Watcher * WalkErr)
    (root : gostring) (w : Watcher) :
  (forall w p d e, I w -> I (fst (fn w p d e))) ->
  I w -> I (fst (Walk sys fn root w)).
Proof.
  intros Hfn Hw. unfold Walk.
  assert (I (fst (match sysTree sys root with
                  | TLstatErr _ e => fn w root false (Some e)
                  | node => walk fn root node w
                  end))) as H.
  { destruct (sysTree sys root); [apply walk_preserves|apply walk_preserves|apply Hfn]; easy. }
  destruct (match sysTree sys root with
            | TLstatErr _ e => fn w root false (Some e)
            | node => walk fn root node w
            end) as [w' r]. now destruct r.
Qed.

(** A watch recorded for the root survives the walk of its subtree, when
    the kernel hands the root's descriptor to no other path. *)
Lemma walkFn_keeps_root (sys : System) (rootPath : gostring) (mask : Z) (dd : bool)
    (wd : Z) (info : WatchInfo) (w : Watcher) (p : gostring) (d : bool) (e : option gostring) :
  (forall q m, q <> rootPath -> InotifyAddWatch (sysInotify sys) q m <> Ok wd) ->
  watches w !! wd = Some info /\ pathWatches w !! rootPath = Some wd ->
  watches (fst (walkFn sys rootPath mask dd w p d e)) !! wd = Some info /\
  pathWatches (fst (walkFn sys rootPath mask dd w p d e)) !! rootPath = Some wd.
Proof.
  intros Hk Hw. unfold walkFn. destruct e; [easy|]. destruct d; [|easy]. cbn [negb].
  destruct (streq p rootPath) eqn:Ep; [easy|]. apply streq_neq in Ep.
  destruct (negb dd && _); [easy|].
  unfold addSingleWatch. specialize (Hk p mask Ep).
  destruct (InotifyAddWatch (sysInotify sys) p mask) as [wd'|]; [|easy].
  cbn [fst setWatch watches pathWatches WiPath]. destruct Hw as [H1 H2]. split.
  - rewrite lookup_insert_ne; [easy|]. intros ->. easy.
  - rewrite lookup_insert_ne; easy.
Qed.

(** C8 (the root watch can survive a failed recursive setup).  When the
    kernel refuses to remove the root watch, [removeWatch] gives up before
    touching the maps and [AddWatch] discards its error: the failure of
    the recursive setup is returned, yet the root entry is still in both
    indices. *)
Lemma AddWatch_failed_teardown :
  let sys :=
    mkSystem (mkFileSystem (fun _ => Ok (mkFileInfo true)) (fun _ => OpenNotExist []))
             (mkInotify (fun _ _ => Ok 1) (fun _ => Some (str "invalid argument")))
             (fun _ => TLstatErr [] (str "lstat /a: no such file or directory")) in
  let w := mkWatcher ∅ ∅ [] [] [] in
  let entry := mkIncronEntry (str "/a") InCreate (str "echo") defaultOptions 1 in
  snd (AddWatch sys w entry) =
    Some (str "failed to setup recursive watches: lstat /a: no such file or directory") /\
  is_Some (watches (fst (AddWatch sys w entry)) !! 1) /\
  pathWatches (fst (AddWatch sys w entry)) !! str "/a" = Some 1.
Proof. vm_compute. split; [reflexivity|]. split; [eexists|]; reflexivity. Qed.

(** What [AddWatch] does guarantee when it fails.  On a path already in
    the path index, and on a failing [Stat] or [inotify_add_watch] of the
    root, the engine is left untouched.  When the recursive setup fails
    after the root watch was installed, the failure is returned after an
    attempt to remove the root watch: if the kernel removes the descriptor
    (and gave it to no other path), the root entry is gone from both
    indices. *)
Lemma AddWatch_guarantees (sys : System) (w : Watcher) (entry : IncronEntry) :
  (is_Some (pathWatches w !! Path entry) ->
   AddWatch sys w entry =
   (w, Some (str "path " ++ Path entry ++ str " is already being watched"))) /\
  (pathWatches w !! Path entry = None ->
   isErr (osStat (sysFS sys) (Path entry)) = true \/
   isErr (InotifyAddWatch (sysInotify sys) (Path entry) (Mask entry)) = true ->
   exists e, AddWatch sys w entry = (w, Some e)) /\
  (forall info wd w2 e,
     pathWatches w !! Path entry = None ->
     osStat (sysFS sys) (Path entry) = Ok info ->
     InotifyAddWatch (sysInotify sys) (Path entry) (Mask entry) = Ok wd ->
     IsDir info && Recursive (Options entry) = true ->
     addRecursiveWatches sys
       (setWatch w wd (mkWatchInfo (Path entry) (Mask entry) (Some entry)
                                   (Recursive (Options entry)) (DotDirs (Options entry))))
       (Path entry) (Mask entry) (DotDirs (Options entry)) = (w2, Some e) ->
     snd (AddWatch sys w entry) = Some (str "failed to setup recursive watches: " ++ e) /\
     (InotifyRmWatch (sysInotify sys) wd = None ->
      (forall q m, q <> Path entry -> InotifyAddWatch (sysInotify sys) q m <> Ok wd) ->
      watches (fst (AddWatch sys w entry)) !! wd = None /\
      pathWatches (fst (AddWatch sys w entry)) !! Path entry = None)).
Proof.
  split; [|split].
  - intros [wd H]. unfold AddWatch. now rewrite H.
  - intros Hfree Hfail. unfold AddWatch, addSingleWatch. rewrite Hfree.
    destruct (osStat (sysFS sys) (Path entry)) as [info|]; [|eauto].
    destruct Hfail as [Hfail|Hfail]; [easy|].
    destruct (InotifyAddWatch (sysInotify sys) (Path entry) (Mask entry)); [easy|eauto].
  - intros info wd w2 e Hfree Hstat Hadd Hrec Hwalk.
    unfold AddWatch, addSingleWatch. rewrite Hfree, Hstat, Hadd, Hrec, Hwalk.
    cbn [fst snd]. split; [easy|]. intros Hrm Hk.
    set (rootInfo := mkWatchInfo (Path entry) (Mask entry) (Some entry)
                       (Recursive (Options entry)) (DotDirs (Options entry))) in *.
    assert (watches w2 !! wd = Some rootInfo /\ pathWatches w2 !! Path entry = Some wd)
      as [Hw2 _].
    { replace w2 with (fst (addRecursiveWatches sys (setWatch w wd rootInfo) (Path entry)
                              (Mask entry) (DotDirs (Options entry))))
        by now rewrite Hwalk.
      unfold addRecursiveWatches.
      apply (Walk_preserves sys
               (fun w => watches w !! wd = Some rootInfo /\
                         pathWatches w !! Path entry = Some wd)).
      - intros w0 p d e0. now apply walkFn_keeps_root.
      - cbn [setWatch watches pathWatches]. split; apply lookup_insert_eq. }
    unfold removeWatch. rewrite Hw2, Hrm. cbn [fst watches pathWatches].
    split; apply lookup_delete_eq.
Qed.

Example AddWatch_guarantees_example :
  let sys :=
    mkSystem (mkFileSystem (fun _ => Ok (mkFileInfo true)) (fun _ => OpenNotExist []))
             (mkInotify (fun p _ => if streq p (str "/a") then Ok 1 else Ok 2)
                        (fun _ => None))
             (fun _ => TDir [] (Some (str "permission denied")) []) in
  let w := mkWatcher ∅ ∅ [] [] [] in
  let entry := mkIncronEntry (str "/a") InCreate (str "echo") defaultOptions 1 in
  snd (AddWatch sys w entry) =
    Some (str "failed to setup recursive watches: permission denied") /\
  watches (fst (AddWatch sys w entry)) !! 1 = None /\
  pathWatches (fst (AddWatch sys w entry)) !! str "/a" = None.
Proof.
  intros sys w entry.
  destruct (AddWatch_guarantees sys w entry) as (_ & _ & H).
  destruct (H (mkFileInfo true) 1 (setWatch w 1 (mkWatchInfo (str "/a") InCreate (Some entry) true false))
              (str "permission denied")) as [Herr Hgone]; try reflexivity.
  split; [exact Herr|]. apply Hgone; [reflexivity|].
  intros q m Hq. unfold sys. cbn [sysInotify InotifyAddWatch].
  destruct (streq q (str "/a")) eqn:E; [|discriminate].
  apply streq_eq in E. easy.
Qed.

(** ** Executor admission *)

Lemma alreadyRunning_iff (ce : CommandExecutor) (entry : IncronEntry) (username : gostring) :
  alreadyRunning ce entry username = true <->
  exists id rc, runningCommands ce !! id = Some rc /\
                Path (RcEntry rc) = Path entry /\ RcUsername rc = username.
Proof.
  unfold alreadyRunning. rewrite existsb_exists. split.
  - intros [[id rc] [Hin Hs]]. exists id, rc.
    apply list_elem_of_In, elem_of_map_to_list in Hin. split; [easy|].
    unfold sameRule in Hs. cbn [snd] in Hs. apply andb_true_iff in Hs as [H1 H2].
    now apply streq_eq in H1, H2.
  - intros (id & rc & Hl & Hp & Hu). exists (id, rc). split.
    + now apply list_elem_of_In, elem_of_map_to_list.
    + unfold sameRule. cbn [snd]. rewrite Hp, Hu, !streq_refl. easy.
Qed.

Lemma ExecuteLocked_refused (env : ExecEnv) (ce ce' : CommandExecutor) (entry : IncronEntry)
    (event : InotifyEvent) (username msg : gostring) :
  ExecuteLocked env ce entry event username = (ce', Err msg) -> ce' = ce.
Proof.
  unfold ExecuteLocked. destruct (maxConcurrent ce <=? currentCount ce); [congruence|].
  destruct (NoLoop (Options entry) && alreadyRunning ce entry username); [congruence|].
  destruct (parseCommand _); [congruence|].
  destruct (if negb (streq username (str "root")) && negb (streq username [])
            then _ else _); congruence.
Qed.

Lemma ExecuteLocked_accepted (env : ExecEnv) (ce ce' : CommandExecutor) (entry : IncronEntry)
    (event : InotifyEvent) (username : gostring) (rc : RunningCommand) :
  ExecuteLocked env ce entry event username = (ce', Ok rc) ->
  currentCount ce < maxConcurrent ce /\
  ce' = mkCommandExecutor (<[RcID rc := rc]> (runningCommands ce)) (mu ce)
                          (maxConcurrent ce) (currentCount ce + 1) (timeout ce).
Proof.
  unfold ExecuteLocked. destruct (maxConcurrent ce <=? currentCount ce) eqn:E; [congruence|].
  apply Z.leb_gt in E.
  destruct (NoLoop (Options entry) && alreadyRunning ce entry username); [congruence|].
  destruct (parseCommand _); [congruence|].
  destruct (if negb (streq username (str "root")) && negb (streq username [])
            then _ else _); [|congruence].
  intros H. injection H as <- <-. easy.
Qed.

Lemma outside_cases (pt : ExecutePoint) :
  outside pt = true ->
  (exists entry event username, pt = AtLock entry event username) \/
  (exists msg, pt = Returned (Err msg)).
Proof.
  destruct pt as [e ev u|e ev u|rc|rc res|[r|msg]|msg]; try discriminate; eauto.
Qed.

Lemma execInv_step (st st' : ExecState) : execInv st -> execStep st st' -> execInv st'.
Proof.
  intros (holder & Hout & Hh) Hstep.
  destruct Hstep as [st entry event username|st i pt env received ce' pt' Hpt Hrun].
  - (* a new call *)
    exists holder. cbn [calls executor]. split.
    + intros j pt Hj Hne. apply lookup_app_Some in Hj as [Hj|[_ Hj]]; [now apply (Hout j)|].
      apply list_lookup_singleton_Some in Hj as [_ <-]. reflexivity.
    + destruct holder as [i|]; [|exact Hh]. destruct Hh as [Hmu Hh]. split; [exact Hmu|].
      destruct Hh as [(e & ev & u & Hi & Hc & Hr)|[(rc & Hi & Hc)|(rc & res & Hi & Hc)]].
      * left. exists e, ev, u. split; [now apply lookup_app_l_Some|easy].
      * right. left. exists rc. split; [now apply lookup_app_l_Some|easy].
      * right. right. exists rc, res. split; [now apply lookup_app_l_Some|easy].
  - (* a call moves *)
    pose proof (lookup_lt_Some _ _ _ Hpt) as Hlt.
    assert (forall h, holder = Some h -> h <> i -> False) as Hother.
    { intros h -> Hne.
      assert (outside pt = true) as Ho by (apply (Hout i pt Hpt); congruence).
      destruct Hh as [Hmu _].
      apply outside_cases in Ho as [(e & ev & u & ->)|(msg & ->)].
      - cbn [ExecuteStep] in Hrun. unfold Lock in Hrun. rewrite Hmu in Hrun. discriminate.
      - discriminate. }
    destruct pt as [e ev u|e ev u|rc|rc res|r|msg]; cbn [ExecuteStep] in Hrun;
      try discriminate.
    + (* AtLock: the lock is free *)
      unfold Lock in Hrun. destruct (mu (executor st)) eqn:Hmu; [discriminate|].
      injection Hrun as <- <-.
      destruct holder as [h|]; [destruct Hh as [Hh _]; congruence|].
      destruct Hh as (_ & Hc & Hr).
      exists (Some i). cbn [calls executor mu currentCount runningCommands]. split.
      * intros j pt Hj Hne. rewrite list_lookup_insert_ne in Hj by congruence.
        now apply (Hout j).
      * split; [reflexivity|]. left. exists e, ev, u.
        split; [now apply list_lookup_insert_eq|easy].
    + (* AtAdmission *)
      destruct holder as [h|].
      2:{ assert (outside (AtAdmission e ev u) = true) as Ho
            by (apply (Hout i _ Hpt); discriminate).
          discriminate. }
      destruct (decide (h = i)) as [->|Hne]; [|exfalso; now apply (Hother h)].
      destruct Hh as [Hmu Hh].
      assert (currentCount (executor st) = 0 /\ runningCommands (executor st) = ∅)
        as [Hc Hr].
      { destruct Hh as [(? & ? & ? & _ & Hc & Hr)|[(? & Hi & _)|(? & ? & Hi & _)]];
          [easy|congruence|congruence]. }
      destruct (ExecuteLocked env (executor st) e ev u) as [ce1 [rc|msg]] eqn:Hadm.
      * injection Hrun as <- <-.
        apply ExecuteLocked_accepted in Hadm as [_ ->].
        exists (Some i). cbn [calls executor mu currentCount]. split.
        -- intros j pt Hj Hne. rewrite list_lookup_insert_ne in Hj by congruence.
           apply (Hout j pt Hj). congruence.
        -- split; [exact Hmu|]. right. left. exists rc.
           split; [now apply list_lookup_insert_eq|lia].
      * apply ExecuteLocked_refused in Hadm. subst ce1.
        unfold Unlock in Hrun. rewrite Hmu in Hrun. injection Hrun as <- <-.
        exists None. cbn [calls executor mu currentCount runningCommands]. split.
        -- intros j pt Hj _. destruct (decide (i = j)) as [<-|Hne].
           ++ rewrite list_lookup_insert_eq in Hj by easy. now injection Hj as <-.
           ++ rewrite list_lookup_insert_ne in Hj by easy. apply (Hout j pt Hj). congruence.
        -- easy.
    + (* AtReceive *)
      injection Hrun as <- <-.
      destruct holder as [h|].
      2:{ assert (outside (AtReceive rc) = true) as Ho
            by (apply (Hout i _ Hpt); discriminate).
          discriminate. }
      destruct (decide (h = i)) as [->|Hne]; [|exfalso; now apply (Hother h)].
      destruct Hh as [Hmu Hh].
      exists (Some i). cbn [calls executor]. split.
      * intros j pt Hj Hne. rewrite list_lookup_insert_ne in Hj by congruence.
        apply (Hout j pt Hj). congruence.
      * split; [exact Hmu|]. right. right. exists rc, received.
        split; [now apply list_lookup_insert_eq|].
        destruct Hh as [(? & ? & ? & Hi & _)|[(? & _ & Hc)|(? & ? & Hi & _)]];
          [congruence|easy|congruence].
    + (* AtCleanup: the lock is held by the call itself *)
      destruct holder as [h|].
      2:{ assert (outside (AtCleanup rc res) = true) as Ho
            by (apply (Hout i _ Hpt); discriminate).
          discriminate. }
      destruct Hh as [Hmu _]. unfold Lock in Hrun. rewrite Hmu in Hrun. discriminate.
Qed.

Lemma execInv_init (maxC tmo : Z) : execInv (mkExecState (NewCommandExecutor maxC tmo) []).
Proof. exists None. split; [intros j pt Hj; discriminate Hj|easy]. Qed.

Lemma execInv_steps (st st' : ExecState) : execInv st -> execSteps st st' -> execInv st'.
Proof.
  intros Hinv Hsteps. induction Hsteps as [|st st' st'' _ IH Hstep]; [easy|].
  apply (execInv_step st'); auto.
Qed.

(** Once a command is recorded as running, the executor stays as it is
    and no call returns. *)
Lemma running_step (st st' : ExecState) :
  execInv st -> 0 < currentCount (executor st) -> execStep st st' ->
  executor st' = executor st /\
  (forall i r, calls st' !! i = Some (Returned r) -> calls st !! i = Some (Returned r)).
Proof.
  intros (holder & Hout & Hh) Hpos Hstep.
  destruct holder as [h|]; [|destruct Hh as (_ & Hc & _); lia].
  destruct Hh as [Hmu Hh].
  destruct Hstep as [st entry event username|st i pt env received ce' pt' Hpt Hrun].
  - cbn [calls executor]. split; [reflexivity|]. intros i r Hi.
    apply lookup_app_Some in Hi as [Hi|[_ Hi]]; [exact Hi|].
    apply list_lookup_singleton_Some in Hi as [_ Hi]. discriminate.
  - cbn [calls executor].
    pose proof (lookup_lt_Some _ _ _ Hpt) as Hlt.
    destruct (decide (h = i)) as [->|Hne].
    + destruct Hh as [(? & ? & ? & _ & Hc & _)|[(rc & Hi & _)|(rc & res & Hi & _)]]; [lia| |].
      * rewrite Hpt in Hi. injection Hi as ->. cbn [ExecuteStep] in Hrun.
        injection Hrun as <- <-. split; [reflexivity|]. intros j r Hj.
        destruct (decide (i = j)) as [<-|Hne].
        -- rewrite list_lookup_insert_eq in Hj by easy. discriminate.
        -- now rewrite list_lookup_insert_ne in Hj.
      * rewrite Hpt in Hi. injection Hi as ->. cbn [ExecuteStep] in Hrun.
        unfold Lock in Hrun. rewrite Hmu in Hrun. discriminate.
    + assert (outside pt = true) as Ho by (apply (Hout i pt Hpt); congruence).
      apply outside_cases in Ho as [(e & ev & u & ->)|(msg & ->)].
      * cbn [ExecuteStep] in Hrun. unfold Lock in Hrun. rewrite Hmu in Hrun. discriminate.
      * discriminate.
Qed.

Lemma running_steps (st st' : ExecState) :
  execInv st -> 0 < currentCount (executor st) -> execSteps st st' ->
  executor st' = executor st /\
  (forall i r, calls st' !! i = Some (Returned r) -> calls st !! i = Some (Returned r)).
Proof.
  intros Hinv Hpos Hsteps. induction Hsteps as [|st st' st'' Hsteps IH Hstep]; [easy|].
  destruct (IH Hinv Hpos) as [He Hr].
  destruct (running_step st' st'') as [He' Hr'];
    [now apply (execInv_steps st)|now rewrite He|exact Hstep|].
  split; [congruence|]. intros i r Hi. apply Hr, Hr', Hi.
Qed.

Lemma running_locked (st : ExecState) :
  execInv st -> 0 < currentCount (executor st) -> mu (executor st) = true.
Proof.
  intros (holder & _ & Hh) Hpos. destruct holder as [h|]; [easy|].
  destruct Hh as (_ & Hc & _). lia.
Qed.

(** C5 (a call at capacity is not refused: it waits for ever).  [Execute]
    takes [ce.mu] on entry, keeps it while it waits for the result of the
    command, and locks it again before its clean-up without having
    released it.  So from the moment a command is recorded as running,
    the executor never changes again (the command is never removed, the
    count never decremented), no call of [Execute] returns any more, with
    a refusal or with a result, and a call that is at the entry of
    [Execute] cannot move: the refusals of the capacity check and of the
    loop prevention are never given while a command runs. *)
Theorem Execute_blocks_at_capacity (maxC tmo : Z) (st st' : ExecState) :
  execReachable maxC tmo st ->
  0 < currentCount (executor st) ->
  execSteps st st' ->
  executor st' = executor st /\
  (forall i r, calls st' !! i = Some (Returned r) -> calls st !! i = Some (Returned r)) /\
  (forall env received entry event username,
     ExecuteStep env received (executor st') (AtLock entry event username) = None).
Proof.
  intros Hreach Hpos Hsteps.
  assert (execInv st) as Hinv by (apply (execInv_steps _ _ (execInv_init maxC tmo) Hreach)).
  destruct (running_steps st st' Hinv Hpos Hsteps) as [He Hr].
  split; [exact He|]. split; [exact Hr|].
  intros env received entry event username. cbn [ExecuteStep]. unfold Lock.
  rewrite He, (running_locked st Hinv Hpos). reflexivity.
Qed.

Lemma execSteps_callExecute (st0 st : ExecState) (entry : IncronEntry) (event : InotifyEvent)
    (username : gostring) :
  execSteps st0 st -> execSteps st0 (callExecute st entry event username).
Proof. intros H. apply (steps_step _ st); [exact H|apply step_call]. Qed.

Lemma execSteps_runCall (st0 st : ExecState) (env : ExecEnv) (received : ExecutionResult)
    (i : nat) :
  execSteps st0 st -> execSteps st0 (runCall env received i st).
Proof.
  intros H. unfold runCall. destruct (calls st !! i) as [pt|] eqn:Hpt; [|exact H].
  destruct (ExecuteStep env received (executor st) pt) as [[ce' pt']|] eqn:Hrun; [|exact H].
  apply (steps_step _ st); [exact H|]. now apply (step_run st i pt env received).
Qed.

Lemma Execute_blocks_at_capacity_witness :
  let env := mkExecEnv 1700000000 [] (fun _ => Err (str "unknown user")) ReverseEventMaskMap in
  let entry := mkIncronEntry (str "/data") InCreate (str "touch /tmp/out/$#") defaultOptions 1 in
  let event := mkInotifyEvent (str "/data/hello") (str "hello") InCreate 0 (str "/data") in
  let id := generateCommandID env entry event in
  let res := mkExecutionResult id true 0 [] None 5 in
  let rc := mkRunningCommand id entry event
              (mkCmd [str "touch"; str "/tmp/out/hello"]
                     [str "INCRON_PATH=/data/hello"; str "INCRON_NAME=hello";
                      str "INCRON_EVENT=IN_CREATE|IN_ALL_EVENTS"] [] None)
              (str "root") 1700000000 in
  let first := callExecute (mkExecState (NewCommandExecutor 1 300) []) entry event (str "root") in
  let running := runCall env res 0 (runCall env res 0 first) in
  let st := callExecute running entry event (str "root") in
  let st' := runCall env res 0 st in
  calls st = [AtReceive rc; AtLock entry event (str "root")] /\
  currentCount (executor st) = maxConcurrent (executor st) /\
  calls st' = [AtCleanup rc res; AtLock entry event (str "root")] /\
  runCall env res 0 st' = st' /\ runCall env res 1 st' = st' /\
  executor st' = executor st /\
  (forall i r, calls st' !! i = Some (Returned r) -> calls st !! i = Some (Returned r)) /\
  (forall env' received entry' event' username',
     ExecuteStep env' received (executor st') (AtLock entry' event' username') = None).
Proof.
  intros env entry event id res rc first running st st'.
  split; [vm_compute; reflexivity|]. split; [vm_compute; reflexivity|].
  split; [vm_compute; reflexivity|]. split; [vm_compute; reflexivity|].
  split; [vm_compute; reflexivity|].
  apply (Execute_blocks_at_capacity 1 300 st st').
  - unfold execReachable, st, running, first.
    apply execSteps_callExecute. do 2 apply execSteps_runCall.
    apply execSteps_callExecute. apply steps_refl.
  - vm_compute. reflexivity.
  - unfold st'. apply execSteps_runCall. apply steps_refl.
Defined.

(** ** Numbers in text *)

Lemma digitVal_digitChar (d : Z) :
  0 <= d < 16 -> strconv.digitVal (strconv.digitChar d) = Some d.
Proof.
  intros H.
  assert (d = 0 \/ d = 1 \/ d = 2 \/ d = 3 \/ d = 4 \/ d = 5 \/ d = 6 \/ d = 7 \/
          d = 8 \/ d = 9 \/ d = 10 \/ d = 11 \/ d = 12 \/ d = 13 \/ d = 14 \/ d = 15)
    as Hd by lia.
  repeat (destruct Hd as [->|Hd]; [reflexivity|]). now subst.
Qed.

Lemma formatLoop_nonempty (fuel : nat) (base n : Z) (acc : gostring) :
  (0 < fuel)%nat \/ acc <> [] -> strconv.formatLoop fuel base n acc <> [].
Proof.
  revert n acc. induction fuel as [|fuel IH]; intros n acc H.
  - destruct H as [H|H]; [lia|easy].
  - simpl. destruct (n / base =? 0); [easy|]. apply IH. now right.
Qed.

(** Reading back the digits that were written. *)
Lemma parseDigits_formatLoop (base : Z) (fuel : nat) (n : Z) (acc : gostring) :
  2 <= base <= 16 -> 0 <= n <= strconv.maxUint32 -> n < base ^ Z.of_nat fuel ->
  strconv.parseDigits base 0 (strconv.formatLoop fuel base n acc) =
  strconv.parseDigits base n acc.
Proof.
  intros Hb. revert n acc. induction fuel as [|fuel IH]; intros n acc Hn Hfuel.
  - simpl in Hfuel. assert (n = 0) by lia. now subst.
  - cbn [strconv.formatLoop].
    assert (0 <= n mod base < base) as Hmod by (apply Z.mod_pos_bound; lia).
    assert (0 <= n / base) as Hdiv by (apply Z.div_pos; lia).
    assert (n = base * (n / base) + n mod base) as Hn' by (apply Z.div_mod; lia).
    assert (forall a, 0 <= a -> a * base + n mod base <= strconv.maxUint32 ->
              strconv.parseDigits base a (strconv.digitChar (n mod base) :: acc) =
              strconv.parseDigits base (a * base + n mod base) acc) as Hstep.
    { intros a Ha Hle. cbn [strconv.parseDigits].
      rewrite digitVal_digitChar by lia.
      destruct (n mod base <? base) eqn:E; [|apply Z.ltb_ge in E; lia].
      destruct (a * base + n mod base >? strconv.maxUint32) eqn:E2; [|easy].
      apply Z.gtb_lt in E2. lia. }
    destruct (n / base =? 0) eqn:E.
    + apply Z.eqb_eq in E. rewrite Hstep by lia. f_equal. lia.
    + apply Z.eqb_neq in E. rewrite IH.
      * rewrite Hstep by nia. f_equal. lia.
      * split; [easy|]. apply Z.le_trans with n; [|lia].
        apply Z.div_le_upper_bound; nia.
      * apply Z.div_lt_upper_bound; [lia|].
        rewrite Nat2Z.inj_succ, Z.pow_succ_r in Hfuel by lia. lia.
Qed.

Lemma ParseUint32_FormatUint (base n : Z) :
  2 <= base <= 16 -> 0 <= n <= strconv.maxUint32 ->
  strconv.ParseUint32 (strconv.FormatUint n base) base = Some n.
Proof.
  intros Hb Hn. unfold strconv.ParseUint32, strconv.FormatUint.
  pose proof (formatLoop_nonempty 64 base n [] ltac:(left; lia)) as Hne.
  destruct (strconv.formatLoop 64 base n []) as [|c s] eqn:E; [contradiction|].
  rewrite <- E. clear E Hne. rewrite parseDigits_formatLoop; [reflexivity|exact Hb|exact Hn|].
  apply Z.le_lt_trans with strconv.maxUint32; [apply Hn|].
  apply Z.lt_le_trans with (2 ^ 64); [reflexivity|].
  apply Z.pow_le_mono_l. lia.
Qed.

Lemma tokenByte_digitChar (d : Z) : 0 <= d < 16 -> tokenByte (strconv.digitChar d) = true.
Proof.
  intros H.
  assert (d = 0 \/ d = 1 \/ d = 2 \/ d = 3 \/ d = 4 \/ d = 5 \/ d = 6 \/ d = 7 \/
          d = 8 \/ d = 9 \/ d = 10 \/ d = 11 \/ d = 12 \/ d = 13 \/ d = 14 \/ d = 15)
    as Hd by lia.
  repeat (destruct Hd as [->|Hd]; [vm_compute; reflexivity|]). subst. vm_compute. reflexivity.
Qed.

Lemma formatLoop_tokenBytes (fuel : nat) (n : Z) (acc : gostring) :
  0 <= n -> forallb tokenByte acc = true ->
  forallb tokenByte (strconv.formatLoop fuel 16 n acc) = true.
Proof.
  revert n acc. induction fuel as [|fuel IH]; intros n acc Hn Hacc; [easy|].
  cbn [strconv.formatLoop].
  assert (forallb tokenByte (strconv.digitChar (n mod 16) :: acc) = true) as H.
  { cbn [forallb]. rewrite Hacc, tokenByte_digitChar; [easy|].
    apply Z.mod_pos_bound. lia. }
  destruct (n / 16 =? 0); [easy|]. apply IH; [|easy]. apply Z.div_pos; lia.
Qed.

Lemma tokenByte_not_space (c : byte) (e : gostring) :
  tokenByte c = true -> In e strings.spaceEncodings -> ~ In c e.
Proof.
  unfold tokenByte. intros H Hin Hc.
  apply andb_true_iff in H as [H _]. apply andb_true_iff in H as [H _].
  rewrite forallb_forall in H. specialize (H e Hin).
  apply negb_true_iff in H.
  assert (existsb (Ascii.eqb c) e = true) as Hex.
  { apply existsb_exists. exists c. split; [easy|apply Ascii.eqb_refl]. }
  congruence.
Qed.

(** A token made of such bytes is left alone by [TrimSpace]. *)
Lemma leadingSpace_token (c : byte) (s : gostring) :
  tokenByte c = true -> strings.leadingSpace (c :: s) = None.
Proof.
  intros Hc. apply leadingSpace_None_intro. intros e Hin.
  destruct (strings.HasPrefix (c :: s) e) eqn:E; [|easy].
  apply HasPrefix_iff in E as [r Hr].
  destruct e as [|c' e]; [now apply spaceEnc_nonempty in Hin|].
  injection Hr as -> _. exfalso.
  apply (tokenByte_not_space c' (c' :: e) Hc Hin). now left.
Qed.

Lemma trailingSpace_token (c : byte) (s : gostring) :
  tokenByte c = true -> strings.trailingSpace (s ++ [c]) = None.
Proof.
  intros Hc. apply trailingSpace_None_intro. intros e Hin.
  destruct (strings.HasSuffix (s ++ [c]) e) eqn:E; [|easy].
  apply HasSuffix_iff in E as [r Hr]. exfalso.
  destruct (rev e) as [|c' e'] eqn:Erev.
  - apply (f_equal (@rev _)) in Erev. rewrite rev_involutive in Erev.
    simpl in Erev. subst e. now apply spaceEnc_nonempty in Hin.
  - apply (f_equal (@rev _)) in Hr. rewrite !rev_app_distr, Erev in Hr. simpl in Hr.
    injection Hr as -> _.
    apply (tokenByte_not_space c' e Hc Hin). apply in_rev. rewrite Erev. now left.
Qed.

Lemma TrimSpace_token (s : gostring) :
  forallb tokenByte s = true -> strings.TrimSpace s = s.
Proof.
  intros H. destruct s as [|c s]; [easy|].
  apply TrimSpace_id.
  - apply leadingSpace_token. cbn [forallb] in H. now apply andb_true_iff in H as [H _].
  - destruct (exists_last (l := c :: s) ltac:(easy)) as (s' & c' & Hs). rewrite Hs in *.
    apply trailingSpace_token. rewrite forallb_app in H.
    apply andb_true_iff in H as [_ H]. cbn [forallb] in H.
    now apply andb_true_iff in H as [H _].
Qed.

Lemma token_no_byte (c : byte) (s : gostring) :
  tokenByte c = false -> forallb tokenByte s = true -> ~ In c s.
Proof.
  intros Hc H Hin. rewrite forallb_forall in H. apply H in Hin. congruence.
Qed.

(** ** Masks *)

Lemma lor_andNot (f m : Z) : Z.lor f (andNot m f) = Z.lor f m.
Proof.
  unfold andNot. apply Z.bits_inj'. intros i Hi.
  rewrite !Z.lor_spec, Z.land_spec, Z.lnot_spec by easy.
  now destruct (Z.testbit f i), (Z.testbit m i).
Qed.

Lemma andNot_range (m f : Z) : 0 <= m -> 0 <= f -> 0 <= andNot m f <= m.
Proof.
  intros Hm Hf. unfold andNot. rewrite <- Z.sub_land_same_l.
  assert (0 <= Z.land m f) by (apply Z.land_nonneg; now left).
  assert (0 <= Z.land m (Z.lnot f)) by (apply Z.land_nonneg; now left).
  rewrite <- Z.sub_land_same_l in *. lia.
Qed.

(** A flag of one bit that meets the mask lies within the mask. *)
Lemma lor_single_bit (m k : Z) :
  0 <= k -> Z.land m (2 ^ k) <> 0 -> Z.lor (2 ^ k) m = m.
Proof.
  intros Hk Hland. destruct (Z.testbit m k) eqn:Hbit.
  - apply Z.bits_inj'. intros i Hi. rewrite Z.lor_spec, Z.pow2_bits_eqb by easy.
    destruct (Z.eqb_spec k i) as [->|]; [now rewrite Hbit|easy].
  - exfalso. apply Hland. apply Z.bits_inj'. intros i Hi.
    rewrite Z.land_spec, Z.pow2_bits_eqb, Z.bits_0 by easy.
    destruct (Z.eqb_spec k i) as [->|]; [now rewrite Hbit|apply andb_false_r].
Qed.

Lemma lor_uint32 (a b : Z) :
  0 <= a <= strconv.maxUint32 -> 0 <= b <= strconv.maxUint32 ->
  0 <= Z.lor a b <= strconv.maxUint32.
Proof.
  intros Ha Hb. assert (0 <= Z.lor a b) as H0 by (apply Z.lor_nonneg; lia).
  split; [easy|].
  destruct (Z.eq_dec (Z.lor a b) 0) as [->|Hne]; [easy|].
  assert (Z.lor a b < 2 ^ 32); [|unfold strconv.maxUint32; lia].
  apply Z.log2_lt_pow2; [lia|]. rewrite Z.log2_lor by lia.
  assert (forall x, 0 <= x <= strconv.maxUint32 -> Z.log2 x < 32) as Hlog.
  { intros x Hx. destruct (Z.eq_dec x 0) as [->|Hx0]; [easy|].
    apply Z.log2_lt_pow2; unfold strconv.maxUint32 in *; lia. }
  apply Z.max_lub_lt; now apply Hlog.
Qed.

Lemma maskFlags_ok : forallb flagOK maskFlags = true.
Proof. vm_compute. reflexivity. Qed.

Lemma Contains_token_eq (s : gostring) :
  forallb tokenByte s = true -> strings.Contains s (str "=") = false.
Proof.
  intros H. change (str "=") with [byteOf 61]. apply Contains_one_false.
  now apply token_no_byte.
Qed.

Lemma parseMaskLoop_name (tok : gostring) (flag : Z) (rest : list gostring) (acc : Z)
    (o : EntryOptions) :
  forallb tokenByte tok = true -> lookupStr EventMaskMap tok = Some flag ->
  parseMaskLoop (tok :: rest) acc o = parseMaskLoop rest (Z.lor acc flag) o.
Proof.
  intros Htok Hlook. cbn [parseMaskLoop].
  now rewrite (TrimSpace_token _ Htok), (Contains_token_eq _ Htok), Hlook.
Qed.

Lemma hexMask_tokenBytes (r : Z) : 0 <= r -> forallb tokenByte (hexMask r) = true.
Proof.
  intros Hr. unfold hexMask. rewrite forallb_app. apply andb_true_iff. split.
  - vm_compute. reflexivity.
  - unfold strconv.FormatUint. now apply formatLoop_tokenBytes.
Qed.

Lemma lookupStr_hexMask (r : Z) : lookupStr EventMaskMap (hexMask r) = None.
Proof.
  unfold hexMask. change (str "0x") with ["0"%char; "x"%char]. cbn [app].
  generalize (strconv.FormatUint r 16). intros s. reflexivity.
Qed.

Lemma parseNumericMask_hexMask (r : Z) :
  0 <= r <= strconv.maxUint32 -> parseNumericMask (hexMask r) = Some r.
Proof.
  intros Hr. unfold parseNumericMask, hexMask.
  rewrite HasPrefix_app. cbn [orb].
  change (skipn 2 (str "0x" ++ strconv.FormatUint r 16)) with (strconv.FormatUint r 16).
  apply ParseUint32_FormatUint; [lia|easy].
Qed.

Lemma parseMaskLoop_hex (r : Z) (rest : list gostring) (acc : Z) (o : EntryOptions) :
  0 <= r <= strconv.maxUint32 ->
  parseMaskLoop (hexMask r :: rest) acc o = parseMaskLoop rest (Z.lor acc r) o.
Proof.
  intros Hr. cbn [parseMaskLoop].
  assert (forallb tokenByte (hexMask r) = true) as Htok by (apply hexMask_tokenBytes; lia).
  rewrite (TrimSpace_token _ Htok), (Contains_token_eq _ Htok), lookupStr_hexMask.
  now rewrite parseNumericMask_hexMask.
Qed.

(** The names written for a mask read back as the bits they stand for. *)
Lemma maskNames_parse (flags : list Z) :
  forallb flagOK flags = true ->
  forall m names r,
    0 <= m -> maskNames flags m = (names, r) ->
    0 <= r <= m /\ (names = [] -> r = m) /\
    Forall (fun t => forallb tokenByte t = true /\ t <> []) names /\
    exists x, 0 <= x /\ Z.lor x r = m /\
      forall rest acc o,
        parseMaskLoop (names ++ rest) acc o = parseMaskLoop rest (Z.lor acc x) o.
Proof.
  induction flags as [|flag flags IH]; intros Hok m names r Hm Hnames.
  - cbn in Hnames. injection Hnames as <- <-. split; [lia|]. split; [easy|].
    split; [constructor|]. exists 0. split; [lia|]. split; [apply Z.lor_0_l|].
    intros rest acc o. now rewrite Z.lor_0_r.
  - cbn [forallb] in Hok. apply andb_true_iff in Hok as [Hflag Hok].
    cbn [maskNames] in Hnames.
    destruct (negb (Z.land m flag =? 0)) eqn:Eland.
    2:{ apply (IH Hok m names r Hm Hnames). }
    apply negb_true_iff, Z.eqb_neq in Eland.
    unfold flagOK in Hflag.
    apply andb_true_iff in Hflag as [Hbits Hname].
    apply andb_true_iff in Hbits as [Hpow Hpos].
    apply Z.eqb_eq in Hpow. apply Z.ltb_lt in Hpos.
    destruct (lookupZ ReverseEventMaskMap flag) as [name|]; [|easy].
    apply andb_true_iff in Hname as [Htok Hlook].
    apply andb_true_iff in Htok as [Htok Hne].
    destruct (lookupStr EventMaskMap name) as [v|] eqn:Ev; [|easy].
    apply Z.eqb_eq in Hlook. subst v.
    destruct (maskNames flags (andNot m flag)) as [parts r'] eqn:Erec.
    injection Hnames as <- <-.
    pose proof (andNot_range m flag Hm ltac:(lia)) as Hrange.
    destruct (IH Hok _ _ _ (proj1 Hrange) Erec) as (Hr & _ & Hall & x & Hx & Hlor & Hparse).
    split; [lia|]. split; [easy|]. split.
    { constructor; [|easy]. split; [easy|]. now apply negb_true_iff, streq_neq in Hne. }
    exists (Z.lor flag x). split; [apply Z.lor_nonneg; lia|]. split.
    + rewrite <- Z.lor_assoc, Hlor, lor_andNot. rewrite Hpow in *.
      apply lor_single_bit; [apply Z.log2_nonneg|easy].
    + intros rest acc o. cbn [app]. rewrite (parseMaskLoop_name _ _ _ _ _ Htok Ev).
      rewrite Hparse. now rewrite Z.lor_assoc.
Qed.

Lemma parseMaskLoop_options (o : EntryOptions) (m : Z) :
  parseMaskLoop (optionStrings o) m defaultOptions = Ok (m, o).
Proof. destruct o as [[|] [|] [|]]; vm_compute; reflexivity. Qed.

Lemma optionStrings_tokens (o : EntryOptions) :
  Forall (fun t => ~ In (byteOf 44) t /\ ~ In space t) (optionStrings o).
Proof.
  destruct o as [[|] [|] [|]]; cbn; repeat constructor;
    vm_compute; intuition discriminate.
Qed.

(** ** Rendering a Rule and parsing it again *)

Lemma maskTokens_spec (mask : Z) :
  0 < mask <= strconv.maxUint32 ->
  maskTokens mask <> [] /\
  Forall (fun t => forallb tokenByte t = true /\ t <> []) (maskTokens mask) /\
  forall rest acc o,
    parseMaskLoop (maskTokens mask ++ rest) acc o = parseMaskLoop rest (Z.lor acc mask) o.
Proof.
  intros Hm. unfold maskTokens. destruct (mask =? InAllEvents) eqn:Eall.
  - apply Z.eqb_eq in Eall. subst mask. clear Hm. split; [discriminate|]. split.
    + constructor; [|constructor]. split; [vm_compute; reflexivity|discriminate].
    + intros rest acc o. cbn [app].
      apply parseMaskLoop_name. vm_compute; reflexivity. vm_compute; reflexivity.
  - destruct (maskNames maskFlags mask) as [names r] eqn:En.
    destruct (maskNames_parse maskFlags maskFlags_ok mask names r ltac:(lia) En)
      as (Hr & Hnil & Hall & x & Hx & Hlor & Hparse).
    clear En.
    destruct (negb (r =? 0)) eqn:Er.
    + split; [destruct names; discriminate|]. split.
      * apply Forall_app. split; [exact Hall|]. constructor; [|constructor]. split.
        -- apply hexMask_tokenBytes. lia.
        -- unfold hexMask. discriminate.
      * intros rest acc o. rewrite <- app_assoc, Hparse. cbn [app].
        rewrite parseMaskLoop_hex by (unfold strconv.maxUint32 in *; lia).
        now rewrite <- Z.lor_assoc, Hlor.
    + apply negb_false_iff, Z.eqb_eq in Er. subst r. split.
      { intros ->. specialize (Hnil eq_refl). lia. }
      split; [exact Hall|]. intros rest acc o. rewrite Hparse.
      rewrite Z.lor_0_r in Hlor. now subst x.
Qed.

Lemma MaskToString_tokens (e : IncronEntry) :
  maskTokens (Mask e) <> [] ->
  MaskToString e = strings.Join (maskTokens (Mask e)) (str ",").
Proof.
  unfold MaskToString, maskTokens. destruct (Mask e =? InAllEvents); [easy|].
  destruct (maskNames maskFlags (Mask e)) as [names r].
  destruct (if negb (r =? 0) then names ++ [hexMask r] else names); easy.
Qed.

(** The mask field [String] writes: all tokens joined by commas. *)
Lemma String_tokens (e : IncronEntry) :
  maskTokens (Mask e) <> [] ->
  String e =
  Path e ++ space ::
  strings.Join (maskTokens (Mask e) ++ optionStrings (Options e)) [byteOf 44] ++
  space :: Command e.
Proof.
  intros Hne. unfold String. rewrite (MaskToString_tokens e Hne).
  change (str " ") with [space]. change (str ",") with [byteOf 44].
  destruct (optionStrings (Options e)) as [|o os] eqn:Eo.
  - now rewrite app_nil_r.
  - rewrite (Join_app _ (o :: os)) by easy. cbn [app]. now rewrite <- !app_assoc.
Qed.

Lemma Join_notin (c sep : byte) (toks : list gostring) :
  c <> sep -> Forall (fun t => ~ In c t) toks -> ~ In c (strings.Join toks [sep]).
Proof.
  intros Hc. induction toks as [|t toks IH]; intros Hall; [easy|].
  inversion Hall as [|? ? Ht Hts]; subst. destruct toks as [|t' toks]; [easy|].
  change (strings.Join (t :: t' :: toks) [sep])
    with (t ++ sep :: strings.Join (t' :: toks) [sep]).
  intros Hin. apply in_app_or in Hin as [Hin|[Hin|Hin]]; [easy|congruence|].
  now apply IH.
Qed.

(** Whether a short pattern starts a string does not depend on what
    follows a separator the pattern does not hold. *)
Lemma HasPrefix_app_indep (c : byte) (X Y e p : gostring) :
  (length e <= length p)%nat \/ ~ In c e ->
  strings.HasPrefix (p ++ c :: X) e = strings.HasPrefix (p ++ c :: Y) e.
Proof.
  revert p. induction e as [|a e IH]; intros p H; [easy|].
  destruct p as [|b p]; cbn [app strings.HasPrefix].
  - destruct H as [H|H]; [simpl in H; lia|].
    destruct (Ascii.eqb c a) eqn:E; [|easy].
    apply Ascii.eqb_eq in E. subst. exfalso. apply H. now left.
  - f_equal. apply IH. destruct H as [H|H]; [left; simpl in H; lia|].
    right. intros Hin. apply H. now right.
Qed.

Lemma spaceEnc_space (e : gostring) :
  In e strings.spaceEncodings -> (length e <= 1)%nat \/ ~ In space e.
Proof.
  intros Hin.
  assert (forallb (fun e => (length e <=? 1)%nat || negb (existsb (Ascii.eqb space) e))
            strings.spaceEncodings = true) as Hall by (vm_compute; reflexivity).
  rewrite forallb_forall in Hall. specialize (Hall e Hin).
  apply orb_true_iff in Hall as [H|H]; [left; now apply Nat.leb_le|right].
  intros Hc. apply negb_true_iff in H.
  assert (existsb (Ascii.eqb space) e = true) as Hex; [|congruence].
  apply existsb_exists. exists space. split; [easy|apply Ascii.eqb_refl].
Qed.

Lemma leadingSpace_indep (p X Y : gostring) :
  p <> [] -> strings.leadingSpace (p ++ space :: X) = None ->
  strings.leadingSpace (p ++ space :: Y) = None.
Proof.
  intros Hp H. apply leadingSpace_None_intro. intros e Hin.
  rewrite (HasPrefix_app_indep space Y X).
  - now apply leadingSpace_None.
  - destruct (spaceEnc_space e Hin) as [Hl|Hn]; [left|now right].
    destruct p; [easy|]. simpl. lia.
Qed.

Lemma trailingSpace_indep (p X Y : gostring) :
  p <> [] -> strings.trailingSpace (X ++ space :: p) = None ->
  strings.trailingSpace (Y ++ space :: p) = None.
Proof.
  intros Hp H. apply trailingSpace_None_intro. intros e Hin.
  pose proof (trailingSpace_None _ _ H Hin) as Hf.
  unfold strings.HasSuffix in *. rewrite rev_app_distr in *. cbn [rev] in *.
  rewrite <- !app_assoc in *. cbn [app] in *.
  rewrite (HasPrefix_app_indep space (rev Y) (rev X)); [easy|].
  destruct (spaceEnc_space e Hin) as [Hl|Hn].
  - left. rewrite !length_rev. destruct p; [easy|]. simpl. lia.
  - right. intros Hc. apply Hn. now apply in_rev.
Qed.

Lemma ParseEntry_not_comment (line : gostring) (n : Z) (e : IncronEntry) :
  ParseEntry line n = Ok (Some e) ->
  strings.HasPrefix (strings.TrimSpace line) (str "#") = false.
Proof.
  unfold ParseEntry. destruct (streq (strings.TrimSpace line) []); [easy|].
  destruct (strings.HasPrefix (strings.TrimSpace line) (str "#")); easy.
Qed.

Lemma digitVal_nonneg (c : byte) (d : Z) : strconv.digitVal c = Some d -> 0 <= d.
Proof.
  unfold strconv.digitVal.
  destruct ((48 <=? byteVal c) && (byteVal c <=? 57)) eqn:E1.
  - intros H. injection H as <-. apply andb_true_iff in E1 as [E1 _].
    apply Z.leb_le in E1. lia.
  - destruct ((97 <=? Z.lor (byteVal c) 32) && (Z.lor (byteVal c) 32 <=? 122)) eqn:E2;
      [|discriminate].
    intros H. injection H as <-. apply andb_true_iff in E2 as [E2 _].
    apply Z.leb_le in E2. lia.
Qed.

Lemma parseDigits_range (s : gostring) (b a v : Z) :
  0 <= b -> 0 <= a <= strconv.maxUint32 -> strconv.parseDigits b a s = Some v ->
  0 <= v <= strconv.maxUint32.
Proof.
  intros Hb. revert a. induction s as [|c s IH]; intros a Ha H; cbn [strconv.parseDigits] in H.
  - injection H as <-. exact Ha.
  - destruct (strconv.digitVal c) as [d|] eqn:Ed; [|discriminate].
    apply digitVal_nonneg in Ed.
    destruct (d <? b); [|discriminate].
    destruct (a * b + d >? strconv.maxUint32) eqn:E; [discriminate|].
    apply (IH (a * b + d)); [|exact H]. split; [nia|].
    destruct (Z.gtb_spec (a * b + d) strconv.maxUint32); [discriminate|lia].
Qed.

Lemma parseNumericMask_range (s : gostring) (v : Z) :
  parseNumericMask s = Some v -> 0 <= v <= strconv.maxUint32.
Proof.
  unfold parseNumericMask, strconv.ParseUint32.
  destruct (strings.HasPrefix s (str "0x") || strings.HasPrefix s (str "0X")).
  - destruct (skipn 2 s) as [|c t]; [discriminate|].
    apply parseDigits_range; [lia|]. unfold strconv.maxUint32. lia.
  - destruct s as [|c t]; [discriminate|].
    apply parseDigits_range; [lia|]. unfold strconv.maxUint32. lia.
Qed.

Lemma EventMaskMap_range (k : gostring) (v : Z) :
  lookupStr EventMaskMap k = Some v -> 0 <= v <= strconv.maxUint32.
Proof.
  assert (forallb (fun kv => (0 <=? snd kv) && (snd kv <=? strconv.maxUint32))
            EventMaskMap = true) as Hall by (vm_compute; reflexivity).
  rewrite forallb_forall in Hall. revert Hall. generalize EventMaskMap.
  induction l as [|[k' v'] l IH]; intros Hall; [discriminate|]. cbn [lookupStr].
  destruct (streq k' k).
  - intros H. injection H as <-. specialize (Hall (k', v') ltac:(now left)).
    cbn [snd] in Hall. apply andb_true_iff in Hall as [H1 H2].
    apply Z.leb_le in H1, H2. lia.
  - apply IH. intros x Hx. apply Hall. now right.
Qed.

Lemma parseMaskLoop_range (parts : list gostring) (acc : Z) (o : EntryOptions) (m : Z)
    (o' : EntryOptions) :
  0 <= acc <= strconv.maxUint32 -> parseMaskLoop parts acc o = Ok (m, o') ->
  0 <= m <= strconv.maxUint32.
Proof.
  revert acc o. induction parts as [|part parts IH]; intros acc o Hacc H;
    cbn [parseMaskLoop] in H.
  - injection H as <- <-. exact Hacc.
  - destruct (strings.Contains (strings.TrimSpace part) (str "=")).
    + destruct (parseOption (strings.TrimSpace part) o) as [o1|]; [|discriminate].
      apply (IH _ _ Hacc H).
    + destruct (lookupStr EventMaskMap (strings.TrimSpace part)) as [v|] eqn:Ev.
      * apply (IH _ _ (lor_uint32 _ _ Hacc (EventMaskMap_range _ _ Ev)) H).
      * destruct (parseNumericMask (strings.TrimSpace part)) as [v|] eqn:En; [|discriminate].
        apply (IH _ _ (lor_uint32 _ _ Hacc (parseNumericMask_range _ _ En)) H).
Qed.

Lemma parseMask_range (s : gostring) (o : EntryOptions) (m : Z) (o' : EntryOptions) :
  parseMask s o = Ok (m, o') -> 0 < m <= strconv.maxUint32.
Proof.
  intros H. pose proof (parseMask_nonzero _ _ _ _ H) as Hne. unfold parseMask in H.
  destruct (parseMaskLoop (strings.Split s (str ",")) 0 o) as [[m1 o1]|] eqn:E;
    [|discriminate].
  destruct (m1 =? 0); [discriminate|]. injection H as <- <-.
  apply parseMaskLoop_range in E; [lia|]. unfold strconv.maxUint32. lia.
Qed.

(** The mask field written for a parsed mask and its options reads back
    as that mask and those options. *)
Lemma parseMask_rendered (mask : Z) (o : EntryOptions) :
  0 < mask <= strconv.maxUint32 ->
  let field := strings.Join (maskTokens mask ++ optionStrings o) [byteOf 44] in
  ~ In space field /\ parseMask field defaultOptions = Ok (mask, o).
Proof.
  intros Hm. destruct (maskTokens_spec mask Hm) as (Hne & Hall & Hparse). cbv zeta.
  assert (Forall (fun t => ~ In (byteOf 44) t /\ ~ In space t)
            (maskTokens mask ++ optionStrings o)) as Htoks.
  { apply Forall_app. split; [|apply optionStrings_tokens].
    eapply Forall_impl; [exact Hall|]. intros t [Ht _]. cbv beta. split.
    - apply token_no_byte; [vm_compute; reflexivity|exact Ht].
    - apply token_no_byte; [vm_compute; reflexivity|exact Ht]. }
  split.
  - apply Join_notin; [vm_compute; discriminate|].
    eapply Forall_impl; [exact Htoks|]. now intros t [_ Ht].
  - unfold parseMask. change (str ",") with [byteOf 44]. rewrite Split_Join.
    + rewrite Hparse, parseMaskLoop_options. rewrite Z.lor_0_l.
      destruct (Z.eqb_spec mask 0); [lia|reflexivity].
    + destruct (maskTokens mask); [contradiction|discriminate].
    + eapply Forall_impl; [exact Htoks|]. now intros t [Ht _].
Qed.

(** C9.  A line that parses into a Rule, rendered with [String] and parsed
    again, gives the same Rule: same path, mask, command and options, the
    line number being the one handed to the second parse. *)
Theorem parse_render_parse (line : gostring) (n n' : Z) (e : IncronEntry) :
  ParseEntry line n = Ok (Some e) ->
  ParseEntry (String e) n' =
  Ok (Some (mkIncronEntry (Path e) (Mask e) (Command e) (Options e) n')).
Proof.
  intros H. pose proof (ParseEntry_not_comment _ _ _ H) as Hc.
  apply ParseEntry_inv in H as (p0 & p1 & p2 & mask & opts & Ht & H0 & H1 & Hm & ->).
  destruct (TrimSpace_trimmed line) as [Hl Hr]. rewrite Ht in Hl, Hr, Hc.
  destruct (ParseEntry_parts _ _ _ _ Ht) as (Hp0 & Hp2 & _).
  pose proof (parseMask_range _ _ _ _ Hm) as Hrange.
  destruct (parseMask_rendered mask opts Hrange) as [Hsp Hpm].
  destruct (maskTokens_spec mask Hrange) as (Hne & _ & _).
  rewrite String_tokens by exact Hne. cbn [Path Mask Command Options].
  set (field := strings.Join (maskTokens mask ++ optionStrings opts) [byteOf 44]) in *.
  clear Hm Hne Hrange Ht line.
  unfold ParseEntry.
  assert (strings.TrimSpace (p0 ++ space :: field ++ space :: p2)
          = p0 ++ space :: field ++ space :: p2) as ->.
  { apply TrimSpace_id.
    - apply (leadingSpace_indep p0 (p1 ++ space :: p2)); assumption.
    - replace (p0 ++ space :: field ++ space :: p2)
        with ((p0 ++ space :: field) ++ space :: p2)
        by (now rewrite <- app_assoc).
      apply (trailingSpace_indep p2 (p0 ++ space :: p1)); [assumption|].
      now rewrite <- app_assoc. }
  assert (streq (p0 ++ space :: field ++ space :: p2) [] = false) as ->
    by (destruct p0; [contradiction|reflexivity]).
  assert (strings.HasPrefix (p0 ++ space :: field ++ space :: p2) (str "#") = false) as ->.
  { rewrite (HasPrefix_app_indep space _ (p1 ++ space :: p2)); [exact Hc|].
    left. destruct p0; [contradiction|]. simpl. lia. }
  cbn [orb]. change (str " ") with [space].
  rewrite SplitN3_app by assumption. now rewrite Hpm.
Qed.

Lemma parse_render_parse_witness :
  let e := mkIncronEntry (str "/tmp") 1073811712 (str " echo  $@/$#")
             (mkEntryOptions false true true) 3 in
  ParseEntry (str "  /tmp 0x10100,IN_ISDIR,dotdirs=true,4096,loopable=true  echo  $@/$# ") 3
    = Ok (Some e) /\
  String e = str "/tmp IN_CREATE,IN_ISDIR,0x11000,loopable=true,dotdirs=true  echo  $@/$#" /\
  ParseEntry (String e) 9 =
  Ok (Some (mkIncronEntry (Path e) (Mask e) (Command e) (Options e) 9)).
Proof.
  split; [vm_compute; reflexivity|]. split; [vm_compute; reflexivity|].
  apply (parse_render_parse
           (str "  /tmp 0x10100,IN_ISDIR,dotdirs=true,4096,loopable=true  echo  $@/$# ") 3 9).
  vm_compute. reflexivity.
Defined.

Lemma parseEvents_unknown_descriptor_witness :
  parseEvents failingSystem (watchingOne (str "/tmp"))
    (inotifyRecord 5 InCreate 0 (str "x" ++ [zero]) ++
     inotifyRecord 1 InCreate 0 (str "y" ++ [zero])) =
  sendEvent (watchingOne (str "/tmp"))
    (mkInotifyEvent (str "/tmp/y") (str "y") InCreate 0 (str "/tmp")).
Proof.
  destruct (parseEvents_unknown_descriptor failingSystem (watchingOne (str "/tmp"))
              (inotifyRecord 5 InCreate 0 (str "x" ++ [zero]) ++
               inotifyRecord 1 InCreate 0 (str "y" ++ [zero]))) as [_ H].
  - vm_compute. lia.
  - vm_compute. split; discriminate.
  - vm_compute. reflexivity.
  - rewrite H. vm_compute. reflexivity.
Defined.

(** The permission policy on a small allow-file. *)
Example CheckUserPermission_allow_file :
  let fs :=
    mkFileSystem
      (fun p => if streq p DefaultAllowFile then Ok (mkFileInfo false)
                else Err (str "no such file or directory"))
      (fun p => if streq p DefaultAllowFile
                then Opened [str "# operators"; []; str "  alice "; str "bob"] None
                else OpenNotExist (str "no such file or directory")) in
  CheckUserPermission fs (str "alice") = Ok true /\
  CheckUserPermission fs (str "carol") = Ok false /\
  CheckUserPermission fs (str "# operators") = Ok false.
Proof. vm_compute. repeat split. Qed.

(* ===================================================================== *)
(** * Part III: the rest of the tables, the watch index and the executor  *)
(* ===================================================================== *)

(** ** Options and masks of a rule *)

Lemma SplitN2_inv (c : byte) (s k v : gostring) :
  strings.SplitN s [c] 2 = [k; v] -> s = k ++ c :: v /\ ~ In c k.
Proof.
  rewrite SplitN_SS. destruct (strings.Cut s [c]) as [[b a]|] eqn:E; [|discriminate].
  cbn [strings.SplitN]. intros H. injection H as <- <-. now apply Cut_one_inv.
Qed.

(** X1.  what [parseOption] accepts.  An option is accepted exactly when it
    reads [key=value] with, once both sides are trimmed, a key among
    [loopable], [recursive], [dotdirs] and the value [true] or [false];
    it then sets the one field the key names ([loopable] being stored
    inverted, as [NoLoop]) and keeps the others. *)
Theorem parseOption_accepts (optStr : gostring) (opts opts' : EntryOptions) :
  parseOption optStr opts = Ok opts' <->
  exists k v b,
    optStr = k ++ str "=" ++ v /\ ~ In (byteOf 61) k /\
    (strings.TrimSpace v = str "true" /\ b = true \/
     strings.TrimSpace v = str "false" /\ b = false) /\
    (strings.TrimSpace k = str "loopable" /\
       opts' = mkEntryOptions (negb b) (Recursive opts) (DotDirs opts) \/
     strings.TrimSpace k = str "recursive" /\
       opts' = mkEntryOptions (NoLoop opts) b (DotDirs opts) \/
     strings.TrimSpace k = str "dotdirs" /\
       opts' = mkEntryOptions (NoLoop opts) (Recursive opts) b).
Proof.
  unfold parseOption. change (str "=") with [byteOf 61]. split.
  - destruct (strings.SplitN optStr [byteOf 61] 2) as [|k [|v [|? ?]]] eqn:Hs;
      try discriminate.
    apply SplitN2_inv in Hs as [-> Hk].
    destruct (streq (strings.TrimSpace k) (str "loopable")) eqn:E1;
      [|destruct (streq (strings.TrimSpace k) (str "recursive")) eqn:E2;
        [|destruct (streq (strings.TrimSpace k) (str "dotdirs")) eqn:E3; [|discriminate]]];
      (destruct (streq (strings.TrimSpace v) (str "true")) eqn:Et;
       [|destruct (streq (strings.TrimSpace v) (str "false")) eqn:Ef; [|discriminate]]);
      intros H; injection H as <-;
      repeat match goal with H : streq _ _ = true |- _ => apply streq_eq in H end.
    + exists k, v, true. repeat split; auto.
    + exists k, v, false. repeat split; auto.
    + exists k, v, true. repeat split; auto.
    + exists k, v, false. repeat split; auto.
    + exists k, v, true. repeat split; auto.
    + exists k, v, false. repeat split; auto.
  - intros (k & v & b & -> & Hk & Hv & Hkey). cbn [app].
    rewrite SplitN2_Some by exact Hk.
    destruct Hv as [[-> ->]|[-> ->]], Hkey as [[-> ->]|[[-> ->]|[-> ->]]]; reflexivity.
Qed.

(** Trimming removes white space only. *)
Lemma trimLeftLoop_keeps (c : byte) (fuel : nat) (s : gostring) :
  (forall e, In e strings.spaceEncodings -> ~ In c e) ->
  In c s -> In c (strings.trimLeftLoop fuel s).
Proof.
  intros Hc. revert s. induction fuel as [|fuel IH]; intros s Hin; [exact Hin|].
  cbn [strings.trimLeftLoop]. destruct (strings.leadingSpace s) as [e|] eqn:E; [|exact Hin].
  apply leadingSpace_Some in E as (He & Hs & _). apply IH.
  rewrite Hs in Hin. apply in_app_or in Hin as [Hin|Hin]; [|exact Hin].
  now destruct (Hc e He).
Qed.

Lemma trimRightLoop_keeps (c : byte) (fuel : nat) (s : gostring) :
  (forall e, In e strings.spaceEncodings -> ~ In c e) ->
  In c s -> In c (strings.trimRightLoop fuel s).
Proof.
  intros Hc. revert s. induction fuel as [|fuel IH]; intros s Hin; [exact Hin|].
  cbn [strings.trimRightLoop]. destruct (strings.trailingSpace s) as [e|] eqn:E; [|exact Hin].
  apply trailingSpace_Some in E as (He & Hs & _). apply IH.
  rewrite Hs in Hin. apply in_app_or in Hin as [Hin|Hin]; [exact Hin|].
  now destruct (Hc e He).
Qed.

Lemma TrimSpace_keeps (c : byte) (s : gostring) :
  (forall e, In e strings.spaceEncodings -> ~ In c e) ->
  In c s -> In c (strings.TrimSpace s).
Proof.
  intros Hc Hin. unfold strings.TrimSpace, strings.TrimLeftSpace, strings.TrimRightSpace.
  now apply trimRightLoop_keeps, trimLeftLoop_keeps.
Qed.

(** What trimming returns is a segment of its argument. *)
Lemma TrimSpace_segment (s : gostring) :
  exists pre suf, s = pre ++ strings.TrimSpace s ++ suf.
Proof.
  unfold strings.TrimSpace, strings.TrimLeftSpace, strings.TrimRightSpace.
  destruct (trimLeftLoop_spec (length s) s (le_n _)) as [_ [pre Hpre]].
  set (u := strings.trimLeftLoop (length s) s) in *.
  destruct (trimRightLoop_spec (length u) u (le_n _)) as [_ [suf Hsuf]].
  exists pre, suf. now rewrite <- Hsuf.
Qed.

Lemma TrimSpace_In (c : byte) (s : gostring) : In c (strings.TrimSpace s) -> In c s.
Proof.
  intros H. destruct (TrimSpace_segment s) as (pre & suf & Hs). rewrite Hs.
  apply in_or_app. right. apply in_or_app. now left.
Qed.

Lemma not_space_byte (c : byte) :
  forallb (fun e => negb (existsb (Ascii.eqb c) e)) strings.spaceEncodings = true ->
  forall e, In e strings.spaceEncodings -> ~ In c e.
Proof.
  intros H e He Hin. rewrite forallb_forall in H. specialize (H e He).
  apply negb_true_iff in H.
  assert (existsb (Ascii.eqb c) e = true) as Hex; [|congruence].
  apply existsb_exists. exists c. split; [exact Hin|apply Ascii.eqb_refl].
Qed.

Lemma parseMaskLoop_options_only (parts : list gostring) (mask : Z) (opts : EntryOptions) :
  Forall (fun part => In (byteOf 61) part) parts ->
  match parseMaskLoop parts mask opts with
  | Ok (m, _) => m = mask
  | Err _ => True
  end.
Proof.
  revert opts. induction parts as [|part parts IH]; intros opts Hall; [reflexivity|].
  inversion Hall as [|? ? Hpart Hrest]; subst. cbn [parseMaskLoop].
  assert (strings.Contains (strings.TrimSpace part) (str "=") = true) as ->.
  { change (str "=") with [byteOf 61]. apply Contains_one. apply TrimSpace_keeps; [|exact Hpart].
    apply not_space_byte. vm_compute. reflexivity. }
  destruct (parseOption (strings.TrimSpace part) opts) as [opts1|]; [|exact I].
  now apply IH.
Qed.

(** X2.  options alone make no mask.  A mask field whose comma-separated
    parts all hold an equals sign is rejected, whatever the options say. *)
Theorem parseMask_options_only (maskStr : gostring) (opts : EntryOptions) :
  Forall (fun part => In (byteOf 61) part) (strings.Split maskStr (str ",")) ->
  isErr (parseMask maskStr opts) = true.
Proof.
  intros Hall. unfold parseMask.
  pose proof (parseMaskLoop_options_only _ 0 opts Hall) as H.
  destruct (parseMaskLoop (strings.Split maskStr (str ",")) 0 opts) as [[m o]|]; [|reflexivity].
  subst m. reflexivity.
Qed.

Lemma parseMask_options_only_witness :
  isErr (parseMask (str "loopable=true,recursive=false") defaultOptions) = true.
Proof.
  apply parseMask_options_only. vm_compute. repeat constructor; tauto.
Defined.
(** The step of [parseMask] on a part that is not an option. *)
Lemma parseMaskLoop_event (t : gostring) (rest : list gostring) (mask : Z)
    (opts : EntryOptions) :
  ~ In (byteOf 61) t ->
  parseMaskLoop (t :: rest) mask opts =
  match eventValue (strings.TrimSpace t) with
  | Some v => parseMaskLoop rest (Z.lor mask v) opts
  | None => Err (str "unknown event mask: " ++ strings.TrimSpace t)
  end.
Proof.
  intros Ht. cbn [parseMaskLoop]. unfold eventValue.
  assert (strings.Contains (strings.TrimSpace t) (str "=") = false) as ->.
  { change (str "=") with [byteOf 61]. apply Contains_one_false.
    intros Hin. apply Ht. now apply TrimSpace_In. }
  destruct (lookupStr EventMaskMap (strings.TrimSpace t)); [reflexivity|].
  destruct (parseNumericMask (strings.TrimSpace t)); reflexivity.
Qed.

Lemma parseMaskLoop_Permutation (toks toks' : list gostring) :
  Permutation toks toks' ->
  Forall (fun t => ~ In (byteOf 61) t) toks ->
  forall mask opts r,
    parseMaskLoop toks mask opts = Ok r -> parseMaskLoop toks' mask opts = Ok r.
Proof.
  induction 1 as [|x l l' Hp IH|x y l|l l' l'' Hp1 IH1 Hp2 IH2]; intros Hall mask opts r.
  - easy.
  - inversion Hall as [|? ? Hx Hl]; subst. rewrite !parseMaskLoop_event by exact Hx.
    destruct (eventValue (strings.TrimSpace x)) as [v|]; [now apply IH|easy].
  - inversion Hall as [|? ? Hy Hl]; subst. inversion Hl as [|? ? Hx Hl']; subst.
    rewrite (parseMaskLoop_event y), (parseMaskLoop_event x (y :: l)) by assumption.
    destruct (eventValue (strings.TrimSpace y)) as [vy|] eqn:Ey.
    + rewrite (parseMaskLoop_event x) by assumption.
      destruct (eventValue (strings.TrimSpace x)) as [vx|]; [|discriminate].
      rewrite (parseMaskLoop_event y), Ey by assumption.
      now rewrite <- !Z.lor_assoc, (Z.lor_comm vy vx).
    + discriminate.
  - intros H. apply IH2; [|now apply IH1].
    eapply Permutation_Forall; [exact Hp1|exact Hall].
Qed.

(** X3.  the order of the event tokens does not matter.  When a mask field
    without options is accepted, any reordering of its comma-separated
    tokens is accepted with the same result. *)
Theorem parseMask_order (toks toks' : list gostring) (opts : EntryOptions)
    (r : Z * EntryOptions) :
  Forall (fun t => ~ In (byteOf 44) t /\ ~ In (byteOf 61) t) toks ->
  Permutation toks toks' ->
  parseMask (strings.Join toks (str ",")) opts = Ok r ->
  parseMask (strings.Join toks' (str ",")) opts = Ok r.
Proof.
  intros Hall Hperm. change (str ",") with [byteOf 44].
  destruct toks as [|t toks].
  { apply Permutation_nil in Hperm. now subst. }
  assert (toks' <> []) as Hne'.
  { intros ->. now apply Permutation_sym, Permutation_nil in Hperm. }
  assert (Forall (fun t => ~ In (byteOf 44) t /\ ~ In (byteOf 61) t) toks') as Hall'
    by (eapply Permutation_Forall; [exact Hperm|exact Hall]).
  unfold parseMask. change (str ",") with [byteOf 44].
  rewrite !Split_Join;
    [|exact Hne'|eapply Forall_impl; [exact Hall'|now intros ? []]
     |discriminate|eapply Forall_impl; [exact Hall|now intros ? []]].
  destruct (parseMaskLoop (t :: toks) 0 opts) as [[m o]|] eqn:E; [|discriminate].
  rewrite (parseMaskLoop_Permutation _ _ Hperm) with (r := (m, o)); [easy| |exact E].
  eapply Forall_impl; [exact Hall|now intros ? []].
Qed.

Lemma parseMask_order_witness :
  parseMask (str "0x10,IN_CREATE,IN_MODIFY") defaultOptions = Ok (274, defaultOptions).
Proof.
  apply (parseMask_order [str "IN_CREATE"; str "0x10"; str "IN_MODIFY"]
                         [str "0x10"; str "IN_CREATE"; str "IN_MODIFY"]).
  - repeat constructor; vm_compute; intuition discriminate.
  - apply perm_swap.
  - vm_compute. reflexivity.
Defined.
(** ** Numbers and names of a mask, written and read back *)

Lemma formatLoop_decimal (fuel : nat) (n : Z) (acc : gostring) :
  0 <= n -> Forall (fun c => c <> "x"%char /\ c <> "X"%char) acc ->
  Forall (fun c => c <> "x"%char /\ c <> "X"%char) (strconv.formatLoop fuel 10 n acc).
Proof.
  revert n acc. induction fuel as [|fuel IH]; intros n acc Hn Hacc; [exact Hacc|].
  cbn [strconv.formatLoop].
  assert (Forall (fun c => c <> "x"%char /\ c <> "X"%char)
            (strconv.digitChar (n mod 10) :: acc)) as H.
  { constructor; [|exact Hacc].
    assert (0 <= n mod 10 < 10) as Hd by (apply Z.mod_pos_bound; lia).
    assert (n mod 10 = 0 \/ n mod 10 = 1 \/ n mod 10 = 2 \/ n mod 10 = 3 \/ n mod 10 = 4 \/
            n mod 10 = 5 \/ n mod 10 = 6 \/ n mod 10 = 7 \/ n mod 10 = 8 \/ n mod 10 = 9)
      as Hc by lia.
    repeat (destruct Hc as [->|Hc]; [split; discriminate|]). rewrite Hc. split; discriminate. }
  destruct (n / 10 =? 0); [exact H|]. apply IH; [|exact H]. apply Z.div_pos; lia.
Qed.

(** X4.  numbers of a mask field.  A 32-bit value written in decimal (as
    [%d] writes it) or in hexadecimal behind [0x] (as [0x%x] writes it) is
    read back by [parseNumericMask] as that value. *)
Theorem parseNumericMask_rendered (n : Z) :
  0 <= n <= 4294967295 ->
  parseNumericMask (strconv.FormatInt n 10) = Some n /\
  parseNumericMask (hexMask n) = Some n.
Proof.
  intros Hn. split; [|now apply parseNumericMask_hexMask].
  unfold strconv.FormatInt. destruct (Z.ltb_spec n 0) as [|_]; [lia|].
  unfold parseNumericMask.
  pose proof (formatLoop_decimal 64 n [] ltac:(lia) ltac:(constructor)) as Hdec.
  fold (strconv.FormatUint n 10) in Hdec.
  assert (strings.HasPrefix (strconv.FormatUint n 10) (str "0x") = false /\
          strings.HasPrefix (strconv.FormatUint n 10) (str "0X") = false) as [-> ->].
  { destruct (strconv.FormatUint n 10) as [|c0 [|c1 s]];
      [split; reflexivity
      |split; cbn [str list_ascii_of_string strings.HasPrefix]; apply andb_false_r|].
    inversion Hdec as [|? ? _ Hrest]; subst. inversion Hrest as [|? ? [Hx HX] _]; subst.
    cbn [str list_ascii_of_string strings.HasPrefix].
    split; apply andb_false_iff; right; apply andb_false_iff; left.
    - now apply Ascii.eqb_neq.
    - now apply Ascii.eqb_neq. }
  cbn [orb]. apply ParseUint32_FormatUint; [lia|exact Hn].
Qed.

Lemma parseNumericMask_rendered_witness :
  parseNumericMask (str "4095") = Some 4095 /\ parseNumericMask (str "0xfff") = Some 4095.
Proof.
  apply (parseNumericMask_rendered 4095). lia.
Defined.

(** X5.  a mask written by [MaskToString] reads back.  For every non-zero
    32-bit mask, known flag or not, the text [MaskToString] writes is
    accepted by [parseMask] and stands for that mask, the options being
    left as they were; the zero mask is written [0], which [parseMask]
    rejects. *)
Theorem MaskToString_parseMask (e : IncronEntry) (opts : EntryOptions) :
  (0 < Mask e <= 4294967295 ->
   parseMask (MaskToString e) opts = Ok (Mask e, opts)) /\
  (Mask e = 0 ->
   MaskToString e = str "0" /\
   parseMask (MaskToString e) opts = Err (str "no valid event mask specified")).
Proof.
  split.
  - intros Hm. destruct (maskTokens_spec (Mask e) Hm) as (Hne & Hall & Hparse).
    rewrite (MaskToString_tokens e Hne). unfold parseMask.
    change (str ",") with [byteOf 44]. rewrite Split_Join.
    + specialize (Hparse [] 0 opts). rewrite app_nil_r in Hparse. rewrite Hparse.
      cbn [parseMaskLoop]. rewrite Z.lor_0_l.
      destruct (Z.eqb_spec (Mask e) 0); [lia|reflexivity].
    + exact Hne.
    + eapply Forall_impl; [exact Hall|]. intros t [Ht _]. cbv beta.
      apply token_no_byte; [vm_compute; reflexivity|exact Ht].
  - intros Hz. unfold MaskToString. rewrite Hz. split; vm_compute; reflexivity.
Qed.

(** X6.  what [eventMaskToText] and [maskToString] list.  Whatever order
    the map is ranged over, the text is made of the names of all entries
    of [ReverseEventMaskMap] whose key shares a bit with the mask, joined
    by commas ([eventMaskToText]) or by bars ([maskToString]), or is the
    mask in hexadecimal when there is none.  As [IN_ALL_EVENTS] is one of
    the keys, its name is listed for every mask that holds one of its
    twelve bits. *)
Theorem eventMaskToText_names (order : list (Z * gostring)) (mask : Z) :
  Permutation order ReverseEventMaskMap ->
  exists parts,
    Permutation parts
      (map snd (filter (fun fn => negb (Z.land mask (fst fn) =? 0)) ReverseEventMaskMap)) /\
    eventMaskToText order mask =
      match parts with
      | [] => hexMask mask
      | _ :: _ => strings.Join parts (str ",")
      end /\
    maskToString order mask =
      match parts with
      | [] => hexMask mask
      | _ :: _ => strings.Join parts (str "|")
      end /\
    (Z.land mask InAllEvents <> 0 -> In (str "IN_ALL_EVENTS") parts).
Proof.
  intros Hperm.
  exists (map snd (filter (fun fn => negb (Z.land mask (fst fn) =? 0)) order)).
  assert (Permutation
            (map snd (filter (fun fn => negb (Z.land mask (fst fn) =? 0)) order))
            (map snd (filter (fun fn => negb (Z.land mask (fst fn) =? 0)) ReverseEventMaskMap)))
    as Hparts.
  { apply Permutation_map. now apply filter_Permutation. }
  split; [exact Hparts|]. split; [reflexivity|]. split; [reflexivity|].
  intros Hall. apply (Permutation_in _ (Permutation_sym Hparts)).
  apply in_map_iff. exists (InAllEvents, str "IN_ALL_EVENTS"). split; [reflexivity|].
  apply list_elem_of_In, list_elem_of_filter. split.
  - cbn [fst]. apply Is_true_true, negb_true_iff, Z.eqb_neq. exact Hall.
  - apply list_elem_of_In. vm_compute. tauto.
Qed.

Lemma eventMaskToText_names_witness :
  exists parts,
    Permutation parts
      (map snd (filter (fun fn => negb (Z.land InCreate (fst fn) =? 0)) ReverseEventMaskMap)) /\
    eventMaskToText (rev ReverseEventMaskMap) InCreate =
      match parts with
      | [] => hexMask InCreate
      | _ :: _ => strings.Join parts (str ",")
      end /\
    maskToString (rev ReverseEventMaskMap) InCreate =
      match parts with
      | [] => hexMask InCreate
      | _ :: _ => strings.Join parts (str "|")
      end /\
    (Z.land InCreate InAllEvents <> 0 -> In (str "IN_ALL_EVENTS") parts).
Proof.
  apply eventMaskToText_names. apply Permutation_sym, Permutation_rev.
Defined.

(** ** Interpolation of a command without wildcards *)

Lemma Cut_first_absent (c : byte) (old s : gostring) :
  ~ In c s -> strings.Cut s (c :: old) = None.
Proof.
  induction s as [|d s IH]; intros H; [reflexivity|].
  cbn [strings.Cut strings.HasPrefix].
  destruct (Ascii.eqb d c) eqn:E.
  - apply Ascii.eqb_eq in E. subst. exfalso. apply H. now left.
  - cbn [andb]. rewrite IH; [reflexivity|]. intros Hin. apply H. now right.
Qed.

Lemma ReplaceAll_first_absent (c : byte) (old new s : gostring) :
  ~ In c s -> strings.ReplaceAll s (c :: old) new = s.
Proof.
  intros H. unfold strings.ReplaceAll. destruct (length s); [reflexivity|].
  cbn [strings.replaceLoop]. now rewrite Cut_first_absent.
Qed.

(** X7.  a command without a dollar sign is run as written.  The five
    replacement passes of [ExpandCommand] leave it untouched, whatever the
    event. *)
Theorem ExpandCommand_no_dollar (order : list (Z * gostring)) (e : IncronEntry)
    (watchPath filename : gostring) (eventMask : Z) :
  ~ In dollar (Command e) ->
  ExpandCommand order e watchPath filename eventMask = Command e.
Proof.
  intros H. unfold ExpandCommand.
  change (str "$$") with (dollar :: str "$"). change (str "$@") with (dollar :: str "@").
  change (str "$#") with (dollar :: str "#"). change (str "$%") with (dollar :: str "%").
  change (str "$&") with (dollar :: str "&").
  do 5 rewrite (ReplaceAll_first_absent dollar _ _ (Command e) H). reflexivity.
Qed.

Lemma ExpandCommand_no_dollar_witness :
  ExpandCommand ReverseEventMaskMap
    (mkIncronEntry (str "/tmp") InCreate (str "logger created") defaultOptions 1)
    (str "/tmp") (str "f") InCreate = str "logger created".
Proof.
  apply (ExpandCommand_no_dollar ReverseEventMaskMap
           (mkIncronEntry (str "/tmp") InCreate (str "logger created") defaultOptions 1)).
  vm_compute. intuition discriminate.
Defined.
(** ** Loading a table *)

Lemma ParseEntry_LineNumber (line : gostring) (n : Z) (e : IncronEntry) :
  ParseEntry line n = Ok (Some e) -> LineNumber e = n.
Proof.
  intros H. apply ParseEntry_inv in H as (p0 & p1 & p2 & mask & opts & _ & _ & _ & _ & ->).
  reflexivity.
Qed.

Lemma loadLines_spec (filePath : gostring) (lines : list gostring) (k : Z)
    (acc res : list IncronEntry) :
  loadLines filePath lines k acc = Ok res ->
  exists new,
    res = acc ++ new /\
    StronglySorted (fun a b => LineNumber a < LineNumber b) new /\
    Forall (fun e => k < LineNumber e) new /\
    forall e, In e new <->
      exists i line, lines !! i = Some line /\
                     ParseEntry line (k + Z.of_nat i + 1) = Ok (Some e).
Proof.
  revert k acc. induction lines as [|l lines IH]; intros k acc H; cbn [loadLines] in H.
  - injection H as <-. exists []. rewrite app_nil_r. split; [reflexivity|].
    split; [constructor|]. split; [constructor|].
    intros e. split; [intros []|]. intros (i & line & Hl & _). now destruct i.
  - destruct (ParseEntry l (k + 1)) as [[entry|]|msg] eqn:E; [| |discriminate].
    + destruct (IH _ _ H) as (new & -> & Hsorted & Hlow & Hin).
      exists (entry :: new). rewrite <- app_assoc. split; [reflexivity|].
      pose proof (ParseEntry_LineNumber _ _ _ E) as Hn.
      split; [|split].
      * constructor; [exact Hsorted|]. eapply Forall_impl; [exact Hlow|].
        intros e He. cbv beta in *. lia.
      * constructor; [lia|]. eapply Forall_impl; [exact Hlow|]. intros e He. cbv beta in *. lia.
      * intros e. split.
        -- intros [<-|He].
           ++ exists 0%nat, l. split; [reflexivity|]. now rewrite Z.add_0_r.
           ++ apply Hin in He as (i & line & Hl & Hp). exists (S i), line.
              split; [exact Hl|]. rewrite <- Hp. f_equal. lia.
        -- intros (i & line & Hl & Hp). destruct i as [|i].
           ++ injection Hl as <-. rewrite Z.add_0_r, E in Hp. injection Hp as <-. now left.
           ++ right. apply Hin. exists i, line. split; [exact Hl|].
              rewrite <- Hp. f_equal. lia.
    + destruct (IH _ _ H) as (new & -> & Hsorted & Hlow & Hin).
      exists new. split; [reflexivity|]. split; [exact Hsorted|]. split.
      * eapply Forall_impl; [exact Hlow|]. intros e He. cbv beta in *. lia.
      * intros e. rewrite Hin. split.
        -- intros (i & line & Hl & Hp). exists (S i), line.
           split; [exact Hl|]. rewrite <- Hp. f_equal. lia.
        -- intros (i & line & Hl & Hp). destruct i as [|i].
           ++ injection Hl as <-. rewrite Z.add_0_r, E in Hp. discriminate.
           ++ exists i, line. split; [exact Hl|]. rewrite <- Hp. f_equal. lia.
Qed.

(** X8.  the entries of a loaded table.  They are the lines of the file
    that parse into a Rule, each parsed with its 1-based line number
    (blank lines and comments count), and they stand in the order of the
    file: their line numbers increase strictly. *)
Theorem LoadTable_line_numbers (fs : FileSystem) (filePath : gostring) (t : IncronTable)
    (lines : list gostring) (scanErr : option gostring) :
  LoadTable fs filePath = Ok t ->
  osOpen fs filePath = Opened lines scanErr ->
  StronglySorted (fun a b => LineNumber a < LineNumber b) (Entries t) /\
  forall e, In e (Entries t) <->
    exists i line, lines !! i = Some line /\
                   ParseEntry line (Z.of_nat i + 1) = Ok (Some e).
Proof.
  intros H Hopen. unfold LoadTable in H. rewrite Hopen in H.
  destruct (loadLines filePath lines 0 []) as [entries|] eqn:E; [|discriminate].
  destruct scanErr; [discriminate|]. injection H as <-. cbn [Entries].
  destruct (loadLines_spec _ _ _ _ _ E) as (new & -> & Hsorted & _ & Hin).
  cbn [app]. split; [exact Hsorted|]. exact Hin.
Qed.

Lemma LoadTable_line_numbers_witness :
  let fs := mkFileSystem (fun _ => Ok (mkFileInfo false))
              (fun _ => Opened [str "# rules"; str "/tmp IN_CREATE echo a"; [];
                                str "/var IN_DELETE echo b"] None) in
  let t := mkIncronTable
             [mkIncronEntry (str "/tmp") InCreate (str "echo a") defaultOptions 2;
              mkIncronEntry (str "/var") InDelete (str "echo b") defaultOptions 4]
             [] (str "/etc/eventcron.d/t") in
  LoadTable fs (str "/etc/eventcron.d/t") = Ok t /\
  StronglySorted (fun a b => LineNumber a < LineNumber b) (Entries t) /\
  forall e, In e (Entries t) <->
    exists i line,
      [str "# rules"; str "/tmp IN_CREATE echo a"; []; str "/var IN_DELETE echo b"] !! i
        = Some line /\
      ParseEntry line (Z.of_nat i + 1) = Ok (Some e).
Proof.
  intros fs t. assert (LoadTable fs (str "/etc/eventcron.d/t") = Ok t) as H
    by (vm_compute; reflexivity).
  split; [exact H|].
  exact (LoadTable_line_numbers fs (str "/etc/eventcron.d/t") t _ None H eq_refl).
Defined.

Lemma loadLines_first_error (filePath : gostring) (good : list gostring) (bad : gostring)
    (rest : list gostring) (k : Z) (acc : list IncronEntry) (msg : gostring) :
  (forall i line, good !! i = Some line ->
                  isErr (ParseEntry line (k + Z.of_nat i + 1)) = false) ->
  ParseEntry bad (k + Z.of_nat (length good) + 1) = Err msg ->
  loadLines filePath (good ++ bad :: rest) k acc =
  Err (str "error in file " ++ filePath ++ str ": " ++ msg).
Proof.
  revert k acc. induction good as [|l good IH]; intros k acc Hgood Hbad;
    cbn [app loadLines].
  - cbn [length] in Hbad. rewrite Z.add_0_r in Hbad. now rewrite Hbad.
  - pose proof (Hgood 0%nat l eq_refl) as H0. rewrite Z.add_0_r in H0.
    assert (forall i line, good !! i = Some line ->
              isErr (ParseEntry line (k + 1 + Z.of_nat i + 1)) = false) as Hgood'.
    { intros i line Hl. specialize (Hgood (S i) line Hl).
      rewrite <- Hgood. do 2 f_equal. lia. }
    assert (ParseEntry bad (k + 1 + Z.of_nat (length good) + 1) = Err msg) as Hbad'.
    { rewrite <- Hbad. f_equal. cbn [length]. lia. }
    destruct (ParseEntry l (k + 1)) as [[entry|]|]; [| |discriminate]; now apply IH.
Qed.

(** X9.  a table is loaded whole or not at all.  The first line that does
    not parse aborts the load: the error names the file and carries the
    parser's message for that line, with its line number; the entries read
    before it are dropped, and the lines after it are not looked at. *)
Theorem LoadTable_first_error (fs : FileSystem) (filePath : gostring)
    (good : list gostring) (bad : gostring) (rest : list gostring)
    (scanErr : option gostring) (msg : gostring) :
  osOpen fs filePath = Opened (good ++ bad :: rest) scanErr ->
  (forall i line, good !! i = Some line ->
                  isErr (ParseEntry line (Z.of_nat i + 1)) = false) ->
  ParseEntry bad (Z.of_nat (length good) + 1) = Err msg ->
  LoadTable fs filePath = Err (str "error in file " ++ filePath ++ str ": " ++ msg).
Proof.
  intros Hopen Hgood Hbad. unfold LoadTable. rewrite Hopen.
  rewrite (loadLines_first_error filePath good bad rest 0 [] msg); [reflexivity| |exact Hbad].
  intros i line Hl. now apply Hgood.
Qed.

Lemma LoadTable_first_error_witness :
  LoadTable
    (mkFileSystem (fun _ => Ok (mkFileInfo false))
       (fun _ => Opened [str "/tmp IN_CREATE echo a"; str "/var IN_BOGUS echo b";
                         str "not a rule"] None))
    (str "/t") =
  Err (str "error in file /t: line 2: unknown event mask: IN_BOGUS").
Proof.
  apply (LoadTable_first_error _ (str "/t") [str "/tmp IN_CREATE echo a"]
           (str "/var IN_BOGUS echo b") [str "not a rule"] None
           (str "line 2: unknown event mask: IN_BOGUS")).
  - reflexivity.
  - intros [|[|i]] line Hl; [|discriminate Hl|discriminate Hl].
    injection Hl as <-. vm_compute. reflexivity.
  - vm_compute. reflexivity.
Defined.

(** ** Validating a table *)

Lemma ValidateEntry_None (e : IncronEntry) :
  ValidateEntry e = None <->
  strings.HasPrefix (Path e) (str "/") = true /\
  strings.TrimSpace (Command e) <> [] /\ Mask e <> 0.
Proof.
  unfold ValidateEntry, filepath.IsAbs. change [filepath.slash] with (str "/").
  destruct (strings.HasPrefix (Path e) (str "/")); cbn [negb].
  - destruct (streq (strings.TrimSpace (Command e)) []) eqn:Ec.
    + apply streq_eq in Ec. split; [discriminate|]. now intros (_ & H & _).
    + apply streq_neq in Ec. destruct (Z.eqb_spec (Mask e) 0).
      * split; [discriminate|]. now intros (_ & _ & H).
      * easy.
  - split; [discriminate|]. now intros [H _].
Qed.

Lemma flat_map_nil {A B} (f : A -> list B) (l : list A) :
  flat_map f l = [] <-> Forall (fun x => f x = []) l.
Proof.
  induction l as [|x l IH]; cbn [flat_map].
  - split; [constructor|reflexivity].
  - split.
    + intros H. apply app_eq_nil in H as [H1 H2]. constructor; [exact H1|now apply IH].
    + intros H. inversion H as [|? ? H1 H2]; subst. rewrite H1. now apply IH.
Qed.

(** X10.  when [ValidateTable] reports nothing.  The list of errors is empty
    exactly when every entry has a path starting with a slash, a command
    that is not blank, and a mask that is not zero. *)
Theorem ValidateTable_clean (table : IncronTable) :
  ValidateTable table = [] <->
  Forall (fun e => strings.HasPrefix (Path e) (str "/") = true /\
                   strings.TrimSpace (Command e) <> [] /\ Mask e <> 0)
         (Entries table).
Proof.
  unfold ValidateTable. rewrite flat_map_nil, Forall_forall, Forall_forall. split.
  - intros H e He. apply ValidateEntry_None.
    apply list_elem_of_lookup in He as [i Hi].
    specialize (H (i, e)). cbn [snd fst] in H.
    destruct (ValidateEntry e); [|reflexivity].
    discriminate H. apply elem_of_lookup_imap. now exists i, e.
  - intros H [i e] Hie. cbn [snd fst].
    apply elem_of_lookup_imap in Hie as (i' & e' & Heq & Hl).
    injection Heq as <- <-.
    assert (ValidateEntry e = None) as ->; [|reflexivity].
    apply ValidateEntry_None, H. apply list_elem_of_lookup. now exists i.
Qed.
(** ** The table files of users and of the system *)

Lemma Contains_prefix (p r : gostring) : strings.Contains (p ++ r) p = true.
Proof.
  unfold strings.Contains.
  assert (strings.Cut (p ++ r) p = Some ([], skipn (length p) (p ++ r))) as ->; [|reflexivity].
  destruct (p ++ r) eqn:E; cbn [strings.Cut]; rewrite <- E, HasPrefix_app; reflexivity.
Qed.

Lemma lastElemRev_app (a b : gostring) :
  ~ In filepath.slash a -> filepath.lastElemRev (a ++ filepath.slash :: b) = a.
Proof.
  induction a as [|c a IH]; intros H; cbn [app filepath.lastElemRev].
  - now rewrite Ascii.eqb_refl.
  - destruct (Ascii.eqb c filepath.slash) eqn:E.
    + apply Ascii.eqb_eq in E. subst. exfalso. apply H. now left.
    + rewrite IH; [reflexivity|]. intros Hin. apply H. now right.
Qed.

Lemma Base_dir_name (dir name : gostring) :
  name <> [] -> ~ In filepath.slash name ->
  filepath.Base (dir ++ filepath.slash :: name) = name.
Proof.
  intros Hne Hslash. unfold filepath.Base.
  destruct (dir ++ filepath.slash :: name) eqn:E; [now destruct dir|]. rewrite <- E. clear E.
  rewrite rev_app_distr. cbn [rev]. rewrite <- app_assoc. cbn [app].
  assert (~ In filepath.slash (rev name)) as Hrev by (intros H; apply Hslash; now apply in_rev).
  assert (filepath.stripTrailingSlashes (rev name ++ filepath.slash :: rev dir) =
          rev name ++ filepath.slash :: rev dir) as ->.
  { destruct (rev name) as [|c r] eqn:Er.
    - apply (f_equal (@rev _)) in Er. rewrite rev_involutive in Er. now destruct Hne.
    - cbn [app filepath.stripTrailingSlashes].
      destruct (Ascii.eqb c filepath.slash) eqn:Ec; [|reflexivity].
      apply Ascii.eqb_eq in Ec. subst. exfalso. apply Hrev. now left. }
  rewrite lastElemRev_app by exact Hrev. rewrite rev_involutive.
  destruct name; [now destruct Hne|reflexivity].
Qed.

Lemma GetUserTablePath_plain (username : gostring) :
  plainName username ->
  GetUserTablePath username = DefaultUserTableDir ++ filepath.slash :: username.
Proof.
  intros (H1 & H2 & H3 & H4). unfold GetUserTablePath.
  apply (Join_clean_dir [str "var"; str "spool"; str "eventcron"] username); [discriminate|].
  apply Forall_app. split.
  - repeat constructor; try discriminate; vm_compute; intuition discriminate.
  - constructor; [|constructor]. easy.
Qed.

Lemma GetSystemTablePath_plain (tableName : gostring) :
  plainName tableName ->
  GetSystemTablePath tableName = DefaultSystemTableDir ++ filepath.slash :: tableName.
Proof.
  intros (H1 & H2 & H3 & H4). unfold GetSystemTablePath.
  apply (Join_clean_dir [str "etc"; str "eventcron.d"] tableName); [discriminate|].
  apply Forall_app. split.
  - repeat constructor; try discriminate; vm_compute; intuition discriminate.
  - constructor; [|constructor]. easy.
Qed.

Lemma LoadTable_names (fs : FileSystem) (filePath : gostring) (t : IncronTable) :
  LoadTable fs filePath = Ok t ->
  FilePath t = filePath /\
  Username t = if strings.Contains filePath DefaultUserTableDir
               then filepath.Base filePath else [].
Proof.
  unfold LoadTable. generalize (strings.Contains filePath DefaultUserTableDir). intros b.
  destruct (osOpen fs filePath) as [?|?|lines scanErr]; try discriminate.
  destruct (loadLines filePath lines 0 []) as [entries|]; [|discriminate].
  destruct scanErr; [discriminate|]. intros H. injection H as <-. split; reflexivity.
Qed.

(** X11.  whose table a user table is.  For a plain user name, the table is
    read from the file of that name in the spool directory, and the loaded
    table carries the name as its [Username]. *)
Theorem LoadUserTable_owner (fs : FileSystem) (username : gostring) (t : IncronTable) :
  plainName username ->
  LoadUserTable fs username = Ok t ->
  FilePath t = str "/var/spool/eventcron/" ++ username /\ Username t = username.
Proof.
  intros Hplain H. unfold LoadUserTable in H.
  apply LoadTable_names in H as [Hpath Hname].
  rewrite (GetUserTablePath_plain _ Hplain) in Hpath, Hname.
  destruct Hplain as (H1 & _ & _ & H4). split; [exact Hpath|].
  rewrite Hname, Contains_prefix. apply Base_dir_name; assumption.
Qed.

Lemma LoadUserTable_owner_witness :
  let fs := mkFileSystem (fun _ => Ok (mkFileInfo false))
              (fun p => if streq p (str "/var/spool/eventcron/alice")
                        then Opened [str "/tmp IN_CREATE echo a"] None
                        else OpenNotExist (str "no such file or directory")) in
  exists t, LoadUserTable fs (str "alice") = Ok t /\
            FilePath t = str "/var/spool/eventcron/alice" /\ Username t = str "alice".
Proof.
  intros fs.
  exists (mkIncronTable [mkIncronEntry (str "/tmp") InCreate (str "echo a") defaultOptions 1]
            (str "alice") (str "/var/spool/eventcron/alice")).
  assert (LoadUserTable fs (str "alice") =
          Ok (mkIncronTable
                [mkIncronEntry (str "/tmp") InCreate (str "echo a") defaultOptions 1]
                (str "alice") (str "/var/spool/eventcron/alice"))) as H
    by (vm_compute; reflexivity).
  split; [exact H|].
  apply (LoadUserTable_owner fs (str "alice") _); [|exact H].
  repeat split; try discriminate. vm_compute. intuition discriminate.
Defined.

Lemma Cut_cons_miss (c : byte) (s sep : gostring) :
  strings.HasPrefix (c :: s) sep = false -> strings.Cut s sep = None ->
  strings.Cut (c :: s) sep = None.
Proof. intros H1 H2. cbn [strings.Cut]. now rewrite H1, H2. Qed.

Lemma system_path_not_spool (tableName : gostring) :
  ~ In filepath.slash tableName ->
  strings.Contains (DefaultSystemTableDir ++ filepath.slash :: tableName)
                   DefaultUserTableDir = false.
Proof.
  intros Hslash. unfold strings.Contains.
  assert (strings.Cut tableName DefaultUserTableDir = None) as Hname
    by (apply (Cut_first_absent filepath.slash); exact Hslash).
  assert (strings.HasPrefix (filepath.slash :: tableName) DefaultUserTableDir = false) as Hlast.
  { destruct (strings.HasPrefix (filepath.slash :: tableName) DefaultUserTableDir) eqn:E;
      [|reflexivity].
    apply HasPrefix_iff in E as [r Hr]. exfalso. apply Hslash.
    change DefaultUserTableDir with (filepath.slash :: str "var/spool/eventcron") in Hr.
    injection Hr as ->. vm_compute. tauto. }
  assert (strings.Cut (DefaultSystemTableDir ++ filepath.slash :: tableName)
                      DefaultUserTableDir = None) as ->; [|reflexivity].
  change (DefaultSystemTableDir ++ filepath.slash :: tableName)
    with (str "/etc/eventcron.d" ++ filepath.slash :: tableName).
  cbn [str list_ascii_of_string app].
  repeat (apply Cut_cons_miss; [reflexivity|]).
  apply Cut_cons_miss; [exact Hlast|exact Hname].
Qed.

(** X12.  a system table has no owner.  For a plain table name, the table is
    read from the file of that name in the system directory, and its
    [Username] is empty. *)
Theorem LoadSystemTable_owner (fs : FileSystem) (tableName : gostring) (t : IncronTable) :
  plainName tableName ->
  LoadSystemTable fs tableName = Ok t ->
  FilePath t = str "/etc/eventcron.d/" ++ tableName /\ Username t = [].
Proof.
  intros Hplain H. unfold LoadSystemTable in H.
  apply LoadTable_names in H as [Hpath Hname].
  rewrite (GetSystemTablePath_plain _ Hplain) in Hpath, Hname.
  destruct Hplain as (_ & _ & _ & H4). split; [exact Hpath|].
  rewrite Hname, system_path_not_spool by exact H4. reflexivity.
Qed.

Lemma LoadSystemTable_owner_witness :
  let fs := mkFileSystem (fun _ => Ok (mkFileInfo false))
              (fun p => if streq p (str "/etc/eventcron.d/backup")
                        then Opened [str "/tmp IN_CREATE echo a"] None
                        else OpenNotExist (str "no such file or directory")) in
  exists t, LoadSystemTable fs (str "backup") = Ok t /\
            FilePath t = str "/etc/eventcron.d/backup" /\ Username t = [].
Proof.
  intros fs.
  exists (mkIncronTable [mkIncronEntry (str "/tmp") InCreate (str "echo a") defaultOptions 1]
            [] (str "/etc/eventcron.d/backup")).
  assert (LoadSystemTable fs (str "backup") =
          Ok (mkIncronTable
                [mkIncronEntry (str "/tmp") InCreate (str "echo a") defaultOptions 1]
                [] (str "/etc/eventcron.d/backup"))) as H
    by (vm_compute; reflexivity).
  split; [exact H|].
  apply (LoadSystemTable_owner fs (str "backup") _); [|exact H].
  repeat split; try discriminate. vm_compute. intuition discriminate.
Defined.
(** ** Loading all tables of a directory *)

Lemma IsEmpty_nil (t : IncronTable) : IsEmpty t = true <-> Entries t = [].
Proof. unfold IsEmpty. destruct (Entries t); split; easy. Qed.

Lemma loadAllLoop_tables (load : gostring -> result IncronTable)
    (warning : gostring -> gostring -> gostring) (entries : list (gostring * bool))
    (tables0 : gmap gostring IncronTable) (stderr0 : list gostring) :
  forall name t,
    fst (loadAllLoop load warning entries tables0 stderr0) !! name = Some t <->
    (In (name, false) entries /\ load name = Ok t /\ Entries t <> []) \/
    (tables0 !! name = Some t /\
     ~ (In (name, false) entries /\ exists t', load name = Ok t' /\ Entries t' <> [])).
Proof.
  revert tables0 stderr0. induction entries as [|[n d] entries IH]; intros tables0 stderr0 name t.
  - cbn [loadAllLoop fst]. split.
    + intros H. right. split; [exact H|]. now intros [[] _].
    + intros [[[] _]|[H _]]. exact H.
  - cbn [loadAllLoop]. destruct d.
    { rewrite IH. split.
      - intros [(Hin & Hl)|(H0 & Hn)].
        + left. split; [now right|exact Hl].
        + right. split; [exact H0|]. intros [[Heq|Hin] Hex]; [discriminate|]. apply Hn. easy.
      - intros [([Heq|Hin] & Hl)|(H0 & Hn)]; [discriminate| |].
        + left. easy.
        + right. split; [exact H0|]. intros [Hin Hex]. apply Hn. split; [now right|exact Hex]. }
    destruct (load n) as [table|e] eqn:El.
    + destruct (negb (IsEmpty table)) eqn:Ee.
      * apply negb_true_iff in Ee.
        assert (Entries table <> []) as Hne.
        { intros H. apply IsEmpty_nil in H. congruence. }
        rewrite IH. split.
        -- intros [(Hin & Hl)|(H0 & Hn)].
           ++ left. split; [now right|exact Hl].
           ++ destruct (decide (n = name)) as [->|Hneq].
              ** rewrite lookup_insert_eq in H0. injection H0 as <-.
                 left. split; [now left|]. easy.
              ** rewrite lookup_insert_ne in H0 by exact Hneq.
                 right. split; [exact H0|]. intros [[Heq|Hin] Hex].
                 --- injection Heq as ->. now destruct Hneq.
                 --- apply Hn. easy.
        -- intros [([Heq|Hin] & Hl & Ht)|(H0 & Hn)].
           ++ injection Heq as ->. assert (In (name, false) entries \/ ~ In (name, false) entries) as [Hin|Hnin].
              { destruct (decide ((name, false) ∈ entries)) as [Hd|Hd];
                  [left|right]; rewrite <- list_elem_of_In; exact Hd. }
              ** left. easy.
              ** right. split.
                 --- rewrite lookup_insert_eq. congruence.
                 --- now intros [Hin _].
           ++ left. easy.
           ++ destruct (decide (n = name)) as [->|Hneq].
              ** exfalso. apply Hn. split; [now left|]. now exists table.
              ** right. rewrite lookup_insert_ne by exact Hneq. split; [exact H0|].
                 intros [Hin Hex]. apply Hn. split; [now right|exact Hex].
      * apply negb_false_iff, IsEmpty_nil in Ee. rewrite IH. split.
        -- intros [(Hin & Hl)|(H0 & Hn)].
           ++ left. split; [now right|exact Hl].
           ++ right. split; [exact H0|]. intros [[Heq|Hin] (t' & Hl' & Hne')].
              ** injection Heq as ->. rewrite El in Hl'. injection Hl' as <-. easy.
              ** apply Hn. split; [exact Hin|]. now exists t'.
        -- intros [([Heq|Hin] & Hl & Ht)|(H0 & Hn)].
           ++ injection Heq as ->. rewrite El in Hl. injection Hl as <-. easy.
           ++ left. easy.
           ++ right. split; [exact H0|]. intros [Hin Hex]. apply Hn.
              split; [now right|exact Hex].
    + rewrite IH. split.
      * intros [(Hin & Hl)|(H0 & Hn)].
        -- left. split; [now right|exact Hl].
        -- right. split; [exact H0|]. intros [[Heq|Hin] (t' & Hl' & Hne')].
           ++ injection Heq as ->. rewrite El in Hl'. discriminate.
           ++ apply Hn. split; [exact Hin|]. now exists t'.
      * intros [([Heq|Hin] & Hl & Ht)|(H0 & Hn)].
        -- injection Heq as ->. rewrite El in Hl. discriminate.
        -- left. easy.
        -- right. split; [exact H0|]. intros [Hin Hex]. apply Hn.
           split; [now right|exact Hex].
Qed.

(** X13.  which tables the directory scans keep.  When [LoadAllUserTables]
    or [LoadAllSystemTables] succeeds, the map it returns holds, under the
    name of the file, exactly the tables of the non-directory entries of
    the directory that load without error and are not empty: a file with a
    line that does not parse is left out as a whole, and so is a file with
    no rule.  A directory that does not exist gives the empty map. *)
Theorem LoadAll_tables (fs : FileSystem) (osReadDir : gostring -> ReadDirResult) :
  (forall tables stderr name t,
     LoadAllUserTables fs osReadDir = (Ok tables, stderr) ->
     (tables !! name = Some t <->
      exists entries,
        osReadDir DefaultUserTableDir = ReadDirOk entries /\ In (name, false) entries /\
        LoadUserTable fs name = Ok t /\ Entries t <> [])) /\
  (forall tables stderr name t,
     LoadAllSystemTables fs osReadDir = (Ok tables, stderr) ->
     (tables !! name = Some t <->
      exists entries,
        osReadDir DefaultSystemTableDir = ReadDirOk entries /\ In (name, false) entries /\
        LoadSystemTable fs name = Ok t /\ Entries t <> [])).
Proof.
  split.
  - intros tables stderr name t. unfold LoadAllUserTables.
    destruct (osReadDir DefaultUserTableDir) as [err|err|entries].
    + intros H. injection H as <- <-. rewrite lookup_empty. split; [discriminate|].
      intros (entries & Hd & _). discriminate.
    + discriminate.
    + pose proof (loadAllLoop_tables (LoadUserTable fs)
                    (fun username e =>
                       str "Warning: failed to load user table for " ++ username ++
                       str ": " ++ e ++ [newline]) entries ∅ [] name t) as Hloop.
      destruct (loadAllLoop _ _ entries ∅ []) as [tables' stderr'].
      intros H. injection H as <- <-. cbn [fst] in Hloop. rewrite Hloop. split.
      * intros [H|[H _]]; [now exists entries|]. rewrite lookup_empty in H. discriminate.
      * intros (entries' & Hd & H). injection Hd as <-. now left.
  - intros tables stderr name t. unfold LoadAllSystemTables.
    destruct (osReadDir DefaultSystemTableDir) as [err|err|entries].
    + intros H. injection H as <- <-. rewrite lookup_empty. split; [discriminate|].
      intros (entries & Hd & _). discriminate.
    + discriminate.
    + pose proof (loadAllLoop_tables (LoadSystemTable fs)
                    (fun tableName e =>
                       str "Warning: failed to load system table " ++ tableName ++
                       str ": " ++ e ++ [newline]) entries ∅ [] name t) as Hloop.
      destruct (loadAllLoop _ _ entries ∅ []) as [tables' stderr'].
      intros H. injection H as <- <-. cbn [fst] in Hloop. rewrite Hloop. split.
      * intros [H|[H _]]; [now exists entries|]. rewrite lookup_empty in H. discriminate.
      * intros (entries' & Hd & H). injection Hd as <-. now left.
Qed.
(** ** Saving a table and loading it again *)

(** The line written for a parsed entry is trimmed already, and parses
    into the same entry. *)
Lemma String_reparsed (e : IncronEntry) (n' : Z) :
  parsed e ->
  strings.trailingSpace (String e) = None /\
  ParseEntry (String e) n' = Ok (Some (atLine n' e)).
Proof.
  intros (line & n & H). pose proof (ParseEntry_not_comment _ _ _ H) as Hc.
  apply ParseEntry_inv in H as (p0 & p1 & p2 & mask & opts & Ht & H0 & H1 & Hm & ->).
  destruct (TrimSpace_trimmed line) as [Hl Hr]. rewrite Ht in Hl, Hr, Hc.
  destruct (ParseEntry_parts _ _ _ _ Ht) as (Hp0 & Hp2 & _).
  pose proof (parseMask_range _ _ _ _ Hm) as Hrange.
  destruct (parseMask_rendered mask opts Hrange) as [Hsp Hpm].
  destruct (maskTokens_spec mask Hrange) as (Hne & _ & _).
  rewrite String_tokens by exact Hne. unfold atLine. cbn [Path Mask Command Options].
  set (field := strings.Join (maskTokens mask ++ optionStrings opts) [byteOf 44]) in *.
  clear Hm Hne Hrange Ht line.
  assert (strings.trailingSpace (p0 ++ space :: field ++ space :: p2) = None) as Htrail.
  { replace (p0 ++ space :: field ++ space :: p2)
      with ((p0 ++ space :: field) ++ space :: p2)
      by (now rewrite <- app_assoc).
    apply (trailingSpace_indep p2 (p0 ++ space :: p1)); [assumption|].
    now rewrite <- app_assoc. }
  split; [exact Htrail|].
  unfold ParseEntry.
  assert (strings.TrimSpace (p0 ++ space :: field ++ space :: p2)
          = p0 ++ space :: field ++ space :: p2) as ->.
  { apply TrimSpace_id; [|exact Htrail].
    apply (leadingSpace_indep p0 (p1 ++ space :: p2)); assumption. }
  assert (streq (p0 ++ space :: field ++ space :: p2) [] = false) as ->
    by (destruct p0; [contradiction|reflexivity]).
  assert (strings.HasPrefix (p0 ++ space :: field ++ space :: p2) (str "#") = false) as ->.
  { rewrite (HasPrefix_app_indep space _ (p1 ++ space :: p2)); [exact Hc|].
    left. destruct p0; [contradiction|]. simpl. lia. }
  cbn [orb]. change (str " ") with [space].
  rewrite SplitN3_app by assumption. now rewrite Hpm.
Qed.

Lemma dropCR_cases (data : list byte) :
  dropCR data = data \/ data = dropCR data ++ [byteOf 13].
Proof.
  unfold dropCR. destruct (rev data) as [|c r] eqn:E; [now left|].
  destruct (Ascii.eqb c (byteOf 13)) eqn:Ec; [|now left]. right.
  apply Ascii.eqb_eq in Ec. subst c.
  rewrite <- (rev_involutive data), E. reflexivity.
Qed.

Lemma dropCR_trimmed (data : list byte) :
  strings.trailingSpace data = None -> dropCR data = data.
Proof.
  intros H. destruct (dropCR_cases data) as [Hd|Hd]; [exact Hd|]. exfalso.
  assert (In [byteOf 13] strings.spaceEncodings) as Hin by (vm_compute; tauto).
  pose proof (trailingSpace_None _ _ H Hin) as Hf.
  assert (strings.HasSuffix data [byteOf 13] = true) as Ht; [|congruence].
  apply HasSuffix_iff. now exists (dropCR data).
Qed.

(** A line that starts with a hash sign is skipped, with or without its
    carriage return. *)
Lemma ParseEntry_comment (s : gostring) (n : Z) :
  ParseEntry ("#"%char :: s) n = Ok None.
Proof.
  unfold ParseEntry.
  assert (strings.TrimLeftSpace ("#"%char :: s) = "#"%char :: s) as Hleft.
  { unfold strings.TrimLeftSpace. cbn [length strings.trimLeftLoop].
    now rewrite leadingSpace_token by (vm_compute; reflexivity). }
  unfold strings.TrimSpace. rewrite Hleft. unfold strings.TrimRightSpace.
  destruct (trimRightLoop_spec (length ("#"%char :: s)) ("#"%char :: s) (le_n _))
    as [_ [suf Hsuf]].
  destruct (strings.trimRightLoop (length ("#"%char :: s)) ("#"%char :: s)) as [|c t];
    [reflexivity|].
  injection Hsuf as <- _. reflexivity.
Qed.

Lemma ParseEntry_comment_dropCR (c : byte) (s : gostring) (n : Z) :
  ParseEntry (dropCR ("#"%char :: c :: s)) n = Ok None.
Proof.
  destruct (dropCR_cases ("#"%char :: c :: s)) as [->|Hd]; [apply ParseEntry_comment|].
  destruct (dropCR ("#"%char :: c :: s)) as [|d t]; [discriminate|].
  injection Hd as <- _. apply ParseEntry_comment.
Qed.

Lemma scanLinesLoop_lines (ls : list gostring) (fuel : nat) :
  Forall (fun l => ~ In newline l /\ Z.of_nat (length l) < MaxScanTokenSize) ls ->
  (length (flat_map (fun l => l ++ [newline]) ls) <= fuel)%nat ->
  scanLinesLoop fuel (flat_map (fun l => l ++ [newline]) ls) = (map dropCR ls, None).
Proof.
  revert fuel. induction ls as [|l ls IH]; intros fuel Hall Hfuel.
  - destruct fuel; reflexivity.
  - inversion Hall as [|? ? [Hnl Hlen] Hrest]; subst.
    cbn [flat_map] in *. rewrite <- app_assoc in *. cbn [app] in *.
    rewrite length_app in Hfuel. cbn [length] in Hfuel.
    destruct fuel as [|fuel]; [lia|].
    cbn [scanLinesLoop].
    destruct (l ++ newline :: flat_map (fun l0 => l0 ++ [newline]) ls) eqn:E;
      [now destruct l|]. rewrite <- E. clear E.
    rewrite Cut_one_Some by exact Hnl.
    destruct (Z.leb_spec MaxScanTokenSize (Z.of_nat (length l))) as [Hbig|_]; [lia|].
    rewrite IH; [reflexivity|exact Hrest|lia].
Qed.

Lemma loadLines_rendered (filePath : gostring) (es : list IncronEntry) (k : Z)
    (acc : list IncronEntry) :
  Forall parsed es ->
  loadLines filePath (map String es) k acc =
  Ok (acc ++ imap (fun i e => atLine (k + Z.of_nat i + 1) e) es).
Proof.
  revert k acc. induction es as [|e es IH]; intros k acc Hall; cbn [map loadLines imap].
  - now rewrite app_nil_r.
  - inversion Hall as [|? ? He Hrest]; subst.
    destruct (String_reparsed e (k + 1) He) as [_ ->].
    rewrite IH by exact Hrest. rewrite <- app_assoc. cbn [app]. do 3 f_equal.
    + f_equal. lia.
    + apply imap_ext. intros i x _. cbn. f_equal. lia.
Qed.

Lemma SaveTable_content (disk : Disk) (table : IncronTable) (filePath : gostring)
    (data : list byte) :
  SaveTable disk table filePath = Ok data ->
  data = flat_map (fun l => l ++ [newline]) (headerLines table ++ map String (Entries table)).
Proof.
  unfold SaveTable.
  destruct (osMkdirAll disk (filepath_Dir filePath)); [discriminate|].
  destruct (osCreate disk filePath); [discriminate|]. unfold headerLines.
  generalize (str "# Eventcron table for user ") (str "# Format: <path> <mask> <command>")
             (str "# Generated by eventcron ") Version (Username table).
  intros a b c v u H.
  apply (f_equal (fun r => match r with Ok x => x | Err _ => [] end)) in H.
  cbv beta iota in H. rewrite <- H. clear H.
  rewrite flat_map_app. cbn [flat_map]. rewrite <- !app_assoc. cbn [app].
  assert (flat_map (fun l => l ++ [newline]) (map String (Entries table)) =
          flat_map (fun entry => String entry ++ [newline]) (Entries table)) as ->.
  { induction (Entries table) as [|e es IH]; [reflexivity|].
    cbn [flat_map map]. now rewrite IH. }
  reflexivity.
Qed.

(** X14.  a saved table loads back.  When [SaveTable] succeeds on a table
    whose entries came from the parser, and the file is then read back
    with the bytes it was given, [LoadTable] returns the same entries in
    the same order, each with its new line number (the entries start at
    line 5, after the header), provided the user name holds no line
    break and no written line reaches the scanner's limit of 64 KiB or
    holds a line break. *)
Theorem SaveTable_LoadTable (disk : Disk) (fs : FileSystem) (table : IncronTable)
    (filePath : gostring) (data : list byte) :
  SaveTable disk table filePath = Ok data ->
  osOpen fs filePath = fileOf data ->
  ~ In newline (Username table) ->
  Z.of_nat (length (Username table)) + 27 < MaxScanTokenSize ->
  Forall (fun e => parsed e /\ ~ In newline (String e) /\
                   Z.of_nat (length (String e)) < MaxScanTokenSize) (Entries table) ->
  exists t,
    LoadTable fs filePath = Ok t /\
    Entries t = imap (fun i e => atLine (Z.of_nat i + 5) e) (Entries table).
Proof.
  intros Hsave Hopen Huser Hulen Hall.
  assert (data = flat_map (fun l => l ++ [newline])
                   (headerLines table ++ map String (Entries table))) as ->.
    by (eapply SaveTable_content; exact Hsave).
  clear Hsave.
  assert (scanLines (flat_map (fun l => l ++ [newline])
                       (headerLines table ++ map String (Entries table))) =
          (map dropCR (headerLines table) ++ map String (Entries table), None)) as Hscan.
  { unfold scanLines. rewrite scanLinesLoop_lines; [|.. ].
    - rewrite map_app. do 2 f_equal. rewrite map_map. apply map_ext_in.
      intros e He. apply dropCR_trimmed.
      rewrite List.Forall_forall in Hall. destruct (Hall e He) as [Hp _].
      now destruct (String_reparsed e 0 Hp).
    - apply Forall_app. split.
      + unfold headerLines.
        constructor;
          [split|constructor; [split|constructor; [split|constructor; [split|constructor]]]].
        * intros Hin. apply in_app_or in Hin as [Hin|Hin]; [|now apply Huser].
          revert Hin. vm_compute. intuition discriminate.
        * rewrite length_app, Nat2Z.inj_add.
          change (length (str "# Eventcron table for user ")) with 27%nat. lia.
        * vm_compute. intuition discriminate.
        * reflexivity.
        * vm_compute. intuition discriminate.
        * reflexivity.
        * intros [].
        * reflexivity.
      + apply Forall_map. eapply Forall_impl; [exact Hall|]. intros e (_ & H1 & H2). easy.
    - apply le_n. }
  unfold LoadTable. rewrite Hopen. unfold fileOf. rewrite Hscan.
  assert (loadLines filePath (map dropCR (headerLines table) ++ map String (Entries table)) 0 []
          = Ok (imap (fun i e => atLine (Z.of_nat i + 5) e) (Entries table))) as ->.
  { unfold headerLines. cbn [map app loadLines].
    change (str "# Eventcron table for user " ++ Username table)
      with ("#"%char :: " "%char :: str "Eventcron table for user " ++ Username table).
    rewrite ParseEntry_comment_dropCR.
    change (dropCR (str "# Format: <path> <mask> <command>"))
      with (str "# Format: <path> <mask> <command>").
    change (dropCR (str "# Generated by eventcron " ++ Version))
      with (str "# Generated by eventcron 1.0.0").
    change (dropCR []) with (@nil byte).
    change (str "# Format: <path> <mask> <command>")
      with ("#"%char :: str " Format: <path> <mask> <command>").
    change (str "# Generated by eventcron 1.0.0")
      with ("#"%char :: str " Generated by eventcron 1.0.0").
    rewrite !ParseEntry_comment.
    change (ParseEntry [] (0 + 1 + 1 + 1 + 1)) with (@Ok (option IncronEntry) None).
    cbv iota. rewrite loadLines_rendered.
    - cbn [app]. f_equal. apply imap_ext. intros i x _. cbn. f_equal. lia.
    - eapply Forall_impl; [exact Hall|]. now intros e [H _]. }
  eexists. split; reflexivity.
Qed.

Lemma SaveTable_LoadTable_witness :
  let disk := mkDisk (fun _ => None) (fun _ => None) in
  let path := str "/var/spool/eventcron/alice" in
  let data := match SaveTable disk exampleTable path with Ok d => d | Err _ => [] end in
  let fs := mkFileSystem (fun _ => Ok (mkFileInfo false)) (fun _ => fileOf data) in
  exists t,
    LoadTable fs path = Ok t /\
    Entries t = imap (fun i e => atLine (Z.of_nat i + 5) e) (Entries exampleTable).
Proof.
  intros disk path data fs.
  apply (SaveTable_LoadTable disk fs exampleTable path data).
  - vm_compute. reflexivity.
  - reflexivity.
  - vm_compute. intuition discriminate.
  - vm_compute. reflexivity.
  - constructor; [|constructor; [|constructor]].
    + split; [|split].
      * exists (str "/tmp IN_CREATE echo $#"), 1. vm_compute. reflexivity.
      * vm_compute. intuition discriminate.
      * vm_compute. reflexivity.
    + split; [|split].
      * exists (str "/var/log IN_CREATE,IN_DELETE,loopable=true,dotdirs=true logger changed"), 7.
        vm_compute. reflexivity.
      * vm_compute. intuition discriminate.
      * vm_compute. reflexivity.
Defined.

(** The scanner on a small file: line ends of both kinds, an empty line,
    and a last line without its line end. *)
Example scanLines_example :
  scanLines (str "a" ++ [byteOf 13; newline] ++ str "b" ++ [newline; newline] ++ str "c") =
  ([str "a"; str "b"; []; str "c"], None).
Proof. vm_compute. reflexivity. Qed.
(** ** The indices of the watch engine *)

Lemma setWatch_faithful (k : Inotify) (w : Watcher) (p : gostring) (m wd : Z)
    (info : WatchInfo) :
  kernelFaithful k w -> consistent w ->
  InotifyAddWatch k p m = Ok wd -> WiPath info = p ->
  kernelFaithful k (setWatch w wd info) /\ consistent (setWatch w wd info) /\
  forall q wd', pathWatches w !! q = Some wd' ->
                pathWatches (setWatch w wd info) !! q = Some wd'.
Proof.
  intros (Hfun & Hinj & Hagree) Hcons Hadd Hpath. unfold setWatch. rewrite Hpath.
  split; [|split].
  - split; [exact Hfun|]. split; [exact Hinj|]. cbn [pathWatches].
    intros p2 m2 wd2 q wd' Hadd2 Hq. destruct (decide (p = q)) as [->|Hne].
    + rewrite lookup_insert_eq in Hq. injection Hq as <-. split.
      * intros ->. exact (Hinj _ _ _ _ _ Hadd2 Hadd).
      * intros ->. exact (Hfun _ _ _ _ _ Hadd2 Hadd).
    + rewrite lookup_insert_ne in Hq by exact Hne. exact (Hagree _ _ _ _ _ Hadd2 Hq).
  - intros q wd'. cbn [pathWatches watches]. destruct (decide (p = q)) as [->|Hne].
    + rewrite lookup_insert_eq. split.
      * intros H. injection H as <-. exists info. now rewrite lookup_insert_eq.
      * intros (info' & Hw & Hp'). destruct (decide (wd = wd')) as [->|Hwd]; [reflexivity|].
        rewrite lookup_insert_ne in Hw by exact Hwd.
        assert (pathWatches w !! q = Some wd') as Hq by (apply Hcons; now exists info').
        destruct (Hagree _ _ _ _ _ Hadd Hq) as [_ H]. now rewrite (H eq_refl).
    + rewrite lookup_insert_ne by exact Hne. split.
      * intros Hq. destruct (proj1 (Hcons q wd') Hq) as (info' & Hw & Hp').
        exists info'. split; [|exact Hp'].
        rewrite lookup_insert_ne; [exact Hw|].
        intros ->. destruct (Hagree _ _ _ _ _ Hadd Hq) as [H _]. now apply Hne, H.
      * intros (info' & Hw & Hp'). destruct (decide (wd = wd')) as [->|Hwd].
        -- rewrite lookup_insert_eq in Hw. injection Hw as <-. congruence.
        -- rewrite lookup_insert_ne in Hw by exact Hwd. apply Hcons. now exists info'.
  - intros q wd' Hq. cbn [pathWatches]. destruct (decide (p = q)) as [->|Hne].
    + rewrite lookup_insert_eq. f_equal.
      destruct (Hagree _ _ _ _ _ Hadd Hq) as [_ H]. now apply H.
    + now rewrite lookup_insert_ne.
Qed.

Lemma removeWatch_consistent (sys : System) (w : Watcher) (wd : Z) :
  consistent w -> consistent (fst (removeWatch sys w wd)).
Proof.
  intros Hcons. unfold removeWatch. destruct (watches w !! wd) as [info|] eqn:Hw; [|exact Hcons].
  destruct (InotifyRmWatch (sysInotify sys) wd); [exact Hcons|]. cbn [fst].
  assert (pathWatches w !! WiPath info = Some wd) as Hp by (apply Hcons; now exists info).
  intros q wd'. cbn [pathWatches watches]. split.
  - intros Hq. destruct (decide (WiPath info = q)) as [<-|Hne].
    { now rewrite lookup_delete_eq in Hq. }
    rewrite lookup_delete_ne in Hq by exact Hne.
    destruct (proj1 (Hcons q wd') Hq) as (info' & Hw' & Hp').
    exists info'. split; [|exact Hp']. rewrite lookup_delete_ne; [exact Hw'|].
    intros <-. rewrite Hw in Hw'. injection Hw' as <-. now apply Hne.
  - intros (info' & Hw' & Hp'). destruct (decide (wd = wd')) as [<-|Hwd].
    { now rewrite lookup_delete_eq in Hw'. }
    rewrite lookup_delete_ne in Hw' by exact Hwd.
    assert (pathWatches w !! q = Some wd') as Hq by (apply Hcons; now exists info').
    rewrite lookup_delete_ne; [exact Hq|].
    intros <-. rewrite Hp in Hq. injection Hq as <-. now apply Hwd.
Qed.

Lemma removeWatch_faithful (k : Inotify) (sys : System) (w : Watcher) (wd : Z) :
  kernelFaithful k w -> kernelFaithful k (fst (removeWatch sys w wd)).
Proof.
  intros (Hfun & Hinj & Hagree). unfold removeWatch.
  destruct (watches w !! wd) as [info|]; [|easy].
  destruct (InotifyRmWatch (sysInotify sys) wd); [easy|]. cbn [fst].
  split; [exact Hfun|]. split; [exact Hinj|]. cbn [pathWatches].
  intros p m wd1 q wd' Hadd Hq. destruct (decide (WiPath info = q)) as [<-|Hne].
  { now rewrite lookup_delete_eq in Hq. }
  rewrite lookup_delete_ne in Hq by exact Hne. exact (Hagree _ _ _ _ _ Hadd Hq).
Qed.

(** The invariant the engine keeps while it adds watches, relative to the
    paths indexed at the start. *)
Lemma walkFn_faithful (sys : System) (w0 : Watcher) (rootPath : gostring) (mask : Z)
    (dd : bool) (w : Watcher) (p : gostring) (d : bool) (e : option gostring) :
  (kernelFaithful (sysInotify sys) w /\ consistent w /\
   forall q wd', pathWatches w0 !! q = Some wd' -> pathWatches w !! q = Some wd') ->
  let w' := fst (walkFn sys rootPath mask dd w p d e) in
  kernelFaithful (sysInotify sys) w' /\ consistent w' /\
  forall q wd', pathWatches w0 !! q = Some wd' -> pathWatches w' !! q = Some wd'.
Proof.
  intros (Hk & Hc & Hkeep). cbv zeta. unfold walkFn. destruct e; [easy|].
  destruct d; [|easy]. cbn [negb]. destruct (streq p rootPath); [easy|].
  destruct (negb dd && _); [easy|]. unfold addSingleWatch.
  destruct (InotifyAddWatch (sysInotify sys) p mask) as [wd|err] eqn:Hadd; cbn [fst].
  - destruct (setWatch_faithful _ w p mask wd (mkWatchInfo p mask None true dd) Hk Hc Hadd
                eq_refl) as (H1 & H2 & H3).
    split; [exact H1|]. split; [exact H2|]. intros q wd' Hq. apply H3, Hkeep, Hq.
  - easy.
Qed.
Lemma exampleKernel_faithful : kernelFaithful exampleKernel emptyWatcher.
Proof.
  assert (forall p m wd,
            InotifyAddWatch exampleKernel p m = Ok wd ->
            p = str "/a" /\ wd = 1 \/ p = str "/a/b" /\ wd = 2) as Hk.
  { intros p m wd. cbn [exampleKernel InotifyAddWatch].
    destruct (streq p (str "/a")) eqn:E1.
    - apply streq_eq in E1. intros H. injection H as <-. now left.
    - destruct (streq p (str "/a/b")) eqn:E2; [|discriminate].
      apply streq_eq in E2. intros H. injection H as <-. now right. }
  split; [|split].
  - intros p m m' wd wd' H1 H2.
    destruct (Hk _ _ _ H1) as [[-> ->]|[-> ->]], (Hk _ _ _ H2) as [[E ->]|[E ->]];
      try reflexivity; discriminate E.
  - intros p p' m m' wd H1 H2.
    destruct (Hk _ _ _ H1) as [[-> ->]|[-> ->]], (Hk _ _ _ H2) as [[-> E]|[-> E]];
      try reflexivity; discriminate E.
  - intros p m wd q wd' _ Hq. cbn in Hq. now rewrite lookup_empty in Hq.
Qed.

Lemma consistent_empty : consistent emptyWatcher.
Proof.
  intros p wd. cbn. rewrite lookup_empty. split; [discriminate|].
  intros (info & H & _). now rewrite lookup_empty in H.
Qed.

Lemma watchingTree_consistent : consistent watchingTree.
Proof.
  intros p wd. unfold watchingTree. cbn [pathWatches watches]. split.
  - intros H. apply lookup_singleton_Some in H as [<- <-].
    eexists. split; [apply lookup_singleton_eq|reflexivity].
  - intros (info & H & Hp). apply lookup_singleton_Some in H as [<- <-].
    cbn in Hp. subst p. apply lookup_singleton_eq.
Qed.

Lemma addRecursiveWatches_faithful (sys : System) (w0 w : Watcher) (rootPath : gostring)
    (mask : Z) (dd : bool) :
  (kernelFaithful (sysInotify sys) w /\ consistent w /\
   forall q wd', pathWatches w0 !! q = Some wd' -> pathWatches w !! q = Some wd') ->
  let w' := fst (addRecursiveWatches sys w rootPath mask dd) in
  kernelFaithful (sysInotify sys) w' /\ consistent w' /\
  forall q wd', pathWatches w0 !! q = Some wd' -> pathWatches w' !! q = Some wd'.
Proof.
  intros H. cbv zeta. unfold addRecursiveWatches.
  apply (Walk_preserves sys
           (fun w => kernelFaithful (sysInotify sys) w /\ consistent w /\
                     forall q wd', pathWatches w0 !! q = Some wd' ->
                                   pathWatches w !! q = Some wd')); [|exact H].
  intros w1 p d e H1. now apply walkFn_faithful.
Qed.

Lemma AddWatch_faithful (sys : System) (w : Watcher) (entry : IncronEntry) :
  kernelFaithful (sysInotify sys) w -> consistent w ->
  let w' := fst (AddWatch sys w entry) in
  kernelFaithful (sysInotify sys) w' /\ consistent w' /\
  forall q wd', pathWatches w !! q = Some wd' -> pathWatches w' !! q = Some wd'.
Proof.
  intros Hk Hc. cbv zeta. unfold AddWatch.
  destruct (pathWatches w !! Path entry) as [wd0|] eqn:Hfree; [easy|].
  destruct (osStat (sysFS sys) (Path entry)) as [info|]; [|easy].
  unfold addSingleWatch.
  destruct (InotifyAddWatch (sysInotify sys) (Path entry) (Mask entry)) as [wd|] eqn:Hadd;
    [|easy].
  set (rootInfo := mkWatchInfo (Path entry) (Mask entry) (Some entry)
                     (Recursive (Options entry)) (DotDirs (Options entry))).
  destruct (setWatch_faithful _ w (Path entry) (Mask entry) wd rootInfo Hk Hc Hadd eq_refl)
    as (H1 & H2 & H3).
  destruct (IsDir info && Recursive (Options entry)); [|easy].
  pose proof (addRecursiveWatches_faithful sys w (setWatch w wd rootInfo) (Path entry)
                (Mask entry) (DotDirs (Options entry)) (conj H1 (conj H2 H3))) as Hwalk.
  cbv zeta in Hwalk.
  destruct (addRecursiveWatches sys (setWatch w wd rootInfo) (Path entry) (Mask entry)
              (DotDirs (Options entry))) as [w2 [e|]]; cbn [fst] in *; [|exact Hwalk].
  destruct Hwalk as (Hk2 & Hc2 & Hkeep2).
  split; [now apply removeWatch_faithful|]. split; [now apply removeWatch_consistent|].
  intros q wd' Hq. pose proof (Hkeep2 q wd' Hq) as Hq2.
  unfold removeWatch. destruct (watches w2 !! wd) as [info2|] eqn:Hw2; [|exact Hq2].
  destruct (InotifyRmWatch (sysInotify sys) wd); [exact Hq2|]. cbn [fst pathWatches].
  rewrite lookup_delete_ne; [exact Hq2|].
  intros Heq. subst q.
  assert (pathWatches w2 !! WiPath info2 = Some wd) as Hp2 by (apply Hc2; now exists info2).
  rewrite Hp2 in Hq2. injection Hq2 as <-.
  destruct Hk2 as (_ & _ & Hagree2).
  destruct (Hagree2 _ _ _ _ _ Hadd Hp2) as [Hsame _]. specialize (Hsame eq_refl).
  rewrite <- Hsame in Hq. congruence.
Qed.

(** X15.  registering a rule keeps the two indices in step.  When the kernel
    numbers the watches by path and the indices agree, they still agree
    after [AddWatch], whether it succeeds or fails, and the kernel
    condition still holds of the new state; and no path indexed before is
    dropped or moved to another descriptor. *)
Theorem AddWatch_consistent (sys : System) (w : Watcher) (entry : IncronEntry) :
  kernelFaithful (sysInotify sys) w -> consistent w ->
  kernelFaithful (sysInotify sys) (fst (AddWatch sys w entry)) /\
  consistent (fst (AddWatch sys w entry)) /\
  forall q wd, pathWatches w !! q = Some wd ->
               pathWatches (fst (AddWatch sys w entry)) !! q = Some wd.
Proof. intros Hk Hc. exact (AddWatch_faithful sys w entry Hk Hc). Qed.

Lemma AddWatch_consistent_witness :
  let entry := mkIncronEntry (str "/a") InCreate (str "echo") defaultOptions 1 in
  snd (AddWatch exampleSystem emptyWatcher entry) = None /\
  consistent (fst (AddWatch exampleSystem emptyWatcher entry)).
Proof.
  intros entry. split; [vm_compute; reflexivity|].
  apply (AddWatch_consistent exampleSystem emptyWatcher entry).
  - exact exampleKernel_faithful.
  - exact consistent_empty.
Defined.
Lemma size_indices (m1 : gmap Z WatchInfo) :
  forall m2 : gmap gostring Z,
    (forall p wd, m2 !! p = Some wd <-> exists info, m1 !! wd = Some info /\ WiPath info = p) ->
    size m1 = size m2.
Proof.
  induction m1 as [|wd info m Hwd IH] using map_ind; intros m2 H.
  - rewrite map_size_empty. symmetry. apply map_size_empty_iff, map_empty. intros p.
    destruct (m2 !! p) as [wd|] eqn:Hp; [|reflexivity].
    apply H in Hp as (info & Hi & _). now rewrite lookup_empty in Hi.
  - rewrite map_size_insert_None by exact Hwd.
    assert (m2 !! WiPath info = Some wd) as Hp.
    { apply H. exists info. now rewrite lookup_insert_eq. }
    rewrite <- (insert_delete_id m2 _ _ Hp).
    rewrite map_size_insert_None by apply lookup_delete_eq. f_equal.
    apply IH. intros q wd'. split.
    + intros Hq. destruct (decide (WiPath info = q)) as [<-|Hne].
      { now rewrite lookup_delete_eq in Hq. }
      rewrite lookup_delete_ne in Hq by exact Hne.
      apply H in Hq as (info' & Hi & Hq'). exists info'. split; [|exact Hq'].
      destruct (decide (wd = wd')) as [<-|Hw].
      * rewrite lookup_insert_eq in Hi. injection Hi as <-. now destruct Hne.
      * now rewrite lookup_insert_ne in Hi.
    + intros (info' & Hi & Hq'). destruct (decide (wd = wd')) as [<-|Hw]; [congruence|].
      assert (m2 !! q = Some wd') as Hq.
      { apply H. exists info'. now rewrite lookup_insert_ne. }
      rewrite lookup_delete_ne; [exact Hq|]. intros <-. congruence.
Qed.

(** X16.  the number of watches is the number of watched paths.  While the
    two indices agree, [GetWatchCount] (the size of the descriptor index)
    is the length of the list [GetWatchedPaths] returns (the keys of the
    path index). *)
Theorem GetWatchCount_paths (w : Watcher) :
  consistent w -> GetWatchCount w = Z.of_nat (length (GetWatchedPaths w)).
Proof.
  intros Hc. unfold GetWatchCount, GetWatchedPaths.
  rewrite length_map, length_map_to_list. f_equal. now apply size_indices.
Qed.

Lemma GetWatchCount_paths_witness :
  GetWatchCount watchingTree = Z.of_nat (length (GetWatchedPaths watchingTree)).
Proof.
  apply GetWatchCount_paths. exact watchingTree_consistent.
Defined.

(** X17.  removing a watch by path.  While the indices agree, a successful
    [RemoveWatch] takes the path out of the path index and its descriptor
    out of the descriptor index, leaves every other path as it was, and
    the indices agree afterwards; the watch count goes down by one. *)
Theorem RemoveWatch_removes (sys : System) (w w' : Watcher) (path : gostring) :
  consistent w -> RemoveWatch sys w path = (w', None) ->
  consistent w' /\
  pathWatches w' !! path = None /\
  (forall wd, pathWatches w !! path = Some wd -> watches w' !! wd = None) /\
  (forall q, q <> path -> pathWatches w' !! q = pathWatches w !! q) /\
  GetWatchCount w' = GetWatchCount w - 1.
Proof.
  intros Hc H. unfold RemoveWatch in H.
  destruct (pathWatches w !! path) as [wd|] eqn:Hp; [|discriminate].
  pose proof (removeWatch_consistent sys w wd Hc) as Hc'. rewrite H in Hc'. cbn [fst] in Hc'.
  split; [exact Hc'|].
  destruct (proj1 (Hc path wd) Hp) as (info & Hw & Hpath).
  unfold removeWatch in H. rewrite Hw in H.
  destruct (InotifyRmWatch (sysInotify sys) wd); [discriminate|].
  injection H as <-. cbn [pathWatches watches]. rewrite Hpath.
  split; [apply lookup_delete_eq|]. split; [|split].
  - intros wd0 Hwd0. injection Hwd0 as <-. apply lookup_delete_eq.
  - intros q Hq. now rewrite lookup_delete_ne.
  - unfold GetWatchCount. cbn [watches]. rewrite map_size_delete_Some by (now exists info).
    assert (size (watches w) <> 0%nat) as Hne.
    { apply map_size_ne_0_lookup. exists wd. now exists info. }
    lia.
Qed.

Lemma RemoveWatch_removes_witness :
  let w := watchingOne (str "/tmp") in
  exists w', RemoveWatch exampleSystem w (str "/tmp") = (w', None) /\
             pathWatches w' !! str "/tmp" = None /\ GetWatchCount w' = GetWatchCount w - 1.
Proof.
  intros w. eexists. split; [reflexivity|].
  assert (consistent w) as Hc.
  { intros p wd. unfold w, watchingOne. cbn [pathWatches watches]. split.
    - intros H. apply lookup_singleton_Some in H as [<- <-].
      eexists. split; [apply lookup_singleton_eq|reflexivity].
    - intros (info & H & Hp). apply lookup_singleton_Some in H as [<- <-].
      cbn in Hp. subst p. apply lookup_singleton_eq. }
  destruct (RemoveWatch_removes exampleSystem w _ (str "/tmp") Hc eq_refl)
    as (_ & H1 & _ & _ & H2).
  split; [exact H1|exact H2].
Defined.

Lemma handleDirCreate_faithful (sys : System) (w : Watcher) (wd : Z) (name : gostring) :
  kernelFaithful (sysInotify sys) w -> consistent w ->
  kernelFaithful (sysInotify sys) (handleDirCreate sys w wd name) /\
  consistent (handleDirCreate sys w wd name).
Proof.
  intros Hk Hc. unfold handleDirCreate. destruct (watches w !! wd) as [info|]; [|easy].
  destruct (negb (WiRecursive info)); [easy|].
  destruct (negb (WiDotDirs info) && _); [easy|].
  destruct (osStat (sysFS sys) _) as [fi|]; [|easy].
  destruct (negb (IsDir fi)); [easy|]. unfold addSingleWatch.
  destruct (InotifyAddWatch (sysInotify sys) _ (WiMask info)) as [newWd|] eqn:Hadd; [|easy].
  destruct (setWatch_faithful _ w _ _ newWd
              (mkWatchInfo (filepath.Join [WiPath info; name]) (WiMask info) None true
                           (WiDotDirs info)) Hk Hc Hadd eq_refl) as (H1 & H2 & _).
  easy.
Qed.

Lemma parseEventsLoop_faithful (sys : System) (fuel : nat) (w : Watcher) (buffer : list byte) :
  kernelFaithful (sysInotify sys) w -> consistent w ->
  kernelFaithful (sysInotify sys) (parseEventsLoop fuel sys w buffer) /\
  consistent (parseEventsLoop fuel sys w buffer).
Proof.
  revert w buffer. induction fuel as [|fuel IH]; intros w buffer Hk Hc; [easy|].
  cbn [parseEventsLoop]. destruct buffer as [|b0 buffer]; [easy|].
  destruct (length (b0 :: buffer) <? 16)%nat; [easy|].
  assert (forall name rest,
            let w1 := match createEvent w (int32 (le32 (b0 :: buffer)))
                              (le32 (skipn 4 (b0 :: buffer)))
                              (le32 (skipn 8 (b0 :: buffer))) name with
                      | Some event => sendEvent w event
                      | None => w
                      end in
            let w2 := if negb (Z.land (le32 (skipn 4 (b0 :: buffer))) InCreate =? 0) &&
                         negb (Z.land (le32 (skipn 4 (b0 :: buffer))) InIsdir =? 0)
                      then handleDirCreate sys w1 (int32 (le32 (b0 :: buffer))) name
                      else w1 in
            kernelFaithful (sysInotify sys) (parseEventsLoop fuel sys w2 rest) /\
            consistent (parseEventsLoop fuel sys w2 rest)) as Hstep.
  { intros name rest. cbv zeta.
    assert (kernelFaithful (sysInotify sys)
              (match createEvent w (int32 (le32 (b0 :: buffer)))
                       (le32 (skipn 4 (b0 :: buffer)))
                       (le32 (skipn 8 (b0 :: buffer))) name with
               | Some event => sendEvent w event
               | None => w
               end) /\
            consistent
              (match createEvent w (int32 (le32 (b0 :: buffer)))
                       (le32 (skipn 4 (b0 :: buffer)))
                       (le32 (skipn 8 (b0 :: buffer))) name with
               | Some event => sendEvent w event
               | None => w
               end)) as [Hk1 Hc1].
    { destruct (createEvent w _ _ _ name) as [event|]; [|easy].
      unfold sendEvent. destruct (length (events w) <? eventsCap)%nat; easy. }
    destruct (negb _ && negb _).
    - destruct (handleDirCreate_faithful sys _ (int32 (le32 (b0 :: buffer))) name Hk1 Hc1).
      now apply IH.
    - now apply IH. }
  destruct (0 <? le32 (skipn 12 (b0 :: buffer))).
  - destruct (Z.of_nat (length (skipn 16 (b0 :: buffer))) <? _); [easy|]. apply Hstep.
  - apply Hstep.
Qed.

(** X18.  decoding events keeps the two indices in step.  When the kernel
    numbers the watches by path and the indices agree, they still agree
    after [parseEvents], whatever the buffer holds, watches added for
    newly created directories included. *)
Theorem parseEvents_consistent (sys : System) (w : Watcher) (buffer : list byte) :
  kernelFaithful (sysInotify sys) w -> consistent w ->
  kernelFaithful (sysInotify sys) (parseEvents sys w buffer) /\
  consistent (parseEvents sys w buffer).
Proof. intros Hk Hc. now apply parseEventsLoop_faithful. Qed.

Lemma watchingTree_faithful : kernelFaithful exampleKernel watchingTree.
Proof.
  destruct exampleKernel_faithful as (Hfun & Hinj & _).
  split; [exact Hfun|]. split; [exact Hinj|].
  intros p m wd q wd' Hadd Hq. unfold watchingTree in Hq. cbn [pathWatches] in Hq.
  apply lookup_singleton_Some in Hq as [<- <-].
  assert (InotifyAddWatch exampleKernel (str "/a") 0 = Ok 1) as Ha by reflexivity.
  split.
  - intros ->. exact (Hinj _ _ _ _ _ Hadd Ha).
  - intros ->. exact (Hfun _ _ _ _ _ Hadd Ha).
Qed.

Lemma parseEvents_consistent_witness :
  let w' := parseEvents exampleSystem watchingTree
              (inotifyRecord 1 (Z.lor InCreate InIsdir) 0 (str "b" ++ [zero])) in
  pathWatches w' !! str "/a/b" = Some 2 /\ consistent w'.
Proof.
  intros w'. split; [vm_compute; reflexivity|].
  apply (parseEvents_consistent exampleSystem watchingTree).
  - exact watchingTree_faithful.
  - exact watchingTree_consistent.
Defined.

(** ** The event queue *)

Lemma sendEvent_queue (w : Watcher) (event : InotifyEvent) :
  (exists new, events (sendEvent w event) = events w ++ new) /\
  (length (events (sendEvent w event)) <= Nat.max (length (events w)) eventsCap)%nat /\
  errors (sendEvent w event) = errors w.
Proof.
  unfold sendEvent. destruct (Nat.ltb_spec (length (events w)) eventsCap) as [Hroom|Hfull];
    cbn [events errors warn].
  - split; [now exists [event]|]. split; [|reflexivity].
    rewrite length_app. cbn [length]. lia.
  - split; [exists []; now rewrite app_nil_r|]. split; [lia|reflexivity].
Qed.

Lemma handleDirCreate_queue (sys : System) (w : Watcher) (wd : Z) (name : gostring) :
  events (handleDirCreate sys w wd name) = events w /\
  errors (handleDirCreate sys w wd name) = errors w.
Proof.
  unfold handleDirCreate. destruct (watches w !! wd) as [info|]; [|easy].
  destruct (negb (WiRecursive info)); [easy|].
  destruct (negb (WiDotDirs info) && _); [easy|].
  destruct (osStat (sysFS sys) _) as [fi|]; [|easy].
  destruct (negb (IsDir fi)); [easy|].
  destruct (addSingleWatch sys _ (WiMask info)); easy.
Qed.

Lemma parseEventsLoop_queue (sys : System) (fuel : nat) (w : Watcher) (buffer : list byte) :
  (exists new, events (parseEventsLoop fuel sys w buffer) = events w ++ new) /\
  (length (events (parseEventsLoop fuel sys w buffer))
   <= Nat.max (length (events w)) eventsCap)%nat /\
  errors (parseEventsLoop fuel sys w buffer) = errors w.
Proof.
  revert w buffer. induction fuel as [|fuel IH]; intros w buffer.
  { cbn. split; [exists []; now rewrite app_nil_r|]. split; [lia|reflexivity]. }
  assert ((exists new, events w = events w ++ new) /\
          (length (events w) <= Nat.max (length (events w)) eventsCap)%nat /\
          errors w = errors w) as Hsame.
  { split; [exists []; now rewrite app_nil_r|]. split; [lia|reflexivity]. }
  cbn [parseEventsLoop]. destruct buffer as [|b0 buffer]; [exact Hsame|].
  destruct (length (b0 :: buffer) <? 16)%nat; [exact Hsame|].
  assert (forall name rest,
            let w1 := match createEvent w (int32 (le32 (b0 :: buffer)))
                              (le32 (skipn 4 (b0 :: buffer)))
                              (le32 (skipn 8 (b0 :: buffer))) name with
                      | Some event => sendEvent w event
                      | None => w
                      end in
            let w2 := if negb (Z.land (le32 (skipn 4 (b0 :: buffer))) InCreate =? 0) &&
                         negb (Z.land (le32 (skipn 4 (b0 :: buffer))) InIsdir =? 0)
                      then handleDirCreate sys w1 (int32 (le32 (b0 :: buffer))) name
                      else w1 in
            (exists new, events (parseEventsLoop fuel sys w2 rest) = events w ++ new) /\
            (length (events (parseEventsLoop fuel sys w2 rest))
             <= Nat.max (length (events w)) eventsCap)%nat /\
            errors (parseEventsLoop fuel sys w2 rest) = errors w) as Hstep.
  { intros name rest. cbv zeta.
    set (w1 := match createEvent w _ _ _ name with
               | Some event => sendEvent w event
               | None => w
               end).
    assert ((exists new, events w1 = events w ++ new) /\
            (length (events w1) <= Nat.max (length (events w)) eventsCap)%nat /\
            errors w1 = errors w) as (Ha1 & Hl1 & He1).
    { unfold w1. destruct (createEvent w _ _ _ name) as [event|]; [|exact Hsame].
      apply sendEvent_queue. }
    set (w2 := if negb _ && negb _ then handleDirCreate sys w1 _ name else w1).
    assert (events w2 = events w1 /\ errors w2 = errors w1) as [Ha2 He2].
    { unfold w2. destruct (negb _ && negb _); [apply handleDirCreate_queue|easy]. }
    destruct (IH w2 rest) as ((new2 & Ha) & Hl & He).
    destruct Ha1 as [new1 Ha1]. split; [|split].
    - exists (new1 ++ new2). rewrite Ha, Ha2, Ha1. now rewrite app_assoc.
    - rewrite Ha2 in Hl. lia.
    - congruence. }
  destruct (0 <? le32 (skipn 12 (b0 :: buffer))).
  - destruct (Z.of_nat (length (skipn 16 (b0 :: buffer))) <? _); [exact Hsame|]. apply Hstep.
  - apply Hstep.
Qed.

(** X19.  the event queue only grows at its end, and not beyond its
    capacity.  [parseEvents] appends the events it decodes to those
    already waiting, in the order of the buffer, and never removes or
    reorders one; an event that finds the channel full (100 events) is
    dropped, so the queue never grows past the capacity; nothing is
    written to the error channel. *)
Theorem parseEvents_queue (sys : System) (w : Watcher) (buffer : list byte) :
  (exists new, events (parseEvents sys w buffer) = events w ++ new) /\
  (length (events (parseEvents sys w buffer)) <= Nat.max (length (events w)) eventsCap)%nat /\
  errors (parseEvents sys w buffer) = errors w.
Proof. apply parseEventsLoop_queue. Qed.
(** ** What the recursive setup adds *)

Lemma walkFn_new_watches (sys : System) (w0 : Watcher) (rootPath : gostring) (mask : Z)
    (dd : bool) (P : WatchInfo -> Prop) (w : Watcher) (p : gostring) (d : bool)
    (e : option gostring) :
  (forall path,
     path <> rootPath ->
     (dd = false -> strings.HasPrefix (filepath.Base path) (str ".") = false) ->
     P (mkWatchInfo path mask None true dd)) ->
  (forall wd info, watches w !! wd = Some info -> watches w0 !! wd = Some info \/ P info) ->
  forall wd info,
    watches (fst (walkFn sys rootPath mask dd w p d e)) !! wd = Some info ->
    watches w0 !! wd = Some info \/ P info.
Proof.
  intros HP Hw. unfold walkFn. destruct e; [exact Hw|]. destruct d; [|exact Hw]. cbn [negb].
  destruct (streq p rootPath) eqn:Ep; [exact Hw|]. apply streq_neq in Ep.
  destruct (negb dd && strings.HasPrefix (filepath.Base p) (str ".")) eqn:Edot; [exact Hw|].
  destruct (addSingleWatch sys p mask) as [wd0|err]; [|exact Hw].
  cbn [fst setWatch watches]. intros wd info Hl.
  destruct (decide (wd0 = wd)) as [->|Hne].
  - rewrite lookup_insert_eq in Hl. injection Hl as <-. right. apply HP; [exact Ep|].
    intros ->. exact Edot.
  - rewrite lookup_insert_ne in Hl by exact Hne. now apply Hw.
Qed.

(** X20.  the watches of the sub-directories.  Every watch in the descriptor
    index after [addRecursiveWatches] was there before, or is a watch the
    walk added: it carries the rule's mask and [dotdirs] setting, no
    entry, [Recursive] set, and a path other than the root; and when
    [dotdirs] is off, its path does not end in a name that starts with a
    dot. *)
Theorem addRecursiveWatches_adds (sys : System) (w : Watcher) (rootPath : gostring)
    (mask : Z) (includeDotDirs : bool) (wd : Z) (info : WatchInfo) :
  watches (fst (addRecursiveWatches sys w rootPath mask includeDotDirs)) !! wd = Some info ->
  watches w !! wd = Some info \/
  (WiMask info = mask /\ WiEntry info = None /\ WiRecursive info = true /\
   WiDotDirs info = includeDotDirs /\ WiPath info <> rootPath /\
   (includeDotDirs = false ->
    strings.HasPrefix (filepath.Base (WiPath info)) (str ".") = false)).
Proof.
  revert wd info. unfold addRecursiveWatches.
  apply (Walk_preserves sys
           (fun w' => forall wd info, watches w' !! wd = Some info ->
              watches w !! wd = Some info \/
              (WiMask info = mask /\ WiEntry info = None /\ WiRecursive info = true /\
               WiDotDirs info = includeDotDirs /\ WiPath info <> rootPath /\
               (includeDotDirs = false ->
                strings.HasPrefix (filepath.Base (WiPath info)) (str ".") = false)))).
  - intros w1 p d e Hw1. apply walkFn_new_watches; [|exact Hw1].
    intros path Hroot Hdot. cbn. repeat split; assumption.
  - intros wd info H. now left.
Qed.

Lemma addRecursiveWatches_adds_witness :
  let w' := fst (addRecursiveWatches exampleSystem watchingTree (str "/a") InCreate false) in
  watches w' !! 2 = Some (mkWatchInfo (str "/a/b") InCreate None true false) /\
  (watches watchingTree !! 2 = Some (mkWatchInfo (str "/a/b") InCreate None true false) \/
   strings.HasPrefix (filepath.Base (str "/a/b")) (str ".") = false).
Proof.
  intros w'.
  assert (watches w' !! 2 = Some (mkWatchInfo (str "/a/b") InCreate None true false)) as H
    by (vm_compute; reflexivity).
  split; [exact H|].
  destruct (addRecursiveWatches_adds exampleSystem watchingTree (str "/a") InCreate false 2 _ H)
    as [Hold|(_ & _ & _ & _ & _ & Hdot)].
  - now left.
  - right. now apply Hdot.
Defined.

(** X21.  a rule that was registered is in both indices.  When the kernel
    never gives one descriptor to two paths and [AddWatch] succeeds, the
    path of the rule is indexed under the descriptor the kernel returned
    for it, and the watch recorded for that descriptor is the rule's own:
    its path, mask, options and entry. *)
Theorem AddWatch_records_root (sys : System) (w w' : Watcher) (entry : IncronEntry) :
  (forall p p' m m' wd,
     InotifyAddWatch (sysInotify sys) p m = Ok wd ->
     InotifyAddWatch (sysInotify sys) p' m' = Ok wd -> p = p') ->
  AddWatch sys w entry = (w', None) ->
  exists wd,
    InotifyAddWatch (sysInotify sys) (Path entry) (Mask entry) = Ok wd /\
    pathWatches w' !! Path entry = Some wd /\
    watches w' !! wd =
      Some (mkWatchInfo (Path entry) (Mask entry) (Some entry)
                        (Recursive (Options entry)) (DotDirs (Options entry))).
Proof.
  intros Hinj H. unfold AddWatch in H.
  destruct (pathWatches w !! Path entry); [discriminate|].
  destruct (osStat (sysFS sys) (Path entry)) as [fi|]; [|discriminate].
  unfold addSingleWatch in H.
  destruct (InotifyAddWatch (sysInotify sys) (Path entry) (Mask entry)) as [wd|] eqn:Hadd;
    [|discriminate].
  exists wd. split; [reflexivity|].
  set (rootInfo := mkWatchInfo (Path entry) (Mask entry) (Some entry)
                     (Recursive (Options entry)) (DotDirs (Options entry))) in *.
  assert (watches (setWatch w wd rootInfo) !! wd = Some rootInfo /\
          pathWatches (setWatch w wd rootInfo) !! Path entry = Some wd) as Hroot.
  { cbn [setWatch watches pathWatches]. split; apply lookup_insert_eq. }
  destruct (IsDir fi && Recursive (Options entry)).
  - pose proof (Walk_preserves sys
                  (fun w => watches w !! wd = Some rootInfo /\
                            pathWatches w !! Path entry = Some wd)
                  (walkFn sys (Path entry) (Mask entry) (DotDirs (Options entry)))
                  (Path entry) (setWatch w wd rootInfo)) as Hwalk.
    fold (addRecursiveWatches sys (setWatch w wd rootInfo) (Path entry) (Mask entry)
            (DotDirs (Options entry))) in Hwalk.
    destruct (addRecursiveWatches sys (setWatch w wd rootInfo) (Path entry) (Mask entry)
                (DotDirs (Options entry))) as [w2 [e|]]; [discriminate|].
    injection H as <-. cbn [fst] in Hwalk.
    destruct Hwalk as [H1 H2]; [|exact Hroot|now split].
    intros w0 p d e. apply walkFn_keeps_root.
    intros q m Hq Hadd'. apply Hq. exact (Hinj _ _ _ _ _ Hadd' Hadd).
  - injection H as <-. destruct Hroot as [H1 H2]. now split.
Qed.

Lemma AddWatch_records_root_witness :
  let entry := mkIncronEntry (str "/a") InCreate (str "echo") defaultOptions 1 in
  exists wd,
    InotifyAddWatch exampleKernel (Path entry) (Mask entry) = Ok wd /\
    pathWatches (fst (AddWatch exampleSystem emptyWatcher entry)) !! Path entry = Some wd /\
    watches (fst (AddWatch exampleSystem emptyWatcher entry)) !! wd =
      Some (mkWatchInfo (Path entry) (Mask entry) (Some entry)
                        (Recursive (Options entry)) (DotDirs (Options entry))).
Proof.
  intros entry.
  apply (AddWatch_records_root exampleSystem emptyWatcher _ entry).
  - destruct exampleKernel_faithful as (_ & Hinj & _). exact Hinj.
  - vm_compute. reflexivity.
Defined.
(** ** Arguments of a command *)

Lemma fieldsLoop_nonempty (fuel : nat) (s cur : gostring) :
  cur <> [] -> fieldsLoop fuel s cur <> [].
Proof.
  revert s cur. induction fuel as [|fuel IH]; intros s cur Hcur.
  - cbn [fieldsLoop]. destruct cur; [contradiction|discriminate].
  - cbn [fieldsLoop]. destruct s as [|c s].
    + destruct cur; [contradiction|discriminate].
    + destruct (strings.leadingSpace (c :: s)) as [e|].
      * destruct cur; [contradiction|discriminate].
      * apply IH. discriminate.
Qed.

Lemma fieldsLoop_fields (fuel : nat) (s cur : gostring) :
  (forall a b, rev cur = a ++ b -> b <> [] -> strings.leadingSpace (b ++ s) = None) ->
  Forall (fun part => part <> [] /\
            forall a b, part = a ++ b -> b <> [] -> strings.leadingSpace b = None)
         (fieldsLoop fuel s cur).
Proof.
  assert (forall s cur,
            (forall a b, rev cur = a ++ b -> b <> [] -> strings.leadingSpace (b ++ s) = None) ->
            Forall (fun part => part <> [] /\
                      forall a b, part = a ++ b -> b <> [] -> strings.leadingSpace b = None)
                   (match cur with [] => [] | _ :: _ => [rev cur] end)) as Hflush.
  { intros s0 cur0 H. destruct cur0 as [|x cur0]; [constructor|].
    constructor; [|constructor]. split.
    - cbn [rev]. now destruct (rev cur0).
    - intros a b Hab Hb. apply (leadingSpace_prefix b s0 Hb). now apply (H a b). }
  revert s cur. induction fuel as [|fuel IH]; intros s cur H; cbn [fieldsLoop].
  - now apply (Hflush s).
  - destruct s as [|c s]; [now apply (Hflush [])|].
    destruct (strings.leadingSpace (c :: s)) as [e|] eqn:E.
    + apply Forall_app. split; [now apply (Hflush (c :: s))|].
      apply IH. intros a b Hab Hb. cbn [rev] in Hab. symmetry in Hab.
      apply app_eq_nil in Hab as [_ ->]. contradiction.
    + apply IH. intros a b Hab Hb. cbn [rev] in Hab.
      destruct (exists_last Hb) as (b' & x & ->).
      rewrite app_assoc in Hab. apply app_inj_tail in Hab as [Hab ->].
      rewrite <- app_assoc. cbn [app]. destruct b' as [|y b'].
      * exact E.
      * apply (H a (y :: b')); [exact Hab|discriminate].
Qed.

(** X22.  the arguments of a command.  [parseCommand] returns no argument
    exactly when the command is blank; no argument it returns is empty,
    and none holds a white-space rune at any position. *)
Theorem parseCommand_arguments (cmdStr : gostring) :
  (parseCommand cmdStr = [] <-> strings.TrimSpace cmdStr = []) /\
  Forall (fun arg => arg <> [] /\
            forall a b, arg = a ++ b -> b <> [] -> strings.leadingSpace b = None)
         (parseCommand cmdStr).
Proof.
  unfold parseCommand. destruct (TrimSpace_trimmed cmdStr) as [Hlead _].
  destruct (strings.TrimSpace cmdStr) as [|c t] eqn:Et.
  - split; [easy|constructor].
  - split.
    + split; [|discriminate]. unfold Fields. generalize (length (c :: t)). intros n.
      cbn [fieldsLoop]. rewrite Hlead.
      intros H. exfalso. revert H. apply fieldsLoop_nonempty. discriminate.
    + unfold Fields. apply fieldsLoop_fields. intros a b Hab Hb. cbn [rev] in Hab.
      symmetry in Hab. apply app_eq_nil in Hab as [_ ->]. contradiction.
Qed.

Lemma leadingSpace_wordByte (c : byte) (s : gostring) :
  wordByte c = true -> strings.leadingSpace (c :: s) = None.
Proof.
  intros Hc. apply leadingSpace_None_intro. intros e Hin.
  destruct (strings.HasPrefix (c :: s) e) eqn:E; [|reflexivity].
  apply HasPrefix_iff in E as [r Hr].
  destruct e as [|c' e]; [now apply spaceEnc_nonempty in Hin|].
  injection Hr as -> _. exfalso.
  apply (not_space_byte c' Hc (c' :: e) Hin). now left.
Qed.

Lemma trailingSpace_wordByte (c : byte) (s : gostring) :
  wordByte c = true -> strings.trailingSpace (s ++ [c]) = None.
Proof.
  intros Hc. apply trailingSpace_None_intro. intros e Hin.
  destruct (strings.HasSuffix (s ++ [c]) e) eqn:E; [|reflexivity].
  apply HasSuffix_iff in E as [r Hr]. exfalso.
  destruct (rev e) as [|c' e'] eqn:Erev.
  - apply (f_equal (@rev _)) in Erev. rewrite rev_involutive in Erev.
    simpl in Erev. subst e. now apply spaceEnc_nonempty in Hin.
  - apply (f_equal (@rev _)) in Hr. rewrite !rev_app_distr, Erev in Hr. simpl in Hr.
    injection Hr as -> _.
    apply (not_space_byte c' Hc e Hin). apply in_rev. rewrite Erev. now left.
Qed.

Lemma fieldsLoop_word (w : gostring) (fuel : nat) (rest cur : gostring) :
  forallb wordByte w = true -> (length w <= fuel)%nat ->
  fieldsLoop fuel (w ++ rest) cur = fieldsLoop (fuel - length w) rest (rev w ++ cur).
Proof.
  revert fuel cur. induction w as [|c w IH]; intros fuel cur Hw Hfuel.
  - cbn [app rev length]. now rewrite Nat.sub_0_r.
  - cbn [forallb] in Hw. apply andb_true_iff in Hw as [Hc Hw].
    destruct fuel as [|fuel]; [cbn [length] in Hfuel; lia|].
    cbn [app fieldsLoop]. rewrite (leadingSpace_wordByte c _ Hc).
    rewrite IH; [|exact Hw|cbn [length] in Hfuel; lia].
    cbn [length rev]. rewrite <- app_assoc. reflexivity.
Qed.

Lemma fieldsLoop_words (ws : list gostring) :
  Forall (fun w => w <> [] /\ forallb wordByte w = true) ws ->
  forall w fuel cur,
    forallb wordByte w = true -> rev cur ++ w <> [] ->
    (length (strings.Join (w :: ws) [space]) < fuel)%nat ->
    fieldsLoop fuel (strings.Join (w :: ws) [space]) cur = (rev cur ++ w) :: ws.
Proof.
  induction ws as [|w' ws IH]; intros Hall w fuel cur Hw Hne Hfuel.
  - cbn [strings.Join] in *. rewrite <- (app_nil_r w) at 1.
    rewrite fieldsLoop_word by (exact Hw || lia).
    assert (rev w ++ cur <> []) as Hne'.
    { intros H. apply Hne. apply (f_equal (@rev _)) in H.
      rewrite rev_app_distr, rev_involutive in H. exact H. }
    assert (rev (rev w ++ cur) = rev cur ++ w) as Hrev
      by (now rewrite rev_app_distr, rev_involutive).
    destruct (fuel - length w)%nat; cbn [fieldsLoop]; rewrite <- Hrev;
      destruct (rev w ++ cur); [contradiction|reflexivity|contradiction|reflexivity].
  - inversion Hall as [|? ? [Hne' Hw'] Hrest]; subst.
    change (strings.Join (w :: w' :: ws) [space])
      with (w ++ space :: strings.Join (w' :: ws) [space]) in *.
    rewrite length_app in Hfuel. cbn [length] in Hfuel.
    rewrite fieldsLoop_word by (exact Hw || lia).
    destruct (fuel - length w)%nat as [|fuel'] eqn:Ef; [lia|].
    cbn [fieldsLoop].
    change (strings.leadingSpace (space :: strings.Join (w' :: ws) [space]))
      with (Some [space]).
    cbn [length skipn]. rewrite skipn_O.
    rewrite (IH Hrest w' fuel' []); [|exact Hw'|exact Hne'|lia].
    assert (rev w ++ cur <> []) as Hne2.
    { intros H. apply Hne. apply (f_equal (@rev _)) in H.
      rewrite rev_app_distr, rev_involutive in H. exact H. }
    assert (rev (rev w ++ cur) = rev cur ++ w) as Hrev
      by (now rewrite rev_app_distr, rev_involutive).
    rewrite <- Hrev. destruct (rev w ++ cur); [contradiction|reflexivity].
Qed.

(** X23.  words separated by single spaces.  A command made of words joined
    by single spaces, each word non-empty and free of white-space bytes,
    is split into exactly these words; quotes are bytes like any other. *)
Theorem parseCommand_words (words : list gostring) :
  Forall (fun w => w <> [] /\ forallb wordByte w = true) words ->
  parseCommand (strings.Join words (str " ")) = words.
Proof.
  intros Hall. change (str " ") with [space]. destruct words as [|w ws]; [reflexivity|].
  inversion Hall as [|? ? [Hne Hw] Hrest]; subst.
  unfold parseCommand.
  assert (strings.TrimSpace (strings.Join (w :: ws) [space]) = strings.Join (w :: ws) [space])
    as ->.
  { apply TrimSpace_id.
    - destruct w as [|c w]; [contradiction|]. cbn [forallb] in Hw.
      apply andb_true_iff in Hw as [Hc _].
      destruct ws; [|change (strings.Join ((c :: w) :: l :: ws) [space])
                       with (c :: w ++ space :: strings.Join (l :: ws) [space])];
        now apply leadingSpace_wordByte.
    - assert (exists s c, strings.Join (w :: ws) [space] = s ++ [c] /\ wordByte c = true)
        as (s & c & -> & Hc).
      { clear Hne Hw Hrest. revert w Hall. induction ws as [|w' ws IH]; intros w Hall.
        - inversion Hall as [|? ? [Hne Hw] _]; subst.
          destruct (exists_last Hne) as (s & c & ->). exists s, c. split; [reflexivity|].
          rewrite forallb_app in Hw. apply andb_true_iff in Hw as [_ Hw].
          cbn [forallb] in Hw. now apply andb_true_iff in Hw as [Hw _].
        - inversion Hall as [|? ? _ Hall']; subst.
          destruct (IH w' Hall') as (s & c & Hs & Hc).
          exists (w ++ space :: s), c. split; [|exact Hc].
          change (strings.Join (w :: w' :: ws) [space])
            with (w ++ space :: strings.Join (w' :: ws) [space]).
          rewrite Hs, <- app_assoc. reflexivity. }
      now apply trailingSpace_wordByte. }
  destruct (strings.Join (w :: ws) [space]) as [|c t] eqn:Ej.
  { destruct w; [contradiction|]. destruct ws; discriminate. }
  rewrite <- Ej. unfold Fields.
  rewrite (fieldsLoop_words ws Hrest w _ [] Hw); [reflexivity|exact Hne|lia].
Qed.

Lemma parseCommand_words_witness :
  parseCommand (str "sh -c 'echo a b'") = [str "sh"; str "-c"; str "'echo"; str "a"; str "b'"].
Proof.
  apply (parseCommand_words [str "sh"; str "-c"; str "'echo"; str "a"; str "b'"]).
  repeat constructor; discriminate.
Defined.
(** ** Events of the watches below a rule's directory *)

Lemma Join_longer (a b : list gostring) :
  a <> [] -> b <> [] ->
  (length (strings.Join a [filepath.slash]) <
   length (strings.Join (a ++ b) [filepath.slash]))%nat.
Proof.
  intros Ha Hb. rewrite Join_app by assumption. rewrite !length_app. cbn [length]. lia.
Qed.

(** X24.  events below a rule's directory do not match the rule.  For a
    rule without a wildcard whose path is a clean absolute path, an event
    of a watch on a directory below that path, as [createEvent] builds it
    (for the directory itself or for a plain name in it), is not matched
    by [eventMatches]: the rule's path equals neither the watch directory
    nor the full path of the event. *)
Theorem eventMatches_below (MatchString : gostring -> gostring -> option bool)
    (entry : IncronEntry) (elems subs : list gostring) (w : Watcher) (wd mask cookie : Z)
    (name : gostring) (info : WatchInfo) (event : InotifyEvent) :
  ~ In star (Path entry) ->
  elems <> [] -> subs <> [] ->
  Forall plainName (elems ++ subs) -> name = [] \/ plainName name ->
  Path entry = filepath.slash :: strings.Join elems [filepath.slash] ->
  watches w !! wd = Some info ->
  WiPath info = filepath.slash :: strings.Join (elems ++ subs) [filepath.slash] ->
  createEvent w wd mask cookie name = Some event ->
  eventMatches MatchString entry event = false.
Proof.
  intros Hstar Helems Hsubs Hplain Hname Hpath Hw Hdir Hev.
  pose proof (Join_longer elems subs Helems Hsubs) as Hlen.
  assert (Path entry <> WiPath info) as Hne1.
  { rewrite Hpath, Hdir. intros H. injection H as H. rewrite H in Hlen at 1. lia. }
  assert (forall c t, name = c :: t -> Path entry <> filepath.Join [WiPath info; name]) as Hne2.
  { intros c t Hc. destruct Hname as [Hname|Hname]; [congruence|]. rewrite Hdir.
    rewrite (Join_clean_dir (elems ++ subs) name).
    - rewrite Hpath. intros H. injection H as H.
      apply (f_equal (@length _)) in H. rewrite length_app in H. lia.
    - now destruct elems.
    - apply Forall_app. split; [exact Hplain|]. constructor; [exact Hname|constructor]. }
  unfold createEvent in Hev. rewrite Hw in Hev.
  assert (EvWatchDir event = WiPath info /\
          (EvPath event = WiPath info \/
           exists c t, name = c :: t /\ EvPath event = filepath.Join [WiPath info; name]))
    as [Hwdir Hpathev].
  { injection Hev as <-. cbn [EvWatchDir EvPath]. split; [reflexivity|].
    destruct name as [|c t]; [now left|right]. now exists c, t. }
  unfold eventMatches, MatchesPath.
  assert (strings.Contains (Path entry) (str "*") = false) as ->
    by (change (str "*") with [star]; now apply Contains_one_false).
  rewrite Hwdir. apply streq_neq in Hne1. rewrite Hne1.
  assert (streq (Path entry) (EvPath event) = false) as ->; [|reflexivity].
  apply streq_neq. destruct Hpathev as [->|(c & t & Hc & ->)].
  - now apply streq_neq.
  - now apply (Hne2 c t).
Qed.

Lemma eventMatches_below_witness :
  let entry := mkIncronEntry (str "/a") InCreate (str "echo $#") defaultOptions 1 in
  let w := parseEvents exampleSystem watchingTree
             (inotifyRecord 1 (Z.lor InCreate InIsdir) 0 (str "b" ++ [zero]) ++
              inotifyRecord 2 InCreate 0 (str "f" ++ [zero])) in
  map EvPath (events w) = [str "/a/b"; str "/a/b/f"] /\
  forall event,
    createEvent w 2 InCreate 0 (str "f") = Some event ->
    eventMatches (fun _ _ => None) entry event = false.
Proof.
  intros entry w. split; [vm_compute; reflexivity|]. intros event.
  apply (eventMatches_below _ entry [str "a"] [str "b"] w 2 InCreate 0 (str "f")
           (mkWatchInfo (str "/a/b") InCreate None true false)).
  - vm_compute. intuition discriminate.
  - discriminate.
  - discriminate.
  - repeat constructor; try discriminate; vm_compute; intuition discriminate.
  - right. repeat split; try discriminate. vm_compute. intuition discriminate.
  - reflexivity.
  - vm_compute. reflexivity.
  - reflexivity.
Defined.
(** ** Listing a table and loading the listing *)

Lemma Join_lines (ls : list gostring) :
  ls <> [] ->
  strings.Join ls [newline] ++ [newline] = flat_map (fun l => l ++ [newline]) ls.
Proof.
  induction ls as [|l ls IH]; intros Hne; [contradiction|].
  destruct ls as [|l' ls].
  - cbn [strings.Join flat_map]. now rewrite app_nil_r.
  - change (strings.Join (l :: l' :: ls) [newline])
      with (l ++ [newline] ++ strings.Join (l' :: ls) [newline]).
    specialize (IH ltac:(discriminate)).
    change (flat_map (fun l0 => l0 ++ [newline]) (l :: l' :: ls))
      with ((l ++ [newline]) ++ flat_map (fun l0 => l0 ++ [newline]) (l' :: ls)).
    rewrite <- IH, <- !app_assoc. reflexivity.
Qed.

(** X25.  the listing of a table loads back.  The text [IncronTable.String]
    gives for a table whose entries came from the parser, written to a
    file with a final line end (as the editor's file is), is read by
    [LoadTable] as the same entries in the same order, numbered from
    line 1, provided no rendered line reaches the scanner's limit or holds
    a line break. *)
Theorem IncronTable_String_LoadTable (fs : FileSystem) (table : IncronTable)
    (filePath : gostring) :
  Entries table <> [] ->
  osOpen fs filePath = fileOf (IncronTable_String table ++ [newline]) ->
  Forall (fun e => parsed e /\ ~ In newline (String e) /\
                   Z.of_nat (length (String e)) < MaxScanTokenSize) (Entries table) ->
  exists t,
    LoadTable fs filePath = Ok t /\
    Entries t = imap (fun i e => atLine (Z.of_nat i + 1) e) (Entries table).
Proof.
  intros Hne Hopen Hall. unfold IncronTable_String in Hopen.
  rewrite Join_lines in Hopen by (now destruct (Entries table)).
  assert (scanLines (flat_map (fun l => l ++ [newline]) (map String (Entries table))) =
          (map String (Entries table), None)) as Hscan.
  { unfold scanLines. rewrite scanLinesLoop_lines.
    - f_equal. rewrite map_map. apply map_ext_in. intros e He. apply dropCR_trimmed.
      rewrite List.Forall_forall in Hall. destruct (Hall e He) as [Hp _].
      now destruct (String_reparsed e 0 Hp).
    - apply Forall_map. eapply Forall_impl; [exact Hall|]. intros e (_ & H1 & H2). easy.
    - apply le_n. }
  unfold LoadTable. rewrite Hopen. unfold fileOf. rewrite Hscan.
  rewrite loadLines_rendered by (eapply Forall_impl; [exact Hall|]; now intros e [H _]).
  eexists. split; [reflexivity|]. cbn [Entries app]. apply imap_ext.
  intros i x _. cbn. f_equal.
Qed.

Lemma IncronTable_String_LoadTable_witness :
  let fs := mkFileSystem (fun _ => Ok (mkFileInfo false))
              (fun _ => fileOf (IncronTable_String exampleTable ++ [newline])) in
  exists t,
    LoadTable fs (str "/tmp/eventcrontab_alice_1") = Ok t /\
    Entries t = imap (fun i e => atLine (Z.of_nat i + 1) e) (Entries exampleTable).
Proof.
  intros fs.
  apply (IncronTable_String_LoadTable fs exampleTable (str "/tmp/eventcrontab_alice_1")).
  - discriminate.
  - reflexivity.
  - constructor; [|constructor; [|constructor]].
    + split; [|split].
      * exists (str "/tmp IN_CREATE echo $#"), 1. vm_compute. reflexivity.
      * vm_compute. intuition discriminate.
      * vm_compute. reflexivity.
    + split; [|split].
      * exists (str "/var/log IN_CREATE,IN_DELETE,loopable=true,dotdirs=true logger changed"), 7.
        vm_compute. reflexivity.
      * vm_compute. intuition discriminate.
      * vm_compute. reflexivity.
Defined.

(** ** What [AddWatch] leaves behind when it fails *)

(** X26.  the failures of [AddWatch] that change nothing.  On a path already
    in the path index, and on a failing [Stat] or [inotify_add_watch] of
    the rule's path, the engine is returned as it was.  When the
    recursive setup fails after the rule's watch was installed, the error
    says so; if the kernel then removes the descriptor, and gave it to no
    other path, the rule's watch is gone from both indices. *)
Theorem AddWatch_failures (sys : System) (w : Watcher) (entry : IncronEntry) :
  (is_Some (pathWatches w !! Path entry) ->
   AddWatch sys w entry =
   (w, Some (str "path " ++ Path entry ++ str " is already being watched"))) /\
  (pathWatches w !! Path entry = None ->
   isErr (osStat (sysFS sys) (Path entry)) = true \/
   isErr (InotifyAddWatch (sysInotify sys) (Path entry) (Mask entry)) = true ->
   exists e, AddWatch sys w entry = (w, Some e)) /\
  (forall info wd w2 e,
     pathWatches w !! Path entry = None ->
     osStat (sysFS sys) (Path entry) = Ok info ->
     InotifyAddWatch (sysInotify sys) (Path entry) (Mask entry) = Ok wd ->
     IsDir info && Recursive (Options entry) = true ->
     addRecursiveWatches sys
       (setWatch w wd (mkWatchInfo (Path entry) (Mask entry) (Some entry)
                                   (Recursive (Options entry)) (DotDirs (Options entry))))
       (Path entry) (Mask entry) (DotDirs (Options entry)) = (w2, Some e) ->
     snd (AddWatch sys w entry) = Some (str "failed to setup recursive watches: " ++ e) /\
     (InotifyRmWatch (sysInotify sys) wd = None ->
      (forall q m, q <> Path entry -> InotifyAddWatch (sysInotify sys) q m <> Ok wd) ->
      watches (fst (AddWatch sys w entry)) !! wd = None /\
      pathWatches (fst (AddWatch sys w entry)) !! Path entry = None)).
Proof. exact (AddWatch_guarantees sys w entry). Qed.
(** ** A line beyond the scanner's limit *)

Lemma scanLinesLoop_prefix (good : list gostring) (tail : list byte) (fuel : nat) :
  Forall (fun l => ~ In newline l /\ Z.of_nat (length l) < MaxScanTokenSize) good ->
  (length (flat_map (fun l => l ++ [newline]) good ++ tail) <= fuel)%nat ->
  exists fuel',
    (length tail <= fuel')%nat /\
    scanLinesLoop fuel (flat_map (fun l => l ++ [newline]) good ++ tail) =
    (map dropCR good ++ fst (scanLinesLoop fuel' tail), snd (scanLinesLoop fuel' tail)).
Proof.
  revert fuel. induction good as [|l ls IH]; intros fuel Hall Hfuel.
  - exists fuel. split; [exact Hfuel|]. cbn [flat_map app map].
    now destruct (scanLinesLoop fuel tail).
  - inversion Hall as [|? ? [Hnl Hlen] Hrest]; subst.
    cbn [flat_map map] in *. rewrite <- !app_assoc in *. cbn [app] in *.
    set (F := flat_map (fun l0 => l0 ++ [newline]) ls) in *.
    assert (length (l ++ newline :: F ++ tail) = length l + S (length (F ++ tail)))%nat
      as Hlen1 by (rewrite length_app; reflexivity).
    rewrite Hlen1 in Hfuel.
    destruct fuel as [|fuel]; [lia|].
    destruct (IH fuel Hrest ltac:(lia)) as (fuel' & Hfuel' & Hscan).
    exists fuel'. split; [exact Hfuel'|].
    cbn [scanLinesLoop].
    destruct (l ++ newline :: F ++ tail) eqn:E; [now destruct l|]. rewrite <- E. clear E.
    rewrite Cut_one_Some by exact Hnl.
    destruct (Z.leb_spec MaxScanTokenSize (Z.of_nat (length l))) as [Hbig|_]; [lia|].
    rewrite Hscan. reflexivity.
Qed.

Lemma scanLinesLoop_long (long rest : list byte) (fuel : nat) :
  ~ In newline long -> MaxScanTokenSize <= Z.of_nat (length long) ->
  scanLinesLoop (S fuel) (long ++ rest) = ([], Some ErrTooLong).
Proof.
  intros Hnl Hlen. cbn [scanLinesLoop].
  destruct (long ++ rest) as [|c t] eqn:E.
  { apply app_eq_nil in E as [-> _]. cbn [length] in Hlen.
    unfold MaxScanTokenSize in Hlen. lia. }
  rewrite <- E.
  destruct (strings.Cut (long ++ rest) [newline]) as [[line r]|] eqn:Ecut.
  - apply Cut_one_inv in Ecut as [Heq Hline].
    assert (length long <= length line)%nat as Hle.
    { apply app_eq_app in Heq as [x [[H1 H2]|[H1 H2]]].
      - destruct x as [|y x]; [rewrite app_nil_r in H1; subst; lia|].
        injection H2 as <- _. exfalso. apply Hnl. rewrite H1. apply in_or_app. right. now left.
      - rewrite H1, length_app. lia. }
    destruct (Z.leb_spec MaxScanTokenSize (Z.of_nat (length line))); [reflexivity|lia].
  - destruct (Z.leb_spec MaxScanTokenSize (Z.of_nat (length (long ++ rest)))) as [|Hlt];
      [reflexivity|]. rewrite length_app in Hlt. lia.
Qed.

Lemma loadLines_all (filePath : gostring) (lines : list gostring) (k : Z)
    (acc : list IncronEntry) :
  (forall i line, lines !! i = Some line ->
                  isErr (ParseEntry line (k + Z.of_nat i + 1)) = false) ->
  exists entries, loadLines filePath lines k acc = Ok entries.
Proof.
  revert k acc. induction lines as [|l lines IH]; intros k acc Hall; cbn [loadLines].
  - now exists acc.
  - pose proof (Hall 0%nat l eq_refl) as H0. rewrite Z.add_0_r in H0.
    assert (forall i line, lines !! i = Some line ->
              isErr (ParseEntry line (k + 1 + Z.of_nat i + 1)) = false) as Hall'.
    { intros i line Hl. specialize (Hall (S i) line Hl). rewrite <- Hall. do 2 f_equal. lia. }
    destruct (ParseEntry l (k + 1)) as [[entry|]|]; [| |discriminate]; now apply IH.
Qed.

(** X27.  a line beyond the scanner's limit.  When the file holds, after
    lines that parse, a line of 64 KiB or more, [LoadTable] fails with the
    scanner's error [token too long]: the table is not loaded, whatever
    the other lines hold. *)
Theorem LoadTable_long_line (fs : FileSystem) (filePath : gostring) (good : list gostring)
    (long rest : list byte) :
  osOpen fs filePath = fileOf (flat_map (fun l => l ++ [newline]) good ++ long ++ rest) ->
  Forall (fun l => ~ In newline l /\ Z.of_nat (length l) < MaxScanTokenSize) good ->
  (forall i line, good !! i = Some line ->
                  isErr (ParseEntry (dropCR line) (Z.of_nat i + 1)) = false) ->
  ~ In newline long -> MaxScanTokenSize <= Z.of_nat (length long) ->
  LoadTable fs filePath =
  Err (str "error reading file " ++ filePath ++ str ": bufio.Scanner: token too long").
Proof.
  intros Hopen Hgood Hparse Hnl Hlen. unfold LoadTable. rewrite Hopen. unfold fileOf, scanLines.
  destruct (scanLinesLoop_prefix good (long ++ rest) _ Hgood (le_n _))
    as (fuel' & Hfuel' & ->).
  destruct fuel' as [|n].
  { destruct (long ++ rest) as [|c t] eqn:E; [|cbn [length] in Hfuel'; lia].
    apply app_eq_nil in E as [-> _]. cbn [length] in Hlen.
    unfold MaxScanTokenSize in Hlen. lia. }
  rewrite scanLinesLoop_long by assumption. cbn [fst snd]. rewrite app_nil_r.
  destruct (loadLines_all filePath (map dropCR good) 0 []) as [entries ->]; [|reflexivity].
  intros i line Hl. rewrite list_lookup_fmap in Hl.
  destruct (good !! i) as [l|] eqn:El; [|discriminate]. injection Hl as <-.
  now apply Hparse.
Qed.

Lemma LoadTable_long_line_witness :
  LoadTable
    (mkFileSystem (fun _ => Ok (mkFileInfo false))
       (fun _ => fileOf (flat_map (fun l => l ++ [newline]) [str "/tmp IN_CREATE echo a"] ++
                         (str "/var IN_DELETE echo " ++
                          repeat "b"%char (Z.to_nat MaxScanTokenSize)) ++ [newline])))
    (str "/t") =
  Err (str "error reading file /t: bufio.Scanner: token too long").
Proof.
  apply (LoadTable_long_line _ (str "/t") [str "/tmp IN_CREATE echo a"]
           (str "/var IN_DELETE echo " ++ repeat "b"%char (Z.to_nat MaxScanTokenSize))
           [newline]).
  - reflexivity.
  - constructor; [|constructor]. split; [vm_compute; intuition discriminate|reflexivity].
  - intros [|[|i]] line Hl; [|discriminate Hl|discriminate Hl].
    injection Hl as <-. vm_compute. reflexivity.
  - intros Hin. apply in_app_or in Hin as [Hin|Hin].
    + revert Hin. vm_compute. intuition discriminate.
    + apply repeat_spec in Hin. discriminate.
  - rewrite length_app, repeat_length, Nat2Z.inj_add, Z2Nat.id
      by (unfold MaxScanTokenSize; lia).
    cbn [length str list_ascii_of_string]. lia.
Defined.
(** ** Interpolation in one pass *)

Lemma Cut_pair (c d a b : byte) (r : gostring) :
  strings.Cut (a :: b :: r) [c; d] =
  if Ascii.eqb a c && Ascii.eqb b d then Some ([], r)
  else match strings.Cut (b :: r) [c; d] with
       | Some (before, after) => Some (a :: before, after)
       | None => None
       end.
Proof.
  cbn [strings.Cut strings.HasPrefix length skipn].
  destruct (Ascii.eqb a c); [|reflexivity]. cbn [andb].
  destruct (Ascii.eqb b d); reflexivity.
Qed.

Lemma Cut_pair_short (c d a : byte) : strings.Cut [a] [c; d] = None.
Proof. cbn. now rewrite andb_false_r. Qed.

Lemma replacePair_cons2 (d a b : byte) (new r : gostring) :
  replacePair d new (a :: b :: r) =
  if Ascii.eqb a dollar && Ascii.eqb b d then new ++ replacePair d new r
  else a :: replacePair d new (b :: r).
Proof. reflexivity. Qed.

Lemma replaceLoop_pair (d : byte) (new : gostring) (n : nat) :
  forall s fuel,
    (length s <= n)%nat -> (length s <= fuel)%nat ->
    strings.replaceLoop fuel s [dollar; d] new = replacePair d new s.
Proof.
  induction n as [|n IH]; intros s fuel Hn Hfuel.
  - destruct s; [|cbn [length] in Hn; lia]. now destruct fuel.
  - destruct s as [|a [|b r]].
    + now destruct fuel.
    + destruct fuel as [|fuel]; [cbn [length] in Hfuel; lia|].
      cbn [strings.replaceLoop replacePair]. now rewrite Cut_pair_short.
    + destruct fuel as [|fuel]; [cbn [length] in Hfuel; lia|].
      cbn [length] in Hn, Hfuel.
      cbn [strings.replaceLoop]. rewrite Cut_pair, replacePair_cons2.
      destruct (Ascii.eqb a dollar && Ascii.eqb b d).
      * cbn [app]. f_equal. apply IH; lia.
      * rewrite <- (IH (b :: r) (S fuel)) by (cbn [length]; lia).
        cbn [strings.replaceLoop].
        destruct (strings.Cut (b :: r) [dollar; d]) as [[before after]|]; reflexivity.
Qed.

Lemma ReplaceAll_pair (d : byte) (new s : gostring) :
  strings.ReplaceAll s [dollar; d] new = replacePair d new s.
Proof. unfold strings.ReplaceAll. now apply (replaceLoop_pair d new (length s)). Qed.

Lemma replacePair_other (d a : byte) (new s : gostring) :
  a <> dollar -> replacePair d new (a :: s) = a :: replacePair d new s.
Proof.
  intros Ha. destruct s as [|b r]; [reflexivity|]. rewrite replacePair_cons2.
  apply Ascii.eqb_neq in Ha. now rewrite Ha.
Qed.

Lemma replacePair_dollar (d b : byte) (new r : gostring) :
  b <> d -> replacePair d new (dollar :: b :: r) = dollar :: replacePair d new (b :: r).
Proof.
  intros Hb. rewrite replacePair_cons2. apply Ascii.eqb_neq in Hb. rewrite Hb.
  now rewrite andb_false_r.
Qed.

Lemma replacePair_hit (d : byte) (new r : gostring) :
  replacePair d new (dollar :: d :: r) = new ++ replacePair d new r.
Proof. rewrite replacePair_cons2. now rewrite !Ascii.eqb_refl. Qed.

Lemma replacePair_app (d : byte) (new p s : gostring) :
  ~ In dollar p -> replacePair d new (p ++ s) = p ++ replacePair d new s.
Proof.
  induction p as [|a p IH]; intros Hp; [reflexivity|].
  cbn [app]. rewrite replacePair_other; [|intros ->; apply Hp; now left].
  rewrite IH; [reflexivity|]. intros Hin. apply Hp. now right.
Qed.

Lemma formatLoop_no_dollar (fuel : nat) (base n : Z) (acc : gostring) :
  0 <= n -> 2 <= base <= 16 -> ~ In dollar acc ->
  ~ In dollar (strconv.formatLoop fuel base n acc).
Proof.
  intros Hn Hb. revert n acc Hn. induction fuel as [|fuel IH]; intros n acc Hn Hacc; [exact Hacc|].
  cbn [strconv.formatLoop].
  assert (~ In dollar (strconv.digitChar (n mod base) :: acc)) as H.
  { intros [Hd|Hin]; [|now apply Hacc].
    assert (0 <= n mod base < 16) as Hm by (pose proof (Z.mod_pos_bound n base); lia).
    assert (n mod base = 0 \/ n mod base = 1 \/ n mod base = 2 \/ n mod base = 3 \/
            n mod base = 4 \/ n mod base = 5 \/ n mod base = 6 \/ n mod base = 7 \/
            n mod base = 8 \/ n mod base = 9 \/ n mod base = 10 \/ n mod base = 11 \/
            n mod base = 12 \/ n mod base = 13 \/ n mod base = 14 \/ n mod base = 15)
      as Hc by lia.
    revert Hd.
    repeat (destruct Hc as [->|Hc]; [discriminate|]). rewrite Hc. discriminate. }
  destruct (n / base =? 0); [exact H|]. apply IH; [|exact H]. apply Z.div_pos; lia.
Qed.

Lemma eventMaskToText_no_dollar (order : list (Z * gostring)) (mask : Z) :
  Permutation order ReverseEventMaskMap -> 0 <= mask ->
  ~ In dollar (eventMaskToText order mask).
Proof.
  intros Hperm Hmask. unfold eventMaskToText.
  assert (Forall (fun t => ~ In dollar t)
            (map snd (filter (fun fn => negb (Z.land mask (fst fn) =? 0)) order))) as Hall.
  { apply List.Forall_forall. intros t Ht. apply in_map_iff in Ht as ([f name] & <- & Hin).
    apply list_elem_of_In, list_elem_of_filter in Hin as [_ Hin].
    apply list_elem_of_In in Hin. apply (Permutation_in _ Hperm) in Hin. cbn [snd].
    assert (forallb (fun fn => negb (existsb (Ascii.eqb dollar) (snd fn)))
              ReverseEventMaskMap = true) as Hnames by (vm_compute; reflexivity).
    rewrite forallb_forall in Hnames. specialize (Hnames _ Hin). cbn [snd] in Hnames.
    apply negb_true_iff in Hnames. intros Hd.
    assert (existsb (Ascii.eqb dollar) name = true) as Hex; [|congruence].
    apply existsb_exists. exists dollar. split; [exact Hd|apply Ascii.eqb_refl]. }
  destruct (map snd (filter (fun fn => negb (Z.land mask (fst fn) =? 0)) order)) as [|p ps].
  - unfold hexMask. intros Hin. apply in_app_or in Hin as [Hin|Hin].
    + revert Hin. vm_compute. intuition discriminate.
    + revert Hin. apply formatLoop_no_dollar; [exact Hmask|lia|intros []].
  - change (str ",") with [byteOf 44]. apply Join_notin; [discriminate|exact Hall].
Qed.

Lemma FormatInt_no_dollar (n : Z) : 0 <= n -> ~ In dollar (strconv.FormatInt n 10).
Proof.
  intros Hn. unfold strconv.FormatInt. destruct (Z.ltb_spec n 0); [lia|].
  apply formatLoop_no_dollar; [exact Hn|lia|intros []].
Qed.

Lemma Contains_pair_tail (c d a : byte) (s : gostring) :
  strings.Contains (a :: s) [c; d] = false -> strings.Contains s [c; d] = false.
Proof.
  unfold strings.Contains. destruct s as [|b r]; [reflexivity|].
  rewrite Cut_pair. destruct (Ascii.eqb a c && Ascii.eqb b d); [discriminate|].
  destruct (strings.Cut (b :: r) [c; d]) as [[? ?]|]; [discriminate|reflexivity].
Qed.

Lemma Contains_pair_head (c d : byte) (r : gostring) :
  strings.Contains (c :: d :: r) [c; d] = true.
Proof. unfold strings.Contains. rewrite Cut_pair, !Ascii.eqb_refl. reflexivity. Qed.

Lemma expand_single_pass (order : list (Z * gostring)) (watchPath filename : gostring)
    (eventMask : Z) (n : nat) :
  ~ In dollar watchPath -> ~ In dollar filename ->
  ~ In dollar (eventMaskToText order eventMask) ->
  ~ In dollar (strconv.FormatInt eventMask 10) ->
  forall cmd,
    (length cmd <= n)%nat ->
    strings.Contains cmd [dollar; dollar] = false ->
    replacePair (byteOf 38) (strconv.FormatInt eventMask 10)
      (replacePair (byteOf 37) (eventMaskToText order eventMask)
         (replacePair (byteOf 35) filename
            (replacePair (byteOf 64) watchPath
               (replacePair dollar [dollar] cmd)))) =
    expandSinglePass order cmd watchPath filename eventMask.
Proof.
  intros Hwp Hfn Htext Hnum.
  induction n as [|n IH]; intros cmd Hlen Hdd.
  { destruct cmd; [reflexivity|cbn [length] in Hlen; lia]. }
  destruct cmd as [|a rest]; [reflexivity|].
  pose proof (Contains_pair_tail _ _ _ _ Hdd) as Hdd1.
  cbn [length] in Hlen.
  destruct (Ascii.eqb a dollar) eqn:Ea.
  2:{ apply Ascii.eqb_neq in Ea. rewrite !replacePair_other by exact Ea.
      cbn [expandSinglePass]. apply Ascii.eqb_neq in Ea. rewrite Ea.
      f_equal. apply IH; [lia|exact Hdd1]. }
  apply Ascii.eqb_eq in Ea. subst a.
  destruct rest as [|b r].
  { reflexivity. }
  pose proof (Contains_pair_tail _ _ _ _ Hdd1) as Hdd2. cbn [length] in Hlen.
  assert (b <> dollar) as Hb.
  { intros ->. now rewrite Contains_pair_head in Hdd. }
  cbn [expandSinglePass]. rewrite Ascii.eqb_refl.
  assert (Ascii.eqb b dollar = false) as -> by (now apply Ascii.eqb_neq).
  rewrite (replacePair_dollar dollar b) by exact Hb.
  rewrite (replacePair_other dollar b) by exact Hb.
  destruct (Ascii.eqb b (byteOf 64)) eqn:E64.
  { apply Ascii.eqb_eq in E64. subst b. rewrite replacePair_hit.
    rewrite !replacePair_app by assumption. f_equal. apply IH; [lia|exact Hdd2]. }
  apply Ascii.eqb_neq in E64.
  rewrite (replacePair_dollar (byteOf 64) b) by exact E64.
  rewrite (replacePair_other (byteOf 64) b) by exact Hb.
  destruct (Ascii.eqb b (byteOf 35)) eqn:E35.
  { apply Ascii.eqb_eq in E35. subst b. rewrite replacePair_hit.
    rewrite !replacePair_app by assumption. f_equal. apply IH; [lia|exact Hdd2]. }
  apply Ascii.eqb_neq in E35.
  rewrite (replacePair_dollar (byteOf 35) b) by exact E35.
  rewrite (replacePair_other (byteOf 35) b) by exact Hb.
  destruct (Ascii.eqb b (byteOf 37)) eqn:E37.
  { apply Ascii.eqb_eq in E37. subst b. rewrite replacePair_hit.
    rewrite !replacePair_app by assumption. f_equal. apply IH; [lia|exact Hdd2]. }
  apply Ascii.eqb_neq in E37.
  rewrite (replacePair_dollar (byteOf 37) b) by exact E37.
  rewrite (replacePair_other (byteOf 37) b) by exact Hb.
  destruct (Ascii.eqb b (byteOf 38)) eqn:E38.
  { apply Ascii.eqb_eq in E38. subst b. rewrite replacePair_hit.
    f_equal. apply IH; [lia|exact Hdd2]. }
  apply Ascii.eqb_neq in E38.
  rewrite (replacePair_dollar (byteOf 38) b) by exact E38.
  rewrite (replacePair_other (byteOf 38) b) by exact Hb.
  do 2 f_equal. apply IH; [lia|exact Hdd2].
Qed.

(** X28.  when the interpolation is a single pass.  For a command that holds
    no [$$], a watch directory and a file name that hold no dollar sign,
    the five replacement passes of [ExpandCommand] give what one pass over
    the command gives: each of [$@], [$#], [$%], [$&] replaced where it
    stands, nothing else touched. *)
Theorem ExpandCommand_single_pass (order : list (Z * gostring)) (e : IncronEntry)
    (watchPath filename : gostring) (eventMask : Z) :
  Permutation order ReverseEventMaskMap -> 0 <= eventMask ->
  strings.Contains (Command e) (str "$$") = false ->
  ~ In dollar watchPath -> ~ In dollar filename ->
  ExpandCommand order e watchPath filename eventMask =
  expandSinglePass order (Command e) watchPath filename eventMask.
Proof.
  intros Hperm Hmask Hdd Hwp Hfn. unfold ExpandCommand.
  change (str "$$") with [dollar; dollar]. change (str "$@") with [dollar; byteOf 64].
  change (str "$#") with [dollar; byteOf 35]. change (str "$%") with [dollar; byteOf 37].
  change (str "$&") with [dollar; byteOf 38]. change (str "$") with [dollar].
  rewrite !ReplaceAll_pair.
  apply (expand_single_pass order watchPath filename eventMask (length (Command e)));
    try assumption.
  - now apply eventMaskToText_no_dollar.
  - now apply FormatInt_no_dollar.
  - apply le_n.
Qed.

Lemma ExpandCommand_single_pass_witness :
  ExpandCommand ReverseEventMaskMap
    (mkIncronEntry (str "/tmp") InCreate (str "cp $@/$# /backup/$#.$& # $x $") defaultOptions 1)
    (str "/tmp") (str "report.txt") InCreate =
  str "cp /tmp/report.txt /backup/report.txt.256 # $x $".
Proof.
  rewrite ExpandCommand_single_pass.
  - vm_compute. reflexivity.
  - reflexivity.
  - discriminate.
  - vm_compute. reflexivity.
  - vm_compute. intuition discriminate.
  - vm_compute. intuition discriminate.
Defined.
(** ** Credentials of a user *)

Lemma atoiDigits_digit (d acc : Z) (s : gostring) :
  0 <= d < 10 -> atoiDigits acc (strconv.digitChar d :: s) = atoiDigits (acc * 10 + d) s.
Proof.
  intros Hd.
  assert (d = 0 \/ d = 1 \/ d = 2 \/ d = 3 \/ d = 4 \/ d = 5 \/ d = 6 \/ d = 7 \/
          d = 8 \/ d = 9) as Hc by lia.
  repeat (destruct Hc as [->|Hc]; [reflexivity|]). now subst.
Qed.

Lemma atoiDigits_formatLoop (fuel : nat) (n : Z) (acc : gostring) :
  0 <= n -> n < 10 ^ Z.of_nat fuel ->
  atoiDigits 0 (strconv.formatLoop fuel 10 n acc) = atoiDigits n acc.
Proof.
  revert n acc. induction fuel as [|fuel IH]; intros n acc Hn Hfuel.
  - simpl in Hfuel. assert (n = 0) by lia. now subst.
  - cbn [strconv.formatLoop].
    assert (0 <= n mod 10 < 10) as Hmod by (apply Z.mod_pos_bound; lia).
    assert (0 <= n / 10) as Hdiv by (apply Z.div_pos; lia).
    assert (n = 10 * (n / 10) + n mod 10) as Hn' by (apply Z.div_mod; lia).
    destruct (n / 10 =? 0) eqn:E.
    + apply Z.eqb_eq in E. rewrite atoiDigits_digit by exact Hmod. f_equal. lia.
    + rewrite IH.
      * rewrite atoiDigits_digit by exact Hmod. f_equal. lia.
      * exact Hdiv.
      * apply Z.div_lt_upper_bound; [lia|].
        rewrite Nat2Z.inj_succ, Z.pow_succ_r in Hfuel by lia. lia.
Qed.

Lemma formatLoop_head_digit (fuel : nat) (n : Z) (acc : gostring) :
  0 <= n -> (0 < fuel)%nat ->
  exists d s, 0 <= d < 10 /\ strconv.formatLoop fuel 10 n acc = strconv.digitChar d :: s.
Proof.
  revert n acc. induction fuel as [|fuel IH]; intros n acc Hn Hfuel; [lia|].
  cbn [strconv.formatLoop].
  assert (0 <= n mod 10 < 10) as Hmod by (apply Z.mod_pos_bound; lia).
  destruct (n / 10 =? 0); [now exists (n mod 10), acc|].
  destruct fuel as [|fuel]; [now exists (n mod 10), acc|].
  apply IH; [apply Z.div_pos; lia|lia].
Qed.

Lemma Atoi_FormatInt (n : Z) : 0 <= n <= maxInt64 -> Atoi (strconv.FormatInt n 10) = Some n.
Proof.
  intros Hn. unfold strconv.FormatInt. destruct (Z.ltb_spec n 0); [lia|].
  unfold strconv.FormatUint.
  destruct (formatLoop_head_digit 64 n [] ltac:(lia) ltac:(lia)) as (d & s & Hd & Hs).
  pose proof (atoiDigits_formatLoop 64 n [] ltac:(lia)) as Hdigits.
  rewrite Hs in *. unfold Atoi.
  assert (Ascii.eqb (strconv.digitChar d) (byteOf 45) = false /\
          Ascii.eqb (strconv.digitChar d) (byteOf 43) = false) as [-> ->].
  { assert (d = 0 \/ d = 1 \/ d = 2 \/ d = 3 \/ d = 4 \/ d = 5 \/ d = 6 \/ d = 7 \/
            d = 8 \/ d = 9) as Hc by lia.
    repeat (destruct Hc as [->|Hc]; [split; reflexivity|]). subst. split; reflexivity. }
  rewrite Hdigits.
  - cbn [atoiDigits].
    destruct (Z.leb_spec minInt64 n) as [_|H1]; [|unfold minInt64 in H1; lia].
    destruct (Z.leb_spec n maxInt64) as [_|H2]; [reflexivity|lia].
  - apply Z.le_lt_trans with maxInt64; [apply Hn|reflexivity].
Qed.

(** X29.  the credentials of a user.  When the lookup of the user gives its
    ids as decimal numbers within 32 bits, [setupUserCredentials] makes
    the command run with exactly these ids, in the user's home directory,
    with [USER] and [HOME] added at the end of its environment. *)
Theorem setupUserCredentials_ids (env : ExecEnv) (cmd : Cmd) (username home : gostring)
    (uid gid : Z) :
  0 <= uid < 4294967296 -> 0 <= gid < 4294967296 ->
  envLookup env username =
    Ok (mkUserInfo (strconv.FormatInt uid 10) (strconv.FormatInt gid 10) home) ->
  setupUserCredentials env cmd username =
  Ok (mkCmd (CmdArgs cmd)
            (CmdEnv cmd ++ [str "USER=" ++ username; str "HOME=" ++ home])
            home (Some (uid, gid))).
Proof.
  intros Huid Hgid Hlookup. unfold setupUserCredentials. rewrite Hlookup.
  cbn [Uid Gid HomeDir].
  rewrite !Atoi_FormatInt by (unfold maxInt64; lia).
  unfold uint32. rewrite !Z.mod_small by lia. reflexivity.
Qed.

Lemma setupUserCredentials_ids_witness :
  setupUserCredentials
    (mkExecEnv 0 [] (fun _ => Ok (mkUserInfo (str "1000") (str "100") (str "/home/alice")))
               ReverseEventMaskMap)
    (mkCmd [str "echo"] [str "PATH=/bin"] [] None) (str "alice") =
  Ok (mkCmd [str "echo"] [str "PATH=/bin"; str "USER=alice"; str "HOME=/home/alice"]
            (str "/home/alice") (Some (1000, 100))).
Proof.
  exact (setupUserCredentials_ids
           (mkExecEnv 0 []
              (fun _ => Ok (mkUserInfo (str "1000") (str "100") (str "/home/alice")))
              ReverseEventMaskMap)
           (mkCmd [str "echo"] [str "PATH=/bin"] [] None) (str "alice") (str "/home/alice")
           1000 100 ltac:(lia) ltac:(lia) eq_refl).
Defined.
